(** * Coordinate pipeline of app.py: CGCS2000 -> WGS84 -> GCJ-02

    A shallow embedding of the transformation core of [app.py]
    ([_transform_lat], [_transform_lng], [_out_of_china], [wgs84_to_gcj02],
    [cgcs2000_to_gcj02]) and of the two collaborators that feed it
    ([parse_coord_py] with its regular expressions, the record loop of
    [sheet_to_points]).

    The arithmetic of the core is written once, over an interface of the
    operations Python's [float] and [math] module offer.  The interface has
    two instances:
    - [Binary64]: IEEE 754 double precision ([PrimFloat]), with the two
      libm routines [sin] and [cos] left as arguments of the instance;
    - [Exact]: the real numbers, i.e. the arithmetic the formulas denote
      when no rounding takes place.
    Exceptions ([ValueError] from [math.sqrt]/[math.sin]/[math.cos],
    [ZeroDivisionError] from [/]) are explicit in a small error monad.

    The source does not determine what [sin] and [cos] return on doubles.
    A result on binary64 that depends on them is stated for every C
    library within [libm_range], or for every one that returns the values
    recorded in [Replay]; the other operations are those of IEEE 754, as
    [SpecFloat] specifies them.

    A second part covers what lies around that pipeline in [app.py]:
    [detect_columns] and the data frame, the category statistics, the
    session kept between the runs of the script, and three pieces of the
    script of the map page (the legend, the markers, [escapeHtml]). *)

From Stdlib Require Import ZArith QArith Bool List Lia Lra.
From Stdlib Require Import Floats.
From Stdlib Require Import Reals Qreals.
Import ListNotations.

(** ** Exceptions and the error monad *)

Inductive PyExc : Type :=
| ValueError
| ZeroDivisionError.

Inductive result (A : Type) : Type :=
| Ok (a : A)
| Raise (e : PyExc).

Arguments Ok {A} a.
Arguments Raise {A} e.

Definition bind {A B : Type} (m : result A) (k : A -> result B) : result B :=
  match m with
  | Ok a => k a
  | Raise e => Raise e
  end.

Declare Scope py_scope.
Delimit Scope py_scope with py.

Notation "x <- m ;; k" := (bind m (fun x => k))
  (at level 61, m at next level, right associativity) : py_scope.

Definition succeeds {A : Type} (m : result A) : Prop :=
  exists a, m = Ok a.

(** ** The interface of Python floats *)

Class PyFloat (F : Type) : Type := {
  (** value of a decimal literal of the source text *)
  dec : Q -> F;
  fadd : F -> F -> F;
  fsub : F -> F -> F;
  fmul : F -> F -> F;
  (** quotient for a divisor that is not zero *)
  fdiv : F -> F -> F;
  (** [x < y] *)
  fltb : F -> F -> bool;
  (** [x == 0.0] *)
  fis_zero : F -> bool;
  (** [math.isinf x] *)
  fis_inf : F -> bool;
  (** [-x] *)
  fneg : F -> F;
  (** [abs x] *)
  fabs : F -> F;
  (** the C library's sqrt, sin and cos, which [math] wraps *)
  fsqrt : F -> F;
  fsin : F -> F;
  fcos : F -> F
}.

Declare Scope pyfloat_scope.
Delimit Scope pyfloat_scope with pf.

Infix "+" := fadd : pyfloat_scope.
Infix "-" := fsub : pyfloat_scope.
Infix "*" := fmul : pyfloat_scope.
Infix "<?" := fltb : pyfloat_scope.

Arguments dec {F _} q%_Q.

Section Core.

Context {F : Type} `{PyFloat F}.

Local Open Scope pyfloat_scope.
Local Open Scope py_scope.

(** [a / b] on floats raises [ZeroDivisionError] when [b == 0.0]. *)
Definition truediv (a b : F) : result F :=
  if fis_zero b then Raise ZeroDivisionError else Ok (fdiv a b).

Infix "/" := truediv : py_scope.

(** [math.sqrt x] raises [ValueError] ("math domain error") when the result
    is NaN and the argument is not, that is when [x < 0]. *)
Definition math_sqrt (x : F) : result F :=
  if x <? dec 0 then Raise ValueError else Ok (fsqrt x).

(** [math.sin x] and [math.cos x] raise [ValueError] when the argument is
    an infinity. *)
Definition math_sin (x : F) : result F :=
  if fis_inf x then Raise ValueError else Ok (fsin x).

Definition math_cos (x : F) : result F :=
  if fis_inf x then Raise ValueError else Ok (fcos x).

(** *** Module constants *)

Definition PI : F := dec 3.1415926535897932384626.
Definition A : F := dec 6378245.0.
Definition EE : F := dec 0.00669342162296594323.

(** *** [_transform_lat] *)

Definition _transform_lat (lng lat : F) : result F :=
  r <- math_sqrt (fabs lng) ;;
  let ret := dec (-100.0) + dec 2.0 * lng + dec 3.0 * lat
             + dec 0.2 * lat * lat + dec 0.1 * lng * lat + dec 0.2 * r in
  s1 <- math_sin (dec 6.0 * lng * PI) ;;
  s2 <- math_sin (dec 2.0 * lng * PI) ;;
  t1 <- (dec 20.0 * s1 + dec 20.0 * s2) * dec 2.0 / dec 3.0 ;;
  let ret := ret + t1 in
  s3 <- math_sin (lat * PI) ;;
  q3 <- lat / dec 3.0 ;;
  s4 <- math_sin (q3 * PI) ;;
  t2 <- (dec 20.0 * s3 + dec 40.0 * s4) * dec 2.0 / dec 3.0 ;;
  let ret := ret + t2 in
  q12 <- lat / dec 12.0 ;;
  s5 <- math_sin (q12 * PI) ;;
  q30 <- lat / dec 30.0 ;;
  s6 <- math_sin (q30 * PI) ;;
  t3 <- (dec 160.0 * s5 + dec 320 * s6) * dec 2.0 / dec 3.0 ;;
  let ret := ret + t3 in
  Ok ret.

(** *** [_transform_lng] *)

Definition _transform_lng (lng lat : F) : result F :=
  r <- math_sqrt (fabs lng) ;;
  let ret := dec 300.0 + lng + dec 2.0 * lat
             + dec 0.1 * lng * lng + dec 0.1 * lng * lat + dec 0.1 * r in
  s1 <- math_sin (dec 6.0 * lng * PI) ;;
  s2 <- math_sin (dec 2.0 * lng * PI) ;;
  t1 <- (dec 20.0 * s1 + dec 20.0 * s2) * dec 2.0 / dec 3.0 ;;
  let ret := ret + t1 in
  s3 <- math_sin (lng * PI) ;;
  q3 <- lng / dec 3.0 ;;
  s4 <- math_sin (q3 * PI) ;;
  t2 <- (dec 20.0 * s3 + dec 40.0 * s4) * dec 2.0 / dec 3.0 ;;
  let ret := ret + t2 in
  q12 <- lng / dec 12.0 ;;
  s5 <- math_sin (q12 * PI) ;;
  q30 <- lng / dec 30.0 ;;
  s6 <- math_sin (q30 * PI) ;;
  t3 <- (dec 150.0 * s5 + dec 300.0 * s6) * dec 2.0 / dec 3.0 ;;
  let ret := ret + t3 in
  Ok ret.

(** *** [_out_of_china] *)

(** The chained comparison [a < x < b] is [a < x and x < b]. *)
Definition in_china (lng lat : F) : bool :=
  (dec 73.66 <? lng) && (lng <? dec 135.05)
  && ((dec 3.86 <? lat) && (lat <? dec 53.55)).

Definition _out_of_china (lng lat : F) : bool :=
  negb (in_china lng lat).

(** *** [wgs84_to_gcj02] *)

(** The part of [wgs84_to_gcj02] after the early return. *)
Definition distort (lng lat : F) : result (F * F) :=
  d_lat <- _transform_lat (lng - dec 105.0) (lat - dec 35.0) ;;
  d_lng <- _transform_lng (lng - dec 105.0) (lat - dec 35.0) ;;
  q <- lat / dec 180.0 ;;
  let rad_lat := q * PI in
  magic <- math_sin rad_lat ;;
  let magic := dec 1 - EE * magic * magic in
  sqrt_magic <- math_sqrt magic ;;
  u <- (A * (dec 1 - EE)) / (magic * sqrt_magic) ;;
  d_lat <- (d_lat * dec 180.0) / (u * PI) ;;
  v <- A / sqrt_magic ;;
  c <- math_cos rad_lat ;;
  d_lng <- (d_lng * dec 180.0) / (v * c * PI) ;;
  let mg_lat := lat + d_lat in
  let mg_lng := lng + d_lng in
  Ok (mg_lng, mg_lat).

Definition wgs84_to_gcj02 (lng lat : F) : result (F * F) :=
  if _out_of_china lng lat then Ok (lng, lat) else distort lng lat.

(** *** [cgcs2000_to_gcj02] *)

(** [transformer.transform] is pyproj's EPSG:4490 -> EPSG:4326 transformer,
    built once at import time with [always_xy=True]; it is a library
    routine, taken here as a function from a pair to a pair. *)
Variable transform : F -> F -> F * F.

Definition cgcs2000_to_gcj02 (cgcs_lng cgcs_lat : F) : result (F * F) :=
  let '(wgs84_lng, wgs84_lat) := transform cgcs_lng cgcs_lat in
  wgs84_to_gcj02 wgs84_lng wgs84_lat.

End Core.

Infix "/" := truediv : py_scope.

(** ** Instance: IEEE 754 binary64 *)

Module Binary64.

(** The double nearest to a decimal literal: the correctly rounded quotient
    of its numerator by its denominator (round to nearest, ties to even). *)
Definition dec64 (q : Q) : float :=
  let n := match Qnum q with
           | Z0 => S754_zero false
           | Zpos p => S754_finite false p 0
           | Zneg p => S754_finite true p 0
           end in
  SF2Prim (SFdiv prec emax n (S754_finite false (Qden q) 0)).

Section Libm.

(** [sin] and [cos] of the platform's C library, on doubles. *)
Variables libm_sin libm_cos : float -> float.

#[export] Instance float_ops : PyFloat float := {|
  dec := dec64;
  fadd := PrimFloat.add;
  fsub := PrimFloat.sub;
  fmul := PrimFloat.mul;
  fdiv := PrimFloat.div;
  fltb := PrimFloat.ltb;
  fis_zero := fun x => PrimFloat.eqb x PrimFloat.zero;
  fis_inf := PrimFloat.is_infinity;
  fneg := PrimFloat.opp;
  fabs := PrimFloat.abs;
  fsqrt := PrimFloat.sqrt;
  fsin := libm_sin;
  fcos := libm_cos
|}.

End Libm.

End Binary64.

(** ** Instance: exact real arithmetic *)

Module Exact.

Definition Rltb (x y : R) : bool :=
  if Rlt_dec x y then true else false.

Definition Ris_zero (x : R) : bool :=
  if Req_dec_T x 0 then true else false.

#[export] Instance real_ops : PyFloat R := {|
  dec := Q2R;
  fadd := Rplus;
  fsub := Rminus;
  fmul := Rmult;
  fdiv := Rdiv;
  fltb := Rltb;
  fis_zero := Ris_zero;
  fis_inf := fun _ => false;
  fneg := Ropp;
  fabs := Rabs;
  fsqrt := sqrt;
  fsin := sin;
  fcos := cos
|}.

End Exact.

(** ** The core in exact arithmetic *)

Module ExactCore.

Import Exact.

Local Open Scope R_scope.

(** The program's constants as real numbers. *)
Definition PIc : R := 3.1415926535897932384626.
Definition Ac : R := 6378245.0.
Definition EEc : R := 0.00669342162296594323.

(** Value of [_transform_lat lng lat]. *)
Definition transform_lat_value (lng lat : R) : R :=
  -100.0 + 2.0 * lng + 3.0 * lat + 0.2 * lat * lat + 0.1 * lng * lat
    + 0.2 * sqrt (Rabs lng)
  + (20.0 * sin (6.0 * lng * PIc) + 20.0 * sin (2.0 * lng * PIc)) * 2.0 / 3.0
  + (20.0 * sin (lat * PIc) + 40.0 * sin (lat / 3.0 * PIc)) * 2.0 / 3.0
  + (160.0 * sin (lat / 12.0 * PIc) + 320 * sin (lat / 30.0 * PIc))
      * 2.0 / 3.0.

(** Value of [_transform_lng lng lat]. *)
Definition transform_lng_value (lng lat : R) : R :=
  300.0 + lng + 2.0 * lat + 0.1 * lng * lng + 0.1 * lng * lat
    + 0.1 * sqrt (Rabs lng)
  + (20.0 * sin (6.0 * lng * PIc) + 20.0 * sin (2.0 * lng * PIc)) * 2.0 / 3.0
  + (20.0 * sin (lng * PIc) + 40.0 * sin (lng / 3.0 * PIc)) * 2.0 / 3.0
  + (150.0 * sin (lng / 12.0 * PIc) + 300.0 * sin (lng / 30.0 * PIc))
      * 2.0 / 3.0.

(** The locals [rad_lat], [magic] and [sqrt_magic] of [wgs84_to_gcj02]. *)
Definition rad_lat (lat : R) : R := lat / 180.0 * PIc.

Definition magic (lat : R) : R :=
  1 - EEc * sin (rad_lat lat) * sin (rad_lat lat).

Definition sqrt_magic (lat : R) : R := sqrt (magic lat).

(** Values of [mg_lat] and [mg_lng]. *)
Definition mg_lat_value (lng lat : R) : R :=
  lat + (transform_lat_value (lng - 105.0) (lat - 35.0) * 180.0)
        / ((Ac * (1 - EEc)) / (magic lat * sqrt_magic lat) * PIc).

Definition mg_lng_value (lng lat : R) : R :=
  lng + (transform_lng_value (lng - 105.0) (lat - 35.0) * 180.0)
        / (Ac / sqrt_magic lat * cos (rad_lat lat) * PIc).

(** The open rectangle of [_out_of_china]. *)
Definition inside (lng lat : R) : Prop :=
  73.66 < lng < 135.05 /\ 3.86 < lat < 53.55.

End ExactCore.

(** ** Text: [str], [strip], the regular expressions of [parse_coord_py] *)

(** A Python [str] is a sequence of Unicode code points. *)
Definition char : Type := N.
Definition str : Type := list char.

(** What the Unicode database says of a code point: its value as a decimal
    digit (category Nd; this is what [\d] matches and [float] reads) and
    whether [str.isspace] holds of it. *)
Class UnicodeDB : Type := {
  digit_value : char -> option N;
  isspace : char -> bool
}.

(** The database restricted to ASCII. *)
Definition ascii_db : UnicodeDB := {|
  digit_value := fun c =>
    if ((48 <=? c) && (c <=? 57))%N then Some (c - 48)%N else None;
  isspace := fun c =>
    (((9 <=? c) && (c <=? 13)) || ((28 <=? c) && (c <=? 32)))%N
|}.

Definition str_eqb (s t : str) : bool :=
  if list_eq_dec N.eq_dec s t then true else false.

Fixpoint startswith (p s : str) : bool :=
  match p, s with
  | [], _ => true
  | _ :: _, [] => false
  | a :: p', b :: s' => N.eqb a b && startswith p' s'
  end.

(** [k in s] on strings: [k] occurs in [s] as a substring. *)
Fixpoint contains (k s : str) : bool :=
  startswith k s ||
  match s with
  | [] => false
  | _ :: s' => contains k s'
  end.

Section Text.

Context {db : UnicodeDB}.

Definition isdigit (c : char) : bool :=
  match digit_value c with
  | Some _ => true
  | None => false
  end.

Fixpoint lstrip (s : str) : str :=
  match s with
  | [] => []
  | c :: s' => if isspace c then lstrip s' else s
  end.

(** [s.strip()] *)
Definition strip (s : str) : str :=
  rev (lstrip (rev (lstrip s))).

(** *** Regular expressions

    The fragment of [re] that the three patterns use.  Repetition is only
    ever applied to a one-character class. *)

Inductive cclass : Type :=
| CLit (c : char)   (* a literal character *)
| CDigit            (* \d *)
| CNonDigit.        (* [^\d] *)

Inductive regex : Type :=
| One (c : cclass)         (* one character of the class *)
| Plus (c : cclass)        (* c+, greedy *)
| Opt (r : regex)          (* r?, greedy *)
| Cat (r1 r2 : regex)      (* r1 r2 *)
| Group (r : regex).       (* ( r ), capturing *)

Definition in_class (c : cclass) (x : char) : bool :=
  match c with
  | CLit y => N.eqb x y
  | CDigit => isdigit x
  | CNonDigit => negb (isdigit x)
  end.

Section Matcher.

Variable X : Type.

(** Zero or more characters of the class, longest first, then [k] on the
    rest; on failure of [k] one character is given back. *)
Fixpoint star_run (c : cclass) (s : str) (k : str -> option X) : option X :=
  match s with
  | [] => k []
  | x :: s' =>
      if in_class c x
      then match star_run c s' k with
           | Some v => Some v
           | None => k s
           end
      else k s
  end.

Definition plus_run (c : cclass) (s : str) (k : str -> option X) : option X :=
  match s with
  | [] => None
  | x :: s' => if in_class c x then star_run c s' k else None
  end.

(** Backtracking match of [r] at the start of [s]; [caps] are the texts of
    the groups closed so far, [k] continues on the rest of the text. *)
Fixpoint run (r : regex) (s : str) (caps : list str)
    (k : str -> list str -> option X) : option X :=
  match r with
  | One c =>
      match s with
      | [] => None
      | x :: s' => if in_class c x then k s' caps else None
      end
  | Plus c => plus_run c s (fun s' => k s' caps)
  | Opt r1 =>
      match run r1 s caps k with
      | Some v => Some v
      | None => k s caps
      end
  | Cat r1 r2 => run r1 s caps (fun s' caps' => run r2 s' caps' k)
  | Group r1 =>
      run r1 s caps
        (fun s' caps' =>
           k s' (caps' ++ [firstn (length s - length s') s]))
  end.

End Matcher.

(** [re.fullmatch(r, s)]: the groups of a match of the whole of [s]. *)
Definition fullmatch (r : regex) (s : str) : option (list str) :=
  run (list str) r s []
    (fun s' caps => match s' with [] => Some caps | _ :: _ => None end).

(** [r.search(s)]: the groups of the leftmost match. *)
Fixpoint search (r : regex) (s : str) : option (list str) :=
  match run (list str) r s [] (fun _ caps => Some caps) with
  | Some caps => Some caps
  | None =>
      match s with
      | [] => None
      | _ :: s' => search r s'
      end
  end.

Definition minus : char := 45%N.
Definition dot : char := 46%N.

(** [-?\d+] *)
Definition re_int : regex := Cat (Opt (One (CLit minus))) (Plus CDigit).

(** [\d+(?:\.\d+)?] *)
Definition re_num : regex :=
  Cat (Plus CDigit) (Opt (Cat (One (CLit dot)) (Plus CDigit))).

(** [-?\d+(\.\d+)?], the pattern of the [re.fullmatch] call *)
Definition re_decimal : regex :=
  Cat re_int (Opt (Group (Cat (One (CLit dot)) (Plus CDigit)))).

(** [dms_re = (-?\d+)[^\d]+(\d+)[^\d]+(\d+(?:\.\d+)?)] *)
Definition dms_re : regex :=
  Cat (Group re_int)
   (Cat (Plus CNonDigit)
    (Cat (Group (Plus CDigit))
     (Cat (Plus CNonDigit) (Group re_num)))).

(** [dms_re2 = (-?\d+)[^\d]+(\d+(?:\.\d+)?)] *)
Definition dms_re2 : regex :=
  Cat (Group re_int) (Cat (Plus CNonDigit) (Group re_num)).

(** *** Reading a number *)

(** Value of a run of digits, most significant first. *)
Definition digits_value (ds : str) : N :=
  fold_left
    (fun acc c =>
       (10 * acc + match digit_value c with Some d => d | None => 0 end)%N)
    ds 0%N.

Fixpoint split_dot (s : str) : str * str :=
  match s with
  | [] => ([], [])
  | c :: s' =>
      if N.eqb c dot then ([], s')
      else let '(a, b) := split_dot s' in (c :: a, b)
  end.

(** The rational a text [digits] or [digits.digits] denotes. *)
Definition decimal_Q (s : str) : Q :=
  let '(ip, fp) := split_dot s in
  let scale := (10 ^ N.of_nat (length fp))%N in
  Qmake (Z.of_N (digits_value ip * scale + digits_value fp))
        (N.succ_pos (N.pred scale)).

(** *** Notions used to state what the patterns accept *)


(** No character of the text is a digit. *)
Definition digit_free (s : str) : Prop :=
  Forall (fun c => isdigit c = false) s.


(** Number of capturing groups, and the patterns whose optional parts hold
    none: every match of such a pattern closes that many groups. *)
Fixpoint ngroups (r : regex) : nat :=
  match r with
  | One _ | Plus _ => 0
  | Opt r1 => ngroups r1
  | Cat r1 r2 => ngroups r1 + ngroups r2
  | Group r1 => S (ngroups r1)
  end.

Fixpoint groups_fixed (r : regex) : bool :=
  match r with
  | One _ | Plus _ => true
  | Opt r1 => Nat.eqb (ngroups r1) 0 && groups_fixed r1
  | Cat r1 r2 => groups_fixed r1 && groups_fixed r2
  | Group r1 => groups_fixed r1
  end.


End Text.

(** ** [parse_coord_py], the category table and [sheet_to_points] *)

(** [CATEGORY_COLORS], in the order of the dictionary display; every value
    is a dictionary with the one key ["color"]. *)
Record CatInfo : Type := { color : str }.

Definition cat_site : str := [21476; 36951; 22336]%N.
Definition cat_grotto : str := [30707; 31391; 23546; 21450; 30707; 21051]%N.
Definition cat_building : str := [21476; 24314; 31569]%N.
Definition cat_modern : str :=
  [36817; 29616; 20195; 37325; 35201; 21490; 36857; 21450; 20195; 34920;
   24615; 24314; 31569]%N.
Definition cat_other : str := [20854; 20182]%N.

Definition CATEGORY_COLORS : list (str * CatInfo) :=
  [ (cat_site,     {| color := [35; 70; 70; 54; 66; 54; 66]%N |});
    (cat_grotto,   {| color := [35; 52; 69; 67; 68; 67; 52]%N |});
    (cat_building, {| color := [35; 52; 53; 66; 55; 68; 49]%N |});
    (cat_modern,   {| color := [35; 70; 70; 65; 53; 48; 48]%N |});
    (cat_other,    {| color := [35; 57; 53; 65; 53; 65; 54]%N |}) ].

(** [CATEGORY_COLORS["其他"]] *)
Definition other_info : CatInfo :=
  {| color := [35; 57; 53; 65; 53; 65; 54]%N |}.

Definition is_empty (s : str) : bool :=
  match s with [] => true | _ :: _ => false end.

(** The [for key in CATEGORY_COLORS.keys()] loop of [get_category_info]. *)
Fixpoint category_scan (table : list (str * CatInfo)) (category_str : str)
    : CatInfo :=
  match table with
  | [] => other_info
  | (key, info) :: rest =>
      if negb (str_eqb key cat_other) && contains key category_str
      then info
      else category_scan rest category_str
  end.

Definition get_category_info (category_str : str) : CatInfo :=
  if is_empty category_str then other_info
  else category_scan CATEGORY_COLORS category_str.

(** The loop of [sheet_to_points] that picks [category_key]. *)
Fixpoint category_key_scan (table : list (str * CatInfo)) (cat : str) : str :=
  match table with
  | [] => cat_other
  | (key, _) :: rest =>
      if negb (str_eqb key cat_other) && negb (is_empty cat)
         && contains key cat
      then key
      else category_key_scan rest cat
  end.

(** [category_stats[k] = category_stats.get(k, 0) + 1] on a dictionary kept
    as the list of its items in insertion order. *)
Fixpoint bump (k : str) (category_stats : list (str * nat))
    : list (str * nat) :=
  match category_stats with
  | [] => [(k, 1%nat)]
  | (k', n) :: rest =>
      if str_eqb k' k then (k', S n) :: rest else (k', n) :: bump k rest
  end.

(** One row of the data frame, seen through [detect_columns]: for each key
    the text [str(row.iloc[idx])] of the cell in the column found for it,
    or [None] when no column was found or the cell is not available. *)
Record Row : Type := {
  cell_name : option str;
  cell_lat : option str;
  cell_lng : option str;
  cell_addr : option str;
  cell_era_specific : option str;
  cell_era_broad : option str;
  cell_category : option str;
  cell_desc : option str;
  cell_type : option str
}.

(** One element of [pts]. *)
Record Point (F : Type) : Type := {
  pt_name : str;
  pt_lat : F;
  pt_lng : F;
  pt_addr : str;
  pt_era : str;
  pt_category : str;
  pt_main_category : str;
  pt_desc : str;
  pt_type : str;
  pt_color : str
}.

Arguments pt_name {F} _.
Arguments pt_lat {F} _.
Arguments pt_lng {F} _.
Arguments pt_addr {F} _.
Arguments pt_era {F} _.
Arguments pt_category {F} _.
Arguments pt_main_category {F} _.
Arguments pt_desc {F} _.
Arguments pt_type {F} _.
Arguments pt_color {F} _.

Section Upstream.

Context {F : Type} `{PyFloat F} {db : UnicodeDB}.

Local Open Scope pyfloat_scope.
Local Open Scope py_scope.

(** [float(g)] on the texts it is applied to here, [-?digits(.digits)?]. *)
Definition float_of_str (g : str) : F :=
  match g with
  | c :: g' => if N.eqb c minus then fneg (dec (decimal_Q g'))
               else dec (decimal_Q g)
  | [] => dec (decimal_Q g)
  end.

(** [sign * x] with [sign = -1 if d < 0 else 1] *)
Definition signed (d x : F) : F :=
  (if d <? dec 0 then dec (-1) else dec 1) * x.

(** [parse_coord_py v]; [v] is [None] or the text [str(v)].  Unpacking the
    groups of a match into the wrong number of names is a [ValueError]. *)
Definition parse_coord_py (v : option str) : result (option F) :=
  match v with
  | None => Ok None
  | Some text =>
      let s := strip text in
      if is_empty s then Ok None
      else
        match fullmatch re_decimal s with
        | Some _ => Ok (Some (float_of_str s))
        | None =>
            match search dms_re s with
            | Some m =>
                match map float_of_str m with
                | [d; mm; ss] =>
                    q1 <- mm / dec 60.0 ;;
                    q2 <- ss / dec 3600.0 ;;
                    Ok (Some (signed d (fabs d + q1 + q2)))
                | _ => Raise ValueError
                end
            | None =>
                match search dms_re2 s with
                | Some m2 =>
                    match map float_of_str m2 with
                    | [d; mm] =>
                        q1 <- mm / dec 60.0 ;;
                        Ok (Some (signed d (fabs d + q1)))
                    | _ => Raise ValueError
                    end
                | None => Ok None
                end
            end
        end
  end.

(** [get_val key] of the loop body, on the cell of that key. *)
Definition get_val (cell : option str) : str :=
  match cell with
  | Some text => strip text
  | None => []
  end.

(** [a or b] on strings *)
Definition str_or (a b : str) : str :=
  if is_empty a then b else a.

Variable transform : F -> F -> F * F.

(** The body of [for _, row in df.iterrows()], on the pair
    [(pts, category_stats)]. *)
Definition row_step (acc : list (Point F) * list (str * nat)) (row : Row)
    : result (list (Point F) * list (str * nat)) :=
  let '(pts, category_stats) := acc in
  let name := get_val (cell_name row) in
  let lat_str := get_val (cell_lat row) in
  let lng_str := get_val (cell_lng row) in
  lat <- parse_coord_py (Some lat_str) ;;
  lng <- parse_coord_py (Some lng_str) ;;
  match lat, lng with
  | Some lat, Some lng =>
      g <- cgcs2000_to_gcj02 transform lng lat ;;
      let '(gcj_lng, gcj_lat) := g in
      let cat := get_val (cell_category row) in
      let category_key := category_key_scan CATEGORY_COLORS cat in
      let category_stats := bump category_key category_stats in
      Ok (pts ++ [ {| pt_name := name;
                      pt_lat := gcj_lat;
                      pt_lng := gcj_lng;
                      pt_addr := get_val (cell_addr row);
                      pt_era := str_or (get_val (cell_era_specific row))
                                       (get_val (cell_era_broad row));
                      pt_category := cat;
                      pt_main_category := cat;
                      pt_desc := get_val (cell_desc row);
                      pt_type := get_val (cell_type row);
                      pt_color := color (get_category_info cat) |} ],
          category_stats)
  | _, _ => Ok (pts, category_stats)
  end.

Fixpoint rows_loop (rows : list Row)
    (acc : list (Point F) * list (str * nat))
    : result (list (Point F) * list (str * nat)) :=
  match rows with
  | [] => Ok acc
  | row :: rest => acc' <- row_step acc row ;; rows_loop rest acc'
  end.

(** [sheet_to_points df] for a frame whose name, latitude and longitude
    columns were found; [rows] are its rows in order. *)
Definition sheet_to_points (rows : list Row)
    : result (list (Point F) * list (str * nat)) :=
  rows_loop rows ([], []).

(** *** Notions used to state which rows yield a point *)




End Upstream.

(** ** The formulas of the distortion stage, as the specification words them

    These definitions follow the specification, not the code: a fixed
    polynomial in the two offsets, sine harmonics of the offsets scaled by
    pi whose groups are weighted by 2/3, and a scaling by [magic].  Where
    the specification leaves open to which offset a term applies, the
    offset is the one the code uses. *)

Module SpecFormula.

Import ExactCore.

Local Open Scope R_scope.






Definition lat_in_radians (lat : R) : R := lat * PIc / 180.

(** [magic = 1 - ee * sin^2 (lat_in_radians)] *)
Definition magic (lat : R) : R :=
  1 - EEc * (sin (lat_in_radians lat)) ^ 2.




End SpecFormula.

(** ** Laws of the interface

    What the proofs below use of an instance: [<] is irreflexive, [abs]
    never yields a negative number, and none of the literals the program
    divides by is zero. *)

Definition literal_divisors : list Q :=
  [3.0; 12.0; 30.0; 60.0; 180.0; 3600.0]%Q.

Class PyFloatLaws (F : Type) `{PyFloat F} : Prop := {
  fltb_irrefl : forall x : F, fltb x x = false;
  fabs_not_neg : forall x : F, fltb (fabs x) (dec 0) = false;
  divisors_nonzero :
    forall q, In q literal_divisors -> fis_zero (dec q) = false
}.

(** [a < x < b] as a proposition. *)
Definition between {F : Type} `{PyFloat F} (a x b : F) : Prop :=
  fltb a x = true /\ fltb x b = true.

(** The point lies strictly inside the rectangle of [_out_of_china]. *)
Definition strictly_inside {F : Type} `{PyFloat F} (lng lat : F) : Prop :=
  between (dec 73.66) lng (dec 135.05) /\ between (dec 3.86) lat (dec 53.55).

(** ** Sample data

    Two rows over the ASCII database, with every cell but the name and the
    coordinates missing: one whose latitude cell reads "N/A", one at
    latitude "0", longitude "0".  [null_shift] is a reprojection that
    leaves the pair as it is. *)

Definition sample_row (name lat lng : str) : Row :=
  {| cell_name := Some name; cell_lat := Some lat; cell_lng := Some lng;
     cell_addr := None; cell_era_specific := None; cell_era_broad := None;
     cell_category := None; cell_desc := None; cell_type := None |}.

Definition bad_row : Row := sample_row [97%N] [78; 47; 65]%N [49%N].


Definition null_shift {F : Type} (x y : F) : F * F := (x, y).

(** ** Enclosures used for the reference vector

    Interval forms of the Taylor polynomials of sine (degrees 7 and 9) and
    cosine (degrees 6 and 8) for an argument between [lo] and [hi], and
    the reference point of the specification with its two offsets. *)

Module Enclosure.

Local Open Scope R_scope.

Definition sin_lo (lo hi : R) : R :=
  lo - hi ^ 3 / 6 + lo ^ 5 / 120 - hi ^ 7 / 5040.

Definition sin_hi (lo hi : R) : R :=
  hi - lo ^ 3 / 6 + hi ^ 5 / 120 - lo ^ 7 / 5040 + hi ^ 9 / 362880.

Definition cos_lo (lo hi : R) : R :=
  1 - hi ^ 2 / 2 + lo ^ 4 / 24 - hi ^ 6 / 720.

Definition cos_hi (lo hi : R) : R :=
  1 - lo ^ 2 / 2 + hi ^ 4 / 24 - lo ^ 6 / 720 + hi ^ 8 / 40320.

Definition lng0 : R := 116.404.
Definition lat0 : R := 39.915.
Definition x0 : R := lng0 - 105.0.
Definition y0 : R := lat0 - 35.0.

End Enclosure.

(** ** A recorded run of the C library

    The values glibc's [sin] and [cos] return, on x86-64, at the twelve
    arguments that arise when the reference point (116.404, 39.915) is
    converted in binary64; [agrees f table] says that [f] returns them. *)

Module Replay.

Definition sin_table : list (float * float) :=
  [ (0x1.adebb11fec6dcp+7, 0x1.f179b6e93fap-1);
    (0x1.1e9d20bff2f3dp+6, 0x1.2271136112541p-1);
    (0x1.ee1c14cfb739p+3, 0x1.0e34bc9f96984p-2);
    (0x1.49680ddfcf7b5p+2, -0x1.d06812b2d42c6p-1);
    (0x1.49680ddfcf7b5p+0, 0x1.eb7ba38b9cbb8p-1);
    (0x1.0786717fd92f7p-1, 0x1.f8160f005df1cp-2);
    (0x1.1e9d20bff2f3dp+5, -0x1.e8e4016f97eedp-1);
    (0x1.7e26d65543efcp+3, -0x1.2b35563ded67cp-1);
    (0x1.7e26d65543efcp+1, 0x1.3e4264f318cp-3);
    (0x1.31b8ab77698cap+0, 0x1.dc1fdd372c36ap-1);
    (0x1.64af11adf49cap-1, 0x1.4886687dc8856p-1) ]%float.

Definition cos_table : list (float * float) :=
  [ (0x1.64af11adf49cap-1, 0x1.88b3db343201dp-1) ]%float.

Definition agrees (f : float -> float) (table : list (float * float))
    : Prop :=
  Forall (fun p => f (fst p) = snd p) table.

(** The function that returns the recorded values, and [d] elsewhere. *)
Fixpoint lookup (d : float) (table : list (float * float)) (x : float)
    : float :=
  match table with
  | [] => d
  | (a, v) :: rest => if PrimFloat.eqb a x then v else lookup d rest x
  end.

(** A stand-in for the C library: the recorded values, 0 for any other
    sine and 1 for any other cosine. *)
Definition sin_stub : float -> float := lookup 0 sin_table.

Definition cos_stub : float -> float := lookup 1 cos_table.

(** [c - tol <= x <= c + tol], the bounds being decimal literals. *)
Definition within64 (x : float) (c tol : Q) : bool :=
  PrimFloat.leb (Binary64.dec64 (c - tol)) x
  && PrimFloat.leb x (Binary64.dec64 (c + tol)).

End Replay.

(** ** Magnitudes of binary64 numbers

    What the proof that no operation of the distortion stage raises in
    binary64 keeps track of.  The magnitude of a finite number [m * 2^e]
    is the [k] with [2^(k-1) <= m * 2^e < 2^k]; an operation cannot
    overflow, nor round to zero, when the magnitude of its exact result
    stays away from both ends of the format. *)

Module Magnitude.

Local Open Scope Z_scope.

Definition mag (m : positive) (e : Z) : Z := Zpos (digits2_pos m) + e.

(** The least exponent of the format and its exponent function. *)
Definition emin64 : Z := -1074.

Definition fexp64 (d : Z) : Z := Z.max (d - 53) emin64.

(** What [valid_binary] says of the mantissa and exponent of a double. *)
Definition canonical (m : positive) (e : Z) : Prop :=
  e = fexp64 (mag m e) /\ e <= 971.

(** A zero of sign [s], or a finite number of sign [s] whose magnitude
    lies between [lo] and [hi]. *)
Definition rounded (s : bool) (lo hi : Z) (x : spec_float) : Prop :=
  match x with
  | S754_zero s' => s' = s
  | S754_finite s' m e => s' = s /\ lo <= mag m e <= hi
  | _ => False
  end.

(** The same without the zero. *)
Definition finite_in (s : bool) (lo hi : Z) (x : spec_float) : Prop :=
  match x with
  | S754_finite s' m e => s' = s /\ lo <= mag m e <= hi
  | _ => False
  end.

(** Finite and not zero, of either sign. *)
Definition nonzero_in (lo hi : Z) (x : spec_float) : Prop :=
  match x with
  | S754_finite _ m e => lo <= mag m e <= hi
  | _ => False
  end.

(** A zero, or finite and below [2 ^ hi] in absolute value. *)
Definition small (hi : Z) (x : spec_float) : Prop :=
  match x with
  | S754_zero _ => True
  | S754_finite _ m e => mag m e <= hi
  | _ => False
  end.

(** The last step of [binary_round_aux]: the rounded mantissa is brought
    back to at most 53 digits. *)
Definition renormalize (s : bool) (m e : Z) : spec_float :=
  let '(mrs, e') := shr_fexp prec emax m e loc_Exact in
  match shr_m mrs with
  | Z0 => S754_zero s
  | Zpos m' =>
      if e' <=? emax - prec then S754_finite s m' e' else S754_infinity s
  | Zneg _ => S754_nan
  end.

(** The number 1. *)
Definition SF_one : spec_float := S754_finite false 4503599627370496 (-52).

(** The value [m * 2^e] in units of [2^-2200], an integer for every
    exponent that arises. *)
Definition scaled (m e : Z) : Z := m * 2 ^ (e + 2200).

(** Positive, finite and at most [N * 2^k]. *)
Definition at_most (N k : Z) (x : spec_float) : Prop :=
  match x with
  | S754_finite false m e => scaled (Zpos m) e <= scaled N k
  | _ => False
  end.

(** The same notions on doubles, and two of them as tests. *)
Definition small64 (k : Z) (x : float) : Prop := small k (Prim2SF x).

Definition nonzero64 (lo hi : Z) (x : float) : Prop :=
  nonzero_in lo hi (Prim2SF x).

Definition positive64 (lo hi : Z) (x : float) : Prop :=
  finite_in false lo hi (Prim2SF x).

Definition at_most64 (N k : Z) (x : float) : Prop :=
  at_most N k (Prim2SF x).

Definition small64b (k : Z) (x : float) : bool :=
  match Prim2SF x with
  | S754_zero _ => true
  | S754_finite _ m e => mag m e <=? k
  | _ => false
  end.

Definition positive64b (lo hi : Z) (x : float) : bool :=
  match Prim2SF x with
  | S754_finite false m e => (lo <=? mag m e) && (mag m e <=? hi)
  | _ => false
  end.

End Magnitude.

(** ** What is asked of the C library

    The source does not determine what [sin] and [cos] of the platform
    return.  The binary64 result on exceptions holds for every C library
    whose [sin] and [cos] return, on a finite argument, a number of
    absolute value at most 1, and whose [cos] returns no zero for an
    argument strictly between 0 and 1. *)

Record libm_range (libm_sin libm_cos : float -> float) : Prop := {
  sin_le_one :
    forall x, PrimFloat.is_finite x = true ->
              PrimFloat.leb (PrimFloat.abs (libm_sin x)) 1 = true;
  cos_le_one :
    forall x, PrimFloat.is_finite x = true ->
              PrimFloat.leb (PrimFloat.abs (libm_cos x)) 1 = true;
  cos_not_zero :
    forall x, PrimFloat.ltb 0 x = true -> PrimFloat.ltb x 1 = true ->
              PrimFloat.eqb (libm_cos x) 0 = false
}.

(* ------------------------------------------------------------------ *)
(** * Around the core: statistics, texts, columns, session, page *)

(** ** The category statistics and the sidebar

    [table_get] is [CATEGORY_COLORS.get]; [sidebar_color] is the colour the
    sidebar shows beside a key of [category_stats]:
    [CATEGORY_COLORS.get(cat, CATEGORY_COLORS["其他"])["color"]];
    [stats_get] is [category_stats.get(k, 0)]. *)

Fixpoint table_get (k : str) (table : list (str * CatInfo))
    : option CatInfo :=
  match table with
  | [] => None
  | (k', info) :: rest => if str_eqb k' k then Some info else table_get k rest
  end.

Definition sidebar_color (cat : str) : str :=
  color (match table_get cat CATEGORY_COLORS with
         | Some info => info
         | None => other_info
         end).

Fixpoint stats_get (k : str) (category_stats : list (str * nat)) : nat :=
  match category_stats with
  | [] => 0%nat
  | (k', n) :: rest => if str_eqb k' k then n else stats_get k rest
  end.

(** The key a point is counted under. *)
Definition category_key {F : Type} (p : Point F) : str :=
  category_key_scan CATEGORY_COLORS (pt_category p).

(** The number of points counted under [k]. *)
Definition points_under {F : Type} (k : str) (pts : list (Point F)) : nat :=
  length (filter (fun p => str_eqb (category_key p) k) pts).

(** The sum of the counts. *)
Definition stats_total (category_stats : list (str * nat)) : nat :=
  fold_right (fun kn acc => (snd kn + acc)%nat) 0%nat category_stats.

(** What the loop of [sheet_to_points] keeps true of [pts] and
    [category_stats]: every count is the number of points under its key
    and is positive, the counts add up to the number of points, no key
    occurs twice, every key is a key of [CATEGORY_COLORS], and the colour
    of every point is the colour of its key. *)
Definition stats_invariant {F : Type} (pts : list (Point F))
    (category_stats : list (str * nat)) : Prop :=
  (forall k, stats_get k category_stats = points_under k pts) /\
  stats_total category_stats = length pts /\
  NoDup (map fst category_stats) /\
  Forall (fun kn => (0 < snd kn)%nat) category_stats /\
  (forall k, In k (map fst category_stats) ->
             table_get k CATEGORY_COLORS <> None) /\
  Forall (fun p => pt_color p = sidebar_color (category_key p)) pts.

(** *** The legend of the map page

    The script of the page receives [points] and [CATEGORY_COLORS] as JSON
    and counts the points again.  [catKey] is the loop
    [for (let cat in categories)] inside [points.forEach], which looks at
    [p.main_category]; [categoryCount] is the object the loop fills by
    [categoryCount[catKey] = (categoryCount[catKey] || 0) + 1]; [legend]
    is the list of the items appended to the legend, one for each key of
    [categories] whose count is not zero.  The keys hold no character
    outside the Basic Multilingual Plane, so [includes] on UTF-16 code
    units finds what [in] finds on code points. *)

Fixpoint catKey_scan (categories : list (str * CatInfo))
    (main_category : str) : str :=
  match categories with
  | [] => cat_other
  | (cat, _) :: rest =>
      if negb (str_eqb cat cat_other) && negb (is_empty main_category)
         && contains cat main_category
      then cat
      else catKey_scan rest main_category
  end.

Definition catKey {F : Type} (p : Point F) : str :=
  catKey_scan CATEGORY_COLORS (pt_main_category p).

Definition categoryCount {F : Type} (points : list (Point F))
    : list (str * nat) :=
  fold_left (fun count p => bump (catKey p) count) points [].

Definition legend {F : Type} (points : list (Point F)) : list (str * nat) :=
  flat_map
    (fun entry =>
       match stats_get (fst entry) (categoryCount points) with
       | O => []
       | S n => [(fst entry, S n)]
       end)
    CATEGORY_COLORS.

(** *** Sample sheet with categories

    Four rows over the ASCII database, all outside the rectangle of
    [_out_of_china]: two whose category text contains the key of
    [cat_building], one whose latitude reads "N/A", one without a
    category.  [sample_ops] is binary64 with the recorded values of the C
    library. *)

Definition categorised_row (name lat lng category : str) : Row :=
  {| cell_name := Some name; cell_lat := Some lat; cell_lng := Some lng;
     cell_addr := None; cell_era_specific := None; cell_era_broad := None;
     cell_category := Some category; cell_desc := None; cell_type := None |}.

Definition sample_rows : list Row :=
  [ categorised_row [97]%N [51]%N [52]%N (cat_building ++ [65]%N);
    bad_row;
    categorised_row [98]%N [48]%N [48]%N [];
    categorised_row [99]%N [49]%N [50]%N (66%N :: cat_building) ].

Definition sample_ops : PyFloat float :=
  Binary64.float_ops Replay.sin_stub Replay.cos_stub.

Definition sample_point (name : str) (lat lng : float) (category : str)
    (c : CatInfo) : Point float :=
  {| pt_name := name; pt_lat := lat; pt_lng := lng; pt_addr := [];
     pt_era := []; pt_category := category; pt_main_category := category;
     pt_desc := []; pt_type := []; pt_color := color c |}.

Definition building_info : CatInfo :=
  {| color := [35; 52; 53; 66; 55; 68; 49]%N |}.

Definition sample_points : list (Point float) :=
  [ sample_point [97]%N 3 4 (cat_building ++ [65]%N) building_info;
    sample_point [98]%N 0 0 [] other_info;
    sample_point [99]%N 1 2 (66%N :: cat_building) building_info ].

Definition sample_stats : list (str * nat) :=
  [(cat_building, 2%nat); (cat_other, 1%nat)].

(** ** Shapes of coordinate texts

    The notions used to state what [parse_coord_py] reads out of a text:
    runs of digits, separators, and what a pattern may consume. *)

(** What is asked of the Unicode database: the characters [-] and [.] are
    not decimal digits. *)
Class UnicodeLaws (db : UnicodeDB) : Prop := {
  minus_not_digit : digit_value minus = None;
  dot_not_digit : digit_value dot = None
}.

Section Shapes.

Context {db : UnicodeDB}.

Definition all_digits (s : str) : Prop :=
  Forall (fun c => isdigit c = true) s.

(** A run of digits that is not empty. *)
Definition digits (s : str) : Prop := s <> [] /\ all_digits s.

(** A run of characters other than digits that is not empty. *)
Definition separator (s : str) : Prop := s <> [] /\ digit_free s.

(** Nothing, or the character [-]. *)
Definition is_sign (s : str) : Prop := s = [] \/ s = [minus].

(** [digits] or [digits.digits] *)
Definition number (s : str) : Prop :=
  digits s \/ exists ip fp, s = ip ++ dot :: fp /\ digits ip /\ digits fp.

(** The text is empty or begins with a character that is not a digit. *)
Definition no_digit_ahead (t : str) : Prop :=
  match t with
  | [] => True
  | c :: _ => isdigit c = false
  end.

(** The text [t] does not begin with a character of the class. *)
Definition not_ahead (c : cclass) (t : str) : Prop :=
  match t with
  | [] => True
  | x :: _ => in_class c x = false
  end.

(** The texts a pattern may consume. *)
Fixpoint lang (r : regex) (p : str) : Prop :=
  match r with
  | One c => exists x, p = [x] /\ in_class c x = true
  | Plus c => p <> [] /\ Forall (fun x => in_class c x = true) p
  | Opt r1 => p = [] \/ lang r1 p
  | Cat r1 r2 => exists p1 p2, p = p1 ++ p2 /\ lang r1 p1 /\ lang r2 p2
  | Group r1 => lang r1 p
  end.

(** The matcher consumes [p] in front of [t] at its first attempt, closing
    the groups [gs]: whatever continuation succeeds after that makes the
    match succeed with its result. *)
Definition accepts (r : regex) (p t : str) (gs : list str) : Prop :=
  forall (X : Type) (caps : list str) (k : str -> list str -> option X)
         (v : X),
  k t (caps ++ gs) = Some v -> run X r (p ++ t) caps k = Some v.

(** The number of maximal runs of digits of a text; [prev] tells whether
    the character before the text is a digit. *)
Fixpoint digit_runs_from (prev : bool) (s : str) : nat :=
  match s with
  | [] => 0
  | c :: s' =>
      ((if isdigit c && negb prev then 1 else 0)
       + digit_runs_from (isdigit c) s')%nat
  end.

Definition digit_runs (s : str) : nat := digit_runs_from false s.


(** A plain decimal: [-?digits] or [-?digits.digits]. *)
Definition decimal_text (s : str) : Prop :=
  exists sg n, s = sg ++ n /\ is_sign sg /\ number n.

(** What may stand before the first number of a reading: characters that
    are not digits, the last of which is not a [-] unless the number has
    a sign of its own. *)
Definition junk (j sg : str) : Prop :=
  digit_free j /\ (sg = [] -> forall j', j <> j' ++ [minus]).

(** The number [n] is not continued by [rest]: no digit follows it, and
    when [n] has no fraction, no [.digit] either. *)
Definition stops (n rest : str) : Prop :=
  no_digit_ahead rest /\
  (all_digits n ->
   forall c rest', rest = dot :: c :: rest' -> isdigit c = false).

End Shapes.

(** ** [detect_columns] and the data frame *)

(** [str.lower], which like [isspace] the Unicode database determines. *)
Class UnicodeCase : Type := { lower : str -> str }.

(** Lower case restricted to ASCII. *)
Definition ascii_case : UnicodeCase := {|
  lower :=
    map (fun c => if ((65 <=? c) && (c <=? 90))%N then (c + 32)%N else c)
|}.

(** The keys [detect_columns] looks for: 名称, 纬度, 经度, 地址, 具体时代,
    时代, 类别, 详细描述, 类型. *)
Definition key_name : str := [21517; 31216]%N.
Definition key_lat : str := [32428; 24230]%N.
Definition key_lng : str := [32463; 24230]%N.
Definition key_addr : str := [22320; 22336]%N.
Definition key_era_specific : str := [20855; 20307; 26102; 20195]%N.
Definition key_era_broad : str := [26102; 20195]%N.
Definition key_category : str := [31867; 21035]%N.
Definition key_desc : str := [35814; 32454; 25551; 36848]%N.
Definition key_type : str := [31867; 22411]%N.

(** The dictionary returned by [detect_columns]. *)
Record Columns : Type := {
  col_name : Z;
  col_lat : Z;
  col_lng : Z;
  col_addr : Z;
  col_era_specific : Z;
  col_era_broad : Z;
  col_category : Z;
  col_desc : Z;
  col_type : Z
}.

(** A dictionary from texts to positions, kept as the list of its items
    in insertion order: [d[k] = v] keeps the place of a key that is
    there already, and [d[k]] is looked up by equality of texts. *)
Fixpoint dict_set (k : str) (v : Z) (d : list (str * Z)) : list (str * Z) :=
  match d with
  | [] => [(k, v)]
  | (k', v') :: rest =>
      if str_eqb k' k then (k', v) :: rest else (k', v') :: dict_set k v rest
  end.

Fixpoint dict_get (k : str) (d : list (str * Z)) : option Z :=
  match d with
  | [] => None
  | (k', v) :: rest => if str_eqb k' k then Some v else dict_get k rest
  end.

Section Columns.

Context {db : UnicodeDB} {uc : UnicodeCase}.

(** [str(h).strip().lower()]; a header is given as its text [str(h)]. *)
Definition normalised (h : str) : str := lower (strip h).

(** The comprehension that builds [hmap], from position [idx] on. *)
Fixpoint hmap_from (idx : Z) (headers : list str) (hmap : list (str * Z))
    : list (str * Z) :=
  match headers with
  | [] => hmap
  | h :: rest => hmap_from (idx + 1) rest (dict_set (normalised h) idx hmap)
  end.

Definition build_hmap (headers : list str) : list (str * Z) :=
  hmap_from 0 headers [].

(** The first loop of [find]: a key that is a key of [hmap]. *)
Fixpoint find_exact (hmap : list (str * Z)) (keys : list str) : option Z :=
  match keys with
  | [] => None
  | k :: rest =>
      match dict_get k hmap with
      | Some idx => Some idx
      | None => find_exact hmap rest
      end
  end.

(** The inner loop of the second loop: the first item of [hmap] whose key
    contains [k]. *)
Fixpoint find_item (k : str) (items : list (str * Z)) : option Z :=
  match items with
  | [] => None
  | (h_key, h_idx) :: rest =>
      if contains k h_key then Some h_idx else find_item k rest
  end.

Fixpoint find_within (hmap : list (str * Z)) (keys : list str) : option Z :=
  match keys with
  | [] => None
  | k :: rest =>
      match find_item k hmap with
      | Some idx => Some idx
      | None => find_within hmap rest
      end
  end.

Definition find (hmap : list (str * Z)) (keys : list str) : Z :=
  match find_exact hmap keys with
  | Some idx => idx
  | None =>
      match find_within hmap keys with
      | Some idx => idx
      | None => -1
      end
  end.

Definition detect_columns (headers : list str) : Columns :=
  let hmap := build_hmap headers in
  {| col_name := find hmap [key_name];
     col_lat := find hmap [key_lat];
     col_lng := find hmap [key_lng];
     col_addr := find hmap [key_addr];
     col_era_specific := find hmap [key_era_specific];
     col_era_broad := find hmap [key_era_broad];
     col_category := find hmap [key_category];
     col_desc := find hmap [key_desc];
     col_type := find hmap [key_type] |}.

(** *** The data frame

    A frame is the list of the texts of its column labels and the list of
    its rows; a cell is [None] where [pd.notna] is false and the text
    [str] gives otherwise.  In a frame every row has one cell for each
    column ([rectangular]). *)

Record DataFrame : Type := {
  columns : list str;
  frame_rows : list (list (option str))
}.

Definition rectangular (df : DataFrame) : Prop :=
  Forall (fun row => length row = length (columns df)) (frame_rows df).

(** [df.empty]: one of the two axes has length 0. *)
Definition df_empty (df : DataFrame) : bool :=
  match columns df, frame_rows df with
  | _ :: _, _ :: _ => false
  | _, _ => true
  end.

(** [row.iloc[idx]]; [None] where Python raises [IndexError].  A negative
    position counts from the end. *)
Definition iloc (row : list (option str)) (idx : Z)
    : option (option str) :=
  if (idx <? 0)%Z
  then if (idx <? - Z.of_nat (length row))%Z then None
       else nth_error row (Z.to_nat (Z.of_nat (length row) + idx))
  else nth_error row (Z.to_nat idx).

(** The cell [get_val] reads for a key found at position [idx]: none for
    [idx = -1], none where [pd.notna] is false.  The positions are those
    [detect_columns] returned for the headers of the frame, at which
    every row has a cell. *)
Definition cell_at (row : list (option str)) (idx : Z) : option str :=
  if (idx =? -1)%Z then None
  else match iloc row idx with
       | Some cell => cell
       | None => None
       end.

Definition row_of (cols : Columns) (row : list (option str)) : Row :=
  {| cell_name := cell_at row (col_name cols);
     cell_lat := cell_at row (col_lat cols);
     cell_lng := cell_at row (col_lng cols);
     cell_addr := cell_at row (col_addr cols);
     cell_era_specific := cell_at row (col_era_specific cols);
     cell_era_broad := cell_at row (col_era_broad cols);
     cell_category := cell_at row (col_category cols);
     cell_desc := cell_at row (col_desc cols);
     cell_type := cell_at row (col_type cols) |}.

(** [sheet_to_points df], from the data frame. *)
Definition sheet_to_points_df {F : Type} `{PyFloat F}
    (transform : F -> F -> F * F) (df : DataFrame)
    : result (list (Point F) * list (str * nat)) :=
  if df_empty df then Ok ([], [])
  else
    let cols := detect_columns (columns df) in
    if ((col_name cols =? -1) || (col_lat cols =? -1)
        || (col_lng cols =? -1))%Z
    then Ok ([], [])
    else sheet_to_points transform (map (row_of cols) (frame_rows df)).

(** Some header contains the key, once stripped and put in lower case. *)
Definition has_header (k : str) (headers : list str) : Prop :=
  exists h, In h headers /\ contains k (normalised h) = true.

(** Every item of [hmap] is the normalised text and the position of a
    header. *)
Definition items_sound (hmap : list (str * Z)) (headers : list str) : Prop :=
  forall h_key h_idx,
  In (h_key, h_idx) hmap ->
  (0 <= h_idx)%Z /\
  exists h,
    nth_error headers (Z.to_nat h_idx) = Some h /\ normalised h = h_key.

(** Every header has an item. *)
Definition items_complete (hmap : list (str * Z)) (headers : list str)
    : Prop :=
  forall h, In h headers -> exists h_idx, In (normalised h, h_idx) hmap.

End Columns.

(** *** The session

    Streamlit runs the script anew at every interaction; what lasts from
    one run to the next is [st.session_state].  [run_script] is what one
    run does to its three entries, given the file in the uploader:
    nothing ([None]), or a file with its name and what [pd.read_csv] or
    [pd.read_excel] makes of it, a frame or an exception ([None]).
    Every exception of the [try] block clears the session. *)

Record Session (F : Type) : Type := {
  points : list (Point F);
  category_stats : list (str * nat);
  last_uploaded_filename : option str
}.

Arguments points {F} _.
Arguments category_stats {F} _.
Arguments last_uploaded_filename {F} _.

Record Upload : Type := {
  upload_name : str;
  upload_frame : option DataFrame
}.

Definition cleared {F : Type} : Session F :=
  {| points := []; category_stats := []; last_uploaded_filename := None |}.

(** [uploaded.name != st.session_state.last_uploaded_filename] *)
Definition name_differs (name : str) (last : option str) : bool :=
  match last with
  | Some n => negb (str_eqb name n)
  | None => true
  end.

Section Session.

Context {F : Type} `{PyFloat F} {db : UnicodeDB} {uc : UnicodeCase}.

Variable transform : F -> F -> F * F.

Definition run_script (s : Session F) (uploaded : option Upload)
    : Session F :=
  match uploaded with
  | Some u =>
      if name_differs (upload_name u) (last_uploaded_filename s)
      then
        match upload_frame u with
        | Some df =>
            match sheet_to_points_df transform df with
            | Ok (pts, stats) =>
                {| points := pts; category_stats := stats;
                   last_uploaded_filename := Some (upload_name u) |}
            | Raise _ => cleared
            end
        | None => cleared
        end
      else s
  | None =>
      match last_uploaded_filename s with
      | Some _ => cleared
      | None => s
      end
  end.

(** The session after a sequence of runs. *)
Definition run_all (s : Session F) (uploads : list (option Upload))
    : Session F :=
  fold_left run_script uploads s.

(** The session shows the file [u]: its name is the remembered one and
    its points and statistics are those of its frame. *)
Definition shows (s : Session F) (u : Upload) : Prop :=
  last_uploaded_filename s = Some (upload_name u) /\
  exists df,
    upload_frame u = Some df /\
    sheet_to_points_df transform df = Ok (points s, category_stats s).

End Session.

(** *** Sample frame

    A header row with a latitude header in upper-case Latin letters and
    blanks around it, and two rows. *)

Definition sample_headers : list str :=
  [ key_name; key_lng ++ [40; 69; 41]%N; [32]%N ++ key_lat ++ [32]%N;
    key_lat ++ [40; 78; 41]%N ].

Definition sample_frame : DataFrame :=
  {| columns := sample_headers;
     frame_rows :=
       [ [Some [97]%N; Some [52]%N; Some [51]%N; None];
         [Some [98]%N; None; Some [49]%N; Some [50]%N] ] |}.

Definition sample_upload : Upload :=
  {| upload_name := [97; 46; 99; 115; 118]%N;
     upload_frame := Some sample_frame |}.

(** ** [escapeHtml] of the map page

    The script of the page builds the text of an information window from
    the fields of a point, each passed through
    [escapeHtml], which turns its argument into a string and replaces
    every character of the class of the five characters [&], [<], [>],
    double quote and apostrophe by its entity.  The fields are strings,
    and the empty string stays empty.  A JavaScript string is a sequence
    of UTF-16 code units; the five characters are single units, and no
    part of a surrogate pair equals one of them, so the function is the
    same on code units and on code points. *)

Definition c_amp : char := 38%N.
Definition c_lt : char := 60%N.
Definition c_gt : char := 62%N.
Definition c_quot : char := 34%N.
Definition c_apos : char := 39%N.

(** The entities [&amp;], [&lt;], [&gt;], [&quot;], [&#39;]. *)
Definition entity_amp : str := [38; 97; 109; 112; 59]%N.
Definition entity_lt : str := [38; 108; 116; 59]%N.
Definition entity_gt : str := [38; 103; 116; 59]%N.
Definition entity_quot : str := [38; 113; 117; 111; 116; 59]%N.
Definition entity_apos : str := [38; 35; 51; 57; 59]%N.

Definition entities : list str :=
  [entity_amp; entity_lt; entity_gt; entity_quot; entity_apos].

(** The object literal applied to the matched character [m]; a character
    outside the class is not matched and stays. *)
Definition escape_char (m : char) : str :=
  if N.eqb m c_amp then entity_amp
  else if N.eqb m c_lt then entity_lt
  else if N.eqb m c_gt then entity_gt
  else if N.eqb m c_quot then entity_quot
  else if N.eqb m c_apos then entity_apos
  else [m].

Definition escapeHtml (s : str) : str := flat_map escape_char s.

(** One of the characters [<], [>], double quote and apostrophe, which
    open or close a tag or an attribute value. *)
Definition markup (c : char) : bool :=
  N.eqb c c_lt || N.eqb c c_gt || N.eqb c c_quot || N.eqb c c_apos.

(** *** The markers of the map page

    When the map is complete the script goes through [points] again.  A
    point whose [lat] or [lng] is falsy gets no marker; the marker of any
    other point is pushed on the list [markersByCategory[catKey]], which
    is created at the first push.  Then each item of the legend looks up
    the list of its category, [markersByCategory[category]], which is
    [undefined] when no marker was pushed for it.  The coordinates reach
    the script as JSON numbers, that is as the doubles they are; a marker
    is given here by the point it is made from. *)

(** [!x] for a number [x]: zero of either sign, or NaN. *)
Definition falsy (x : float) : bool :=
  PrimFloat.eqb x 0 || PrimFloat.is_nan x.

(** The point passes [if (!p.lat || !p.lng) return;]. *)
Definition has_marker (p : Point float) : bool :=
  negb (falsy (pt_lat p) || falsy (pt_lng p)).

Fixpoint push_marker (k : str) (p : Point float)
    (markers : list (str * list (Point float)))
    : list (str * list (Point float)) :=
  match markers with
  | [] => [(k, [p])]
  | (k', ms) :: rest =>
      if str_eqb k' k then (k', ms ++ [p]) :: rest
      else (k', ms) :: push_marker k p rest
  end.

Definition markersByCategory (points : list (Point float))
    : list (str * list (Point float)) :=
  fold_left
    (fun markers p =>
       if has_marker p then push_marker (catKey p) p markers else markers)
    points [].

(** [markersByCategory[k]]; [None] is [undefined]. *)
Fixpoint markers_get (k : str) (markers : list (str * list (Point float)))
    : option (list (Point float)) :=
  match markers with
  | [] => None
  | (k', ms) :: rest => if str_eqb k' k then Some ms else markers_get k rest
  end.

(** The points of category [k] that get a marker. *)
Definition drawn_under (k : str) (points : list (Point float))
    : list (Point float) :=
  filter (fun p => has_marker p && str_eqb (catKey p) k) points.

(** A list as the value of an entry that is created at the first push. *)
Definition created {A : Type} (l : list A) : option (list A) :=
  match l with
  | [] => None
  | _ :: _ => Some l
  end.

(* ================================================================== *)
(** * Properties *)

(** ** The embedding on concrete inputs *)

Module Examples.

Import Binary64.

(** The literals of the program denote the doubles Python reads them as. *)
Example dec64_PI : dec64 3.1415926535897932384626 = 0x1.921fb54442d18p+1%float.
Proof. reflexivity. Qed.

Example dec64_A : dec64 6378245.0 = 0x1.854c14p+22%float.
Proof. reflexivity. Qed.

Example dec64_EE :
  dec64 0.00669342162296594323 = 0x1.b6a8faf80ef0bp-8%float.
Proof. reflexivity. Qed.

Example dec64_edges :
  map dec64 [73.66; 135.05; 3.86; 53.55]%Q
  = [0x1.26a3d70a3d70ap+6; 0x1.0e1999999999ap+7;
     0x1.ee147ae147ae1p+1; 0x1.ac66666666666p+5]%float.
Proof. reflexivity. Qed.

Section Libm.

Variables libm_sin libm_cos : float -> float.

(** A point west of the rectangle, a point on its western edge, an
    infinite longitude. *)
Example outside_point :
  wgs84_to_gcj02 (H := float_ops libm_sin libm_cos) 0%float 0%float
  = Ok (0%float, 0%float).
Proof. reflexivity. Qed.

Example edge_point :
  wgs84_to_gcj02 (H := float_ops libm_sin libm_cos) (dec64 73.66) 30%float
  = Ok (dec64 73.66, 30%float).
Proof. reflexivity. Qed.

Example infinite_point :
  wgs84_to_gcj02 (H := float_ops libm_sin libm_cos) infinity 30%float
  = Ok (infinity, 30%float).
Proof. reflexivity. Qed.

(** The texts "30°15′20.5″", " 30.5 ", "x-30°15′20.5″N", "N/A", "12."
    and "1.2.3"; the last is read as 1 degree, 2 minutes, 3 seconds, any
    run of non-digits being a separator. *)
Example parse_dms :
  parse_coord_py (H := float_ops libm_sin libm_cos) (db := ascii_db)
    (Some [51; 48; 176; 49; 53; 8242; 50; 48; 46; 53; 8243]%N)
  = Ok (Some 0x1.e417530eca864p+4%float).
Proof. reflexivity. Qed.

Example parse_decimal :
  parse_coord_py (H := float_ops libm_sin libm_cos) (db := ascii_db)
    (Some [32; 51; 48; 46; 53; 32]%N)
  = Ok (Some 0x1.e8p+4%float).
Proof. reflexivity. Qed.

Example parse_negative_dms :
  parse_coord_py (H := float_ops libm_sin libm_cos) (db := ascii_db)
    (Some [120; 45; 51; 48; 176; 49; 53; 8242; 50; 48; 46; 53; 8243; 78]%N)
  = Ok (Some (-0x1.e417530eca864p+4)%float).
Proof. reflexivity. Qed.

Example parse_not_available :
  parse_coord_py (H := float_ops libm_sin libm_cos) (db := ascii_db)
    (Some [78; 47; 65]%N) = Ok None.
Proof. reflexivity. Qed.

Example parse_trailing_dot :
  parse_coord_py (H := float_ops libm_sin libm_cos) (db := ascii_db)
    (Some [49; 50; 46]%N) = Ok None.
Proof. reflexivity. Qed.

Example parse_dotted_triple :
  parse_coord_py (H := float_ops libm_sin libm_cos) (db := ascii_db)
    (Some [49; 46; 50; 46; 51]%N)
  = Ok (Some 0x1.08bf258bf258cp+0%float).
Proof. reflexivity. Qed.

End Libm.

End Examples.

(** ** The error monad *)

Lemma bind_ok {A B : Type} (a : A) (k : A -> result B) :
  bind (Ok a) k = k a.
Proof. reflexivity. Qed.

Lemma bind_raise {A B : Type} (e : PyExc) (k : A -> result B) :
  bind (Raise e) k = Raise e.
Proof. reflexivity. Qed.

Lemma bind_inv {A B : Type} (m : result A) (k : A -> result B) (b : B) :
  bind m k = Ok b -> exists a, m = Ok a /\ k a = Ok b.
Proof.
  destruct m as [a|e]; cbn; intros Hb; [eauto | discriminate].
Qed.

(** ** Exact arithmetic: evaluation of the core *)

Module ExactFacts.

Import Exact ExactCore.

Local Open Scope R_scope.

Lemma Rltb_true_iff (x y : R) : Rltb x y = true <-> x < y.
Proof. unfold Rltb. destruct (Rlt_dec x y); split; intros; easy. Qed.

Lemma Rltb_false_iff (x y : R) : Rltb x y = false <-> y <= x.
Proof.
  unfold Rltb. destruct (Rlt_dec x y); split; intros; try easy; lra.
Qed.

Lemma Ris_zero_false (x : R) : x <> 0 -> Ris_zero x = false.
Proof. unfold Ris_zero. destruct (Req_dec_T x 0); easy. Qed.

Lemma Ris_zero_true (x : R) : x = 0 -> Ris_zero x = true.
Proof. unfold Ris_zero. destruct (Req_dec_T x 0); easy. Qed.

Lemma truediv_ok (a b : R) : b <> 0 -> truediv a b = Ok (a / b).
Proof.
  intros Hb. unfold truediv. cbn [fis_zero fdiv real_ops].
  now rewrite Ris_zero_false.
Qed.

Lemma truediv_zero (a b : R) :
  b = 0 -> truediv a b = Raise ZeroDivisionError.
Proof.
  intros Hb. unfold truediv. cbn [fis_zero fdiv real_ops].
  now rewrite Ris_zero_true.
Qed.

Lemma math_sqrt_ok (x : R) : 0 <= x -> math_sqrt x = Ok (sqrt x).
Proof.
  intros Hx. unfold math_sqrt. cbn [fltb fsqrt dec real_ops].
  replace (Rltb x (Q2R 0)) with false; [reflexivity|].
  symmetry. apply Rltb_false_iff. lra.
Qed.


Lemma math_sin_ok (x : R) : math_sin x = Ok (sin x).
Proof. reflexivity. Qed.

Lemma math_cos_ok (x : R) : math_cos x = Ok (cos x).
Proof. reflexivity. Qed.

Lemma in_china_iff (lng lat : R) :
  in_china lng lat = true <-> inside lng lat.
Proof.
  unfold in_china, inside. cbn [fltb dec real_ops].
  rewrite !andb_true_iff, !Rltb_true_iff. tauto.
Qed.

Ltac py_eval :=
  repeat (cbn [bind];
          first [ rewrite math_sin_ok | rewrite math_cos_ok
                | rewrite truediv_ok by (cbn [dec real_ops]; lra) ]);
  cbn [bind].

Lemma _transform_lat_value (x y : R) :
  _transform_lat x y = Ok (transform_lat_value x y).
Proof.
  unfold _transform_lat.
  rewrite (math_sqrt_ok (fabs x)) by apply Rabs_pos.
  py_eval. f_equal.
  cbn [fadd fsub fmul fdiv fabs dec real_ops].
  unfold transform_lat_value, PI, PIc. cbn [dec real_ops].
  lra.
Qed.

Lemma _transform_lng_value (x y : R) :
  _transform_lng x y = Ok (transform_lng_value x y).
Proof.
  unfold _transform_lng.
  rewrite (math_sqrt_ok (fabs x)) by apply Rabs_pos.
  py_eval. reflexivity.
Qed.

Lemma magic_lower (lat : R) : 1 - EEc <= magic lat.
Proof.
  unfold magic.
  pose proof (SIN_bound (rad_lat lat)) as [Hl Hu].
  assert (He : 0 < EEc) by (unfold EEc; lra).
  generalize dependent (sin (rad_lat lat)). generalize dependent EEc.
  intros e He s Hl Hu.
  assert (Hs : s * s <= 1) by nra.
  rewrite Rmult_assoc.
  assert (e * (s * s) <= e * 1) by (apply Rmult_le_compat_l; lra).
  lra.
Qed.


Lemma magic_pos (lat : R) : 0 < magic lat.
Proof.
  pose proof (magic_lower lat). unfold EEc in *. lra.
Qed.

Lemma sqrt_magic_pos (lat : R) : 0 < sqrt_magic lat.
Proof. apply sqrt_lt_R0, magic_pos. Qed.

Lemma rad_lat_range (lat : R) :
  3.86 < lat < 53.55 -> 0 < rad_lat lat < 1.
Proof. unfold rad_lat, PIc. intros [H1 H2]. split; lra. Qed.

Lemma cos_rad_lat_pos (lat : R) :
  3.86 < lat < 53.55 -> 0 < cos (rad_lat lat).
Proof.
  intros Hlat. apply rad_lat_range in Hlat.
  pose proof PI2_1.
  apply cos_gt_0; lra.
Qed.

Lemma scale_lat_denominator_pos (lat : R) :
  0 < Ac * (1 - EEc) / (magic lat * sqrt_magic lat) * PIc.
Proof.
  pose proof (magic_pos lat). pose proof (sqrt_magic_pos lat).
  apply Rmult_lt_0_compat; [|unfold PIc; lra].
  apply Rdiv_lt_0_compat; [unfold Ac, EEc; lra|].
  now apply Rmult_lt_0_compat.
Qed.

Lemma scale_lng_denominator_nonzero (lat : R) :
  cos (rad_lat lat) <> 0 ->
  Ac / sqrt_magic lat * cos (rad_lat lat) * PIc <> 0.
Proof.
  intros Hc. pose proof (sqrt_magic_pos lat).
  assert (0 < Ac / sqrt_magic lat)
    by (apply Rdiv_lt_0_compat; [unfold Ac|]; lra).
  apply Rmult_integral_contrapositive_currified; [|unfold PIc; lra].
  apply Rmult_integral_contrapositive_currified; [lra|exact Hc].
Qed.

(** [distort] returns as soon as [cos rad_lat] is not zero. *)
Lemma distort_value (lng lat : R) :
  cos (rad_lat lat) <> 0 ->
  distort lng lat = Ok (mg_lng_value lng lat, mg_lat_value lng lat).
Proof.
  intros Hc. unfold distort.
  rewrite _transform_lat_value, _transform_lng_value.
  py_eval.
  replace (dec 1 - EE * sin (lat / dec 180.0 * PI)%pf
                      * sin (lat / dec 180.0 * PI)%pf)%pf
    with (magic lat)
    by (unfold magic, rad_lat, EEc, PIc, EE, PI; cbn [fsub fmul dec real_ops];
        lra).
  change (lat / dec 180.0 * PI)%pf with (rad_lat lat).
  pose proof (magic_pos lat) as Hm.
  pose proof (sqrt_magic_pos lat) as Hs.
  rewrite math_sqrt_ok by lra. cbn [bind]. fold (sqrt_magic lat).
  change (@A R _) with Ac. change (@PI R _) with PIc.
  change (@EE R _) with EEc.
  cbn [fadd fsub fmul dec real_ops].
  rewrite truediv_ok by (apply Rgt_not_eq, Rmult_lt_0_compat; lra).
  cbn [bind].
  assert (HQ : Q2R 1 = 1) by lra. rewrite HQ.
  pose proof (scale_lat_denominator_pos lat).
  rewrite truediv_ok by lra. cbn [bind].
  rewrite truediv_ok by lra. cbn [bind].
  rewrite truediv_ok by (now apply scale_lng_denominator_nonzero).
  reflexivity.
Qed.

Lemma wgs84_to_gcj02_inside (lng lat : R) :
  inside lng lat ->
  wgs84_to_gcj02 lng lat = Ok (mg_lng_value lng lat, mg_lat_value lng lat).
Proof.
  intros Hin. unfold wgs84_to_gcj02, _out_of_china.
  rewrite (proj2 (in_china_iff lng lat) Hin). cbn [negb].
  apply distort_value. apply Rgt_not_eq, cos_rad_lat_pos, Hin.
Qed.

Lemma wgs84_to_gcj02_outside (lng lat : R) :
  ~ inside lng lat -> wgs84_to_gcj02 lng lat = Ok (lng, lat).
Proof.
  intros Hout. unfold wgs84_to_gcj02, _out_of_china.
  destruct (in_china lng lat) eqn:E; [|reflexivity].
  apply in_china_iff in E. contradiction.
Qed.

End ExactFacts.

(** ** Exact arithmetic: the code computes the specification's formulas *)

Module Refinement.

Import Exact ExactCore ExactFacts.

Local Open Scope R_scope.










End Refinement.

(** ** Laws of the two instances *)

Module Binary64Facts.

Lemma SFltb_irrefl (s : spec_float) : SFltb s s = false.
Proof.
  unfold SFltb, SFcompare.
  destruct s as [b|b| |b m e]; try (destruct b; reflexivity);
    try reflexivity.
  destruct b; rewrite Z.compare_refl, Pos.compare_cont_refl; reflexivity.
Qed.

Lemma ltb_irrefl (x : float) : PrimFloat.ltb x x = false.
Proof. rewrite ltb_spec. apply SFltb_irrefl. Qed.

Lemma abs_not_neg (x : float) :
  PrimFloat.ltb (PrimFloat.abs x) (Binary64.dec64 0) = false.
Proof.
  rewrite ltb_spec, abs_spec.
  change (Prim2SF (Binary64.dec64 0)) with (S754_zero false).
  destruct (Prim2SF x) as [b|b| |b m e]; reflexivity.
Qed.

(** Every strict comparison with NaN is false. *)
Lemma ltb_nan_l (x : float) : PrimFloat.ltb nan x = false.
Proof. rewrite ltb_spec. reflexivity. Qed.

Lemma ltb_nan_r (x : float) : PrimFloat.ltb x nan = false.
Proof.
  rewrite ltb_spec. change (Prim2SF nan) with S754_nan.
  unfold SFltb, SFcompare.
  destruct (Prim2SF x) as [b|b| |b m e]; reflexivity.
Qed.

#[export] Instance binary64_laws (libm_sin libm_cos : float -> float) :
  PyFloatLaws float (H := Binary64.float_ops libm_sin libm_cos).
Proof.
  constructor.
  - exact ltb_irrefl.
  - exact abs_not_neg.
  - intros q Hq. cbn in Hq.
    repeat (destruct Hq as [<-|Hq]; [vm_compute; reflexivity|]).
    contradiction.
Qed.

End Binary64Facts.

Module ExactLaws.

Import Exact ExactFacts.

Local Open Scope R_scope.

#[export] Instance exact_laws : PyFloatLaws R.
Proof.
  constructor.
  - intros x. apply Rltb_false_iff. lra.
  - intros x. apply Rltb_false_iff. cbn [fabs dec real_ops].
    pose proof (Rabs_pos x). lra.
  - intros q Hq. cbn in Hq. cbn [fis_zero dec real_ops].
    apply Ris_zero_false.
    repeat (destruct Hq as [<-|Hq]; [lra|]).
    contradiction.
Qed.

End ExactLaws.

(** ** The square-root term *)

Section SqrtOfAbs.

Context {F : Type} `{PyFloat F} {laws : PyFloatLaws F}.

(** [math.sqrt (abs x)] never raises. *)
Lemma math_sqrt_abs_ok (x : F) :
  math_sqrt (fabs x) = Ok (fsqrt (fabs x)).
Proof. unfold math_sqrt. now rewrite fabs_not_neg. Qed.

End SqrtOfAbs.

(** ** The bounding rectangle *)

Section Rectangle.

Context {F : Type} `{PyFloat F}.

Lemma in_china_true_iff (lng lat : F) :
  in_china lng lat = true <-> strictly_inside lng lat.
Proof.
  unfold in_china, strictly_inside, between.
  rewrite !andb_true_iff. tauto.
Qed.

Lemma _out_of_china_false_iff (lng lat : F) :
  _out_of_china lng lat = false <-> strictly_inside lng lat.
Proof.
  unfold _out_of_china. rewrite negb_false_iff. apply in_china_true_iff.
Qed.

Lemma _out_of_china_true_iff (lng lat : F) :
  _out_of_china lng lat = true <-> ~ strictly_inside lng lat.
Proof.
  rewrite <- _out_of_china_false_iff.
  destruct (_out_of_china lng lat); split; congruence.
Qed.

Lemma wgs84_to_gcj02_not_inside (lng lat : F) :
  ~ strictly_inside lng lat -> wgs84_to_gcj02 lng lat = Ok (lng, lat).
Proof.
  intros Hout. apply _out_of_china_true_iff in Hout.
  unfold wgs84_to_gcj02. now rewrite Hout.
Qed.

Lemma wgs84_to_gcj02_strictly_inside (lng lat : F) :
  strictly_inside lng lat -> wgs84_to_gcj02 lng lat = distort lng lat.
Proof.
  intros Hin. apply _out_of_china_false_iff in Hin.
  unfold wgs84_to_gcj02. now rewrite Hin.
Qed.

(** C2.  A point whose longitude is not in (73.66, 135.05) or whose
    latitude is not in (3.86, 53.55) is returned by [wgs84_to_gcj02]
    exactly as it came. *)
Theorem wgs84_to_gcj02_identity_outside (lng lat : F) :
  ~ between (dec 73.66) lng (dec 135.05) \/
  ~ between (dec 3.86) lat (dec 53.55) ->
  wgs84_to_gcj02 lng lat = Ok (lng, lat).
Proof.
  intros Hout. apply wgs84_to_gcj02_not_inside.
  unfold strictly_inside. tauto.
Qed.

Context {laws : PyFloatLaws F}.

Lemma on_edge_not_between_l (a x : F) : ~ between a a x.
Proof. unfold between. rewrite fltb_irrefl. intros [? _]. discriminate. Qed.

Lemma on_edge_not_between_r (a x : F) : ~ between x a a.
Proof. unfold between. rewrite fltb_irrefl. intros [_ ?]. discriminate. Qed.

End Rectangle.

(** C3.  The distortion is computed exactly for the points strictly inside
    the rectangle: [_out_of_china] is false there and only there, the
    result is that of the distortion there and the input elsewhere; a point
    on an edge (longitude 73.66 or 135.05, latitude 3.86 or 53.55) is
    outside and comes back unchanged. *)
Theorem distortion_iff_strictly_inside
    {F : Type} `{PyFloat F} (laws : PyFloatLaws F) (lng lat : F) :
  (_out_of_china lng lat = false <-> strictly_inside lng lat) /\
  (strictly_inside lng lat -> wgs84_to_gcj02 lng lat = distort lng lat) /\
  (~ strictly_inside lng lat -> wgs84_to_gcj02 lng lat = Ok (lng, lat)) /\
  wgs84_to_gcj02 (dec 73.66) lat = Ok (dec 73.66, lat) /\
  wgs84_to_gcj02 (dec 135.05) lat = Ok (dec 135.05, lat) /\
  wgs84_to_gcj02 lng (dec 3.86) = Ok (lng, dec 3.86) /\
  wgs84_to_gcj02 lng (dec 53.55) = Ok (lng, dec 53.55).
Proof.
  split; [apply _out_of_china_false_iff|].
  split; [apply wgs84_to_gcj02_strictly_inside|].
  split; [apply wgs84_to_gcj02_not_inside|].
  repeat split; apply wgs84_to_gcj02_not_inside; intros [Hl Hr].
  - now apply on_edge_not_between_l in Hl.
  - now apply on_edge_not_between_r in Hl.
  - now apply on_edge_not_between_l in Hr.
  - now apply on_edge_not_between_r in Hr.
Qed.

(** ** The composite conversion *)

Section Composite.

Context {F : Type} `{PyFloat F}.

Variable transform : F -> F -> F * F.

(** C7.  [cgcs2000_to_gcj02] is the reprojection followed by
    [wgs84_to_gcj02] on the reprojected pair, and nothing else. *)
Theorem cgcs2000_to_gcj02_is_composition (cgcs_lng cgcs_lat : F) :
  cgcs2000_to_gcj02 transform cgcs_lng cgcs_lat
  = wgs84_to_gcj02 (fst (transform cgcs_lng cgcs_lat))
                   (snd (transform cgcs_lng cgcs_lat)).
Proof.
  unfold cgcs2000_to_gcj02.
  destruct (transform cgcs_lng cgcs_lat) as [wgs84_lng wgs84_lat].
  reflexivity.
Qed.


End Composite.

Module GenericWitnesses.

Import Exact ExactFacts ExactLaws.

Local Open Scope R_scope.

Lemma wgs84_to_gcj02_identity_outside_witness :
  (~ between (dec 73.66) 0 (dec 135.05) \/
   ~ between (dec 3.86) 0 (dec 53.55)) /\
  wgs84_to_gcj02 0 0 = Ok (0, 0).
Proof.
  assert (Hout : ~ between (dec 73.66) 0 (dec 135.05) \/
                 ~ between (dec 3.86) 0 (dec 53.55)).
  { left. intros [Hl _]. apply Rltb_true_iff in Hl.
    cbn [dec real_ops] in Hl. lra. }
  split; [exact Hout|].
  exact (wgs84_to_gcj02_identity_outside 0 0 Hout).
Defined.

Lemma distortion_iff_strictly_inside_witness :
  strictly_inside 100.0 30.0 /\
  wgs84_to_gcj02 100.0 30.0 = distort 100.0 30.0 /\
  ~ strictly_inside 73.66 30.0 /\
  wgs84_to_gcj02 (dec 73.66) 30.0 = Ok (dec 73.66, 30.0).
Proof.
  assert (Hin : strictly_inside 100.0 30.0).
  { unfold strictly_inside, between. cbn [fltb dec real_ops].
    rewrite !Rltb_true_iff. lra. }
  assert (Hout : ~ strictly_inside 73.66 30.0).
  { unfold strictly_inside, between. cbn [fltb dec real_ops].
    rewrite !Rltb_true_iff. lra. }
  pose proof (distortion_iff_strictly_inside exact_laws 100.0 30.0)
    as (_ & Hd & _ & He & _).
  split; [exact Hin|]. split; [exact (Hd Hin)|].
  split; [exact Hout|exact He].
Defined.


End GenericWitnesses.

(** ** Not-a-number in binary64 *)

Section NaN.

Variables libm_sin libm_cos : float -> float.

(** C10.  The distortion stage does not check that its arguments are
    finite.  Every strict comparison with NaN is false, so when either
    coordinate is NaN [_out_of_china] is true and [wgs84_to_gcj02] returns
    the pair it was given, raising nothing. *)
Theorem nan_is_passed_through (x : float) :
  PrimFloat.ltb nan x = false /\ PrimFloat.ltb x nan = false /\
  _out_of_china (H := Binary64.float_ops libm_sin libm_cos) nan x = true /\
  _out_of_china (H := Binary64.float_ops libm_sin libm_cos) x nan = true /\
  wgs84_to_gcj02 (H := Binary64.float_ops libm_sin libm_cos) nan x
  = Ok (nan, x) /\
  wgs84_to_gcj02 (H := Binary64.float_ops libm_sin libm_cos) x nan
  = Ok (x, nan).
Proof.
  assert (Hl : _out_of_china (H := Binary64.float_ops libm_sin libm_cos)
                 nan x = true).
  { unfold _out_of_china, in_china. cbn [fltb Binary64.float_ops].
    now rewrite Binary64Facts.ltb_nan_r. }
  assert (Hr : _out_of_china (H := Binary64.float_ops libm_sin libm_cos)
                 x nan = true).
  { unfold _out_of_china, in_china. cbn [fltb Binary64.float_ops].
    now rewrite Binary64Facts.ltb_nan_r, andb_false_r. }
  split; [apply Binary64Facts.ltb_nan_l|].
  split; [apply Binary64Facts.ltb_nan_r|].
  split; [exact Hl|]. split; [exact Hr|].
  unfold wgs84_to_gcj02. rewrite Hl, Hr. split; reflexivity.
Qed.

End NaN.

(** ** The parser and the record loop *)

Section RegexFacts.

Context {db : UnicodeDB}.




Section Failure.

Variable X : Type.




End Failure.





Section Success.

Variable X : Type.

Lemma star_run_some (c : cclass) (s : str) (k : str -> option X) (v : X) :
  star_run X c s k = Some v -> exists t, k t = Some v.
Proof.
  induction s as [|x s IH]; cbn; intros Hv; [eauto|].
  destruct (in_class c x); [|eauto].
  destruct (star_run X c s k) eqn:E; [|eauto].
  injection Hv as ->. now apply IH.
Qed.

Lemma run_some (r : regex) :
  groups_fixed r = true ->
  forall (s : str) (caps : list str) (k : str -> list str -> option X)
         (v : X),
  run X r s caps k = Some v ->
  exists t caps',
    k t caps' = Some v /\ length caps' = (length caps + ngroups r)%nat.
Proof.
  induction r as [c|c|r IH|r1 IH1 r2 IH2|r IH]; cbn [groups_fixed ngroups];
    intros Hr s caps k v Hv; cbn in Hv.
  - destruct s as [|x s]; [discriminate|].
    destruct (in_class c x); [|discriminate].
    exists s, caps. split; [assumption|lia].
  - destruct s as [|x s]; [discriminate|]. cbn in Hv.
    destruct (in_class c x); [|discriminate].
    apply star_run_some in Hv as [t Ht].
    exists t, caps. split; [assumption|lia].
  - apply andb_true_iff in Hr as [Hn Hr]. apply Nat.eqb_eq in Hn.
    destruct (run X r s caps k) eqn:E.
    + injection Hv as ->. now apply IH in E.
    + exists s, caps. split; [assumption|lia].
  - apply andb_true_iff in Hr as [Hr1 Hr2].
    apply IH1 in Hv as (t & caps' & Hv & Hl); [|assumption].
    apply IH2 in Hv as (u & caps'' & Hv & Hl'); [|assumption].
    exists u, caps''. split; [assumption|lia].
  - apply IH in Hv as (t & caps' & Hv & Hl); [|assumption].
    eexists _, _. split; [exact Hv|].
    rewrite length_app. cbn. lia.
Qed.

End Success.

Lemma search_groups (r : regex) (s : str) (m : list str) :
  groups_fixed r = true -> search r s = Some m -> length m = ngroups r.
Proof.
  intros Hr. induction s as [|x s IH]; cbn; intros Hm.
  - destruct (run (list str) r [] [] (fun _ caps => Some caps)) eqn:E;
      [|discriminate].
    injection Hm as ->.
    apply run_some in E as (t & caps' & Hv & Hl); [|assumption].
    injection Hv as ->. exact Hl.
  - destruct (run (list str) r (x :: s) [] (fun _ caps => Some caps)) eqn:E.
    + injection Hm as ->.
      apply run_some in E as (t & caps' & Hv & Hl); [|assumption].
      injection Hv as ->. exact Hl.
    + now apply IH.
Qed.

End RegexFacts.

Section ParserFacts.

Context {F : Type} `{PyFloat F} {laws : PyFloatLaws F} {db : UnicodeDB}.

Lemma truediv_literal (a : F) (q : Q) :
  In q literal_divisors -> truediv a (dec q) = Ok (fdiv a (dec q)).
Proof.
  intros Hq. unfold truediv. now rewrite divisors_nonzero.
Qed.

Lemma groups_dms_re : groups_fixed dms_re = true /\ ngroups dms_re = 3%nat.
Proof. split; reflexivity. Qed.

Lemma groups_dms_re2 : groups_fixed dms_re2 = true /\ ngroups dms_re2 = 2%nat.
Proof. split; reflexivity. Qed.

Lemma parse_coord_py_total (v : option str) :
  succeeds (parse_coord_py v).
Proof.
  unfold succeeds, parse_coord_py.
  destruct v as [text|]; [|eauto].
  destruct (is_empty (strip text)); [eauto|].
  destruct (fullmatch re_decimal (strip text)); [eauto|].
  destruct (search dms_re (strip text)) as [m|] eqn:E1.
  - apply search_groups in E1; [|reflexivity]. cbn in E1.
    destruct m as [|g1 [|g2 [|g3 [|g4 m]]]]; try discriminate. cbn [map].
    rewrite !truediv_literal by (cbn; tauto). cbn [bind]. eauto.
  - destruct (search dms_re2 (strip text)) as [m|] eqn:E2; [|eauto].
    apply search_groups in E2; [|reflexivity]. cbn in E2.
    destruct m as [|g1 [|g2 [|g3 m]]]; try discriminate. cbn [map].
    rewrite !truediv_literal by (cbn; tauto). cbn [bind]. eauto.
Qed.




Variable transform : F -> F -> F * F.






End ParserFacts.

Module UpstreamWitness.

Import Exact ExactFacts ExactLaws.



End UpstreamWitness.

(** ** The reference vector, numerically *)

Module Numeric.

Import Exact ExactCore ExactFacts Enclosure.

Local Open Scope R_scope.

(** *** Taylor enclosures *)

Lemma INR_fact (n : nat) (z : Z) :
  Z.of_nat (fact n) = z -> INR (fact n) = IZR z.
Proof. intros <-. apply INR_IZR_INZ. Qed.

Lemma sin_lb_poly (a : R) :
  sin_lb a = a - a ^ 3 / 6 + a ^ 5 / 120 - a ^ 7 / 5040.
Proof.
  unfold sin_lb, sin_approx, sin_term. cbn [sum_f_R0].
  change (2 * 0 + 1)%nat with 1%nat. change (2 * 1 + 1)%nat with 3%nat.
  change (2 * 2 + 1)%nat with 5%nat. change (2 * 3 + 1)%nat with 7%nat.
  rewrite (INR_fact 1 1), (INR_fact 3 6), (INR_fact 5 120),
    (INR_fact 7 5040) by (vm_compute; reflexivity).
  field.
Qed.

Lemma sin_ub_poly (a : R) :
  sin_ub a = a - a ^ 3 / 6 + a ^ 5 / 120 - a ^ 7 / 5040 + a ^ 9 / 362880.
Proof.
  unfold sin_ub, sin_approx, sin_term. cbn [sum_f_R0].
  change (2 * 0 + 1)%nat with 1%nat. change (2 * 1 + 1)%nat with 3%nat.
  change (2 * 2 + 1)%nat with 5%nat. change (2 * 3 + 1)%nat with 7%nat.
  change (2 * 4 + 1)%nat with 9%nat.
  rewrite (INR_fact 1 1), (INR_fact 3 6), (INR_fact 5 120),
    (INR_fact 7 5040), (INR_fact 9 362880) by (vm_compute; reflexivity).
  field.
Qed.

Lemma cos_lb_poly (a : R) :
  cos_lb a = 1 - a ^ 2 / 2 + a ^ 4 / 24 - a ^ 6 / 720.
Proof.
  unfold cos_lb, cos_approx, cos_term. cbn [sum_f_R0].
  change (2 * 0)%nat with 0%nat. change (2 * 1)%nat with 2%nat.
  change (2 * 2)%nat with 4%nat. change (2 * 3)%nat with 6%nat.
  rewrite (INR_fact 0 1), (INR_fact 2 2), (INR_fact 4 24),
    (INR_fact 6 720) by (vm_compute; reflexivity).
  field.
Qed.

Lemma cos_ub_poly (a : R) :
  cos_ub a = 1 - a ^ 2 / 2 + a ^ 4 / 24 - a ^ 6 / 720 + a ^ 8 / 40320.
Proof.
  unfold cos_ub, cos_approx, cos_term. cbn [sum_f_R0].
  change (2 * 0)%nat with 0%nat. change (2 * 1)%nat with 2%nat.
  change (2 * 2)%nat with 4%nat. change (2 * 3)%nat with 6%nat.
  change (2 * 4)%nat with 8%nat.
  rewrite (INR_fact 0 1), (INR_fact 2 2), (INR_fact 4 24),
    (INR_fact 6 720), (INR_fact 8 40320) by (vm_compute; reflexivity).
  field.
Qed.

(** Seven and eight terms of the series of Machin's formula for
    [2 atan (1/3) + atan (1/7)]. *)
Lemma PI_bounds : 3.1415926 < Rtrigo1.PI < 3.1415927.
Proof.
  pose proof (PI_2_3_7_ineq 3) as [Hlo Hhi].
  unfold sum_f_R0, tg_alt, PI_2_3_7_tg, Ratan_seq in Hlo, Hhi.
  simpl in Hlo, Hhi.
  split; lra.
Qed.

Lemma pow_enclosure (a lo hi : R) (n : nat) :
  0 <= lo -> lo <= a -> a <= hi -> lo ^ n <= a ^ n <= hi ^ n.
Proof. intros H0 Hl Hh. split; apply pow_incr; lra. Qed.

Lemma sin_enclosure (a lo hi : R) :
  0 <= lo -> lo <= a -> a <= hi -> hi <= 3 ->
  sin_lo lo hi <= sin a <= sin_hi lo hi.
Proof.
  intros H0 Hlo Hhi H3. unfold sin_lo, sin_hi.
  pose proof PI_bounds as [Hp _].
  destruct (SIN a) as [Hl Hu]; [lra|lra|].
  rewrite sin_lb_poly in Hl. rewrite sin_ub_poly in Hu.
  pose proof (pow_enclosure a lo hi 3 H0 Hlo Hhi).
  pose proof (pow_enclosure a lo hi 5 H0 Hlo Hhi).
  pose proof (pow_enclosure a lo hi 7 H0 Hlo Hhi).
  pose proof (pow_enclosure a lo hi 9 H0 Hlo Hhi).
  split; lra.
Qed.

Lemma cos_enclosure (a lo hi : R) :
  0 <= lo -> lo <= a -> a <= hi -> hi <= 3 / 2 ->
  cos_lo lo hi <= cos a <= cos_hi lo hi.
Proof.
  intros H0 Hlo Hhi H3. unfold cos_lo, cos_hi.
  pose proof PI_bounds as [Hp _].
  destruct (COS a) as [Hl Hu]; [lra|lra|].
  rewrite cos_lb_poly in Hl. rewrite cos_ub_poly in Hu.
  pose proof (pow_enclosure a lo hi 2 H0 Hlo Hhi).
  pose proof (pow_enclosure a lo hi 4 H0 Hlo Hhi).
  pose proof (pow_enclosure a lo hi 6 H0 Hlo Hhi).
  pose proof (pow_enclosure a lo hi 8 H0 Hlo Hhi).
  split; lra.
Qed.

Lemma sqrt_enclosure (x lo hi : R) :
  0 <= lo -> lo * lo <= x -> x <= hi * hi -> 0 <= hi ->
  lo <= sqrt x <= hi.
Proof.
  intros H0 Hlo Hhi H1. split.
  - rewrite <- (sqrt_square lo) by assumption. now apply sqrt_le_1_alt.
  - rewrite <- (sqrt_square hi) by assumption. now apply sqrt_le_1_alt.
Qed.

Lemma div_enclosure (n d nlo nhi dlo dhi : R) :
  0 <= nlo -> nlo <= n -> n <= nhi -> 0 < dlo -> dlo <= d -> d <= dhi ->
  nlo / dhi <= n / d <= nhi / dlo.
Proof.
  intros Hn0 Hnl Hnh Hd0 Hdl Hdh.
  assert (Hi1 : / dhi <= / d) by (apply Rinv_le_contravar; lra).
  assert (Hi2 : / d <= / dlo) by (apply Rinv_le_contravar; lra).
  assert (0 < / dhi) by (apply Rinv_0_lt_compat; lra).
  unfold Rdiv. split.
  - apply Rmult_le_compat; lra.
  - apply Rmult_le_compat; lra.
Qed.

Lemma mult_enclosure (a b alo ahi blo bhi : R) :
  0 <= alo -> alo <= a -> a <= ahi -> 0 <= blo -> blo <= b -> b <= bhi ->
  alo * blo <= a * b <= ahi * bhi.
Proof. intros. split; apply Rmult_le_compat; lra. Qed.

(** *** Reduction of the argument of [sin] by multiples of pi *)

Lemma sin_minus_even (a : R) (k : nat) :
  sin a = sin (a - 2 * INR k * Rtrigo1.PI).
Proof.
  replace a with ((a - 2 * INR k * Rtrigo1.PI) + 2 * INR k * Rtrigo1.PI)
    at 1 by ring.
  apply sin_period.
Qed.

Lemma sin_minus_odd (a : R) (k : nat) :
  sin a = - sin (a - (2 * INR k + 1) * Rtrigo1.PI).
Proof.
  rewrite (sin_minus_even a k).
  replace (a - 2 * INR k * Rtrigo1.PI)
    with ((a - (2 * INR k + 1) * Rtrigo1.PI) + Rtrigo1.PI) by ring.
  apply neg_sin.
Qed.

Lemma sin_odd_minus (a : R) (k : nat) :
  sin a = sin ((2 * INR k + 1) * Rtrigo1.PI - a).
Proof.
  rewrite (sin_minus_even a k).
  replace (a - 2 * INR k * Rtrigo1.PI)
    with (Rtrigo1.PI - ((2 * INR k + 1) * Rtrigo1.PI - a)) by ring.
  apply sin_PI_x.
Qed.

Lemma sin_even_minus (a : R) (k : nat) :
  sin a = - sin (2 * INR k * Rtrigo1.PI - a).
Proof.
  rewrite (sin_minus_even a k).
  replace (a - 2 * INR k * Rtrigo1.PI)
    with (- (2 * INR k * Rtrigo1.PI - a)) by ring.
  apply sin_neg.
Qed.

(** *** The sines and the cosine at the reference point *)

(** [sine_bound e lo hi]: rewrite the sine of the goal with the reduction
    [e], enclose the reduced argument between [lo] and [hi] with the bounds
    on pi, and compare the Taylor enclosure with the bounds asked for. *)
Ltac sine_bound e lo hi :=
  pose proof PI_bounds as [? ?];
  rewrite e;
  match goal with
  | |- _ <= sin ?u <= _ => destruct (sin_enclosure u lo hi) as [? ?]
  | |- _ <= - sin ?u <= _ => destruct (sin_enclosure u lo hi) as [? ?]
  end;
  try (unfold rad_lat, x0, y0, lng0, lat0, PIc; simpl INR; lra);
  unfold sin_lo, sin_hi in *; split; lra.

Lemma sin_6x_bounds : 0.9715 <= sin (6.0 * x0 * PIc) <= 0.9717.
Proof. sine_bound (sin_minus_even (6.0 * x0 * PIc) 34) 1.332032 1.332039. Qed.

Lemma sin_2x_bounds : 0.5672 <= sin (2.0 * x0 * PIc) <= 0.5673.
Proof. sine_bound (sin_odd_minus (2.0 * x0 * PIc) 11) 0.603184 0.603187. Qed.

Lemma sin_y_bounds : 0.2638 <= sin (y0 * PIc) <= 0.2639.
Proof. sine_bound (sin_odd_minus (y0 * PIc) 2) 0.267035 0.267036. Qed.

Lemma sin_y3_bounds : -0.9071 <= sin (y0 / 3.0 * PIc) <= -0.907.
Proof. sine_bound (sin_even_minus (y0 / 3.0 * PIc) 1) 1.136209 1.13621. Qed.

Lemma sin_y12_bounds : 0.9599 <= sin (y0 / 12.0 * PIc) <= 0.96.
Proof. sine_bound (sin_minus_even (y0 / 12.0 * PIc) 0) 1.286743 1.286744. Qed.

Lemma sin_y30_bounds : 0.4922 <= sin (y0 / 30.0 * PIc) <= 0.4923.
Proof. sine_bound (sin_minus_even (y0 / 30.0 * PIc) 0) 0.514697 0.514698. Qed.

Lemma sin_x_bounds : -0.9549 <= sin (x0 * PIc) <= -0.9548.
Proof. sine_bound (sin_minus_odd (x0 * PIc) 5) 1.269202 1.269205. Qed.

Lemma sin_x3_bounds : -0.5844 <= sin (x0 / 3.0 * PIc) <= -0.5843.
Proof. sine_bound (sin_even_minus (x0 / 3.0 * PIc) 2) 0.624129 0.62413. Qed.

Lemma sin_x12_bounds : 0.1553 <= sin (x0 / 12.0 * PIc) <= 0.1555.
Proof. sine_bound (sin_odd_minus (x0 / 12.0 * PIc) 0) 0.156032 0.156033. Qed.

Lemma sin_x30_bounds : 0.9299 <= sin (x0 / 30.0 * PIc) <= 0.93.
Proof. sine_bound (sin_minus_even (x0 / 30.0 * PIc) 0) 1.194224 1.194225. Qed.

Lemma sin_rad_bounds : 0.6416 <= sin (rad_lat lat0) <= 0.6417.
Proof. sine_bound (sin_minus_even (rad_lat lat0) 0) 0.696648 0.696649. Qed.

Lemma cos_rad_bounds : 0.7669 <= cos (rad_lat lat0) <= 0.767.
Proof.
  destruct (cos_enclosure (rad_lat lat0) 0.696648 0.696649) as [Hl Hu];
    try (unfold rad_lat, lat0, PIc; lra).
  unfold cos_lo, cos_hi in Hl, Hu. split; lra.
Qed.

Lemma sqrt_x0_bounds : 3.3769 <= sqrt (Rabs x0) <= 3.3771.
Proof.
  rewrite Rabs_right by (unfold x0, lng0; lra).
  apply sqrt_enclosure; unfold x0, lng0; lra.
Qed.

(** *** The two corrections *)

Lemma transform_lat_bounds :
  155.9 <= transform_lat_value x0 y0 <= 156.0.
Proof.
  pose proof sqrt_x0_bounds. pose proof sin_6x_bounds.
  pose proof sin_2x_bounds. pose proof sin_y_bounds.
  pose proof sin_y3_bounds. pose proof sin_y12_bounds.
  pose proof sin_y30_bounds.
  unfold transform_lat_value.
  generalize dependent (sqrt (Rabs x0)).
  generalize dependent (sin (6.0 * x0 * PIc)).
  generalize dependent (sin (2.0 * x0 * PIc)).
  generalize dependent (sin (y0 * PIc)).
  generalize dependent (sin (y0 / 3.0 * PIc)).
  generalize dependent (sin (y0 / 12.0 * PIc)).
  generalize dependent (sin (y0 / 30.0 * PIc)).
  unfold x0, y0, lng0, lat0. intros. split; lra.
Qed.

Lemma transform_lng_bounds :
  533.8 <= transform_lng_value x0 y0 <= 534.0.
Proof.
  pose proof sqrt_x0_bounds. pose proof sin_6x_bounds.
  pose proof sin_2x_bounds. pose proof sin_x_bounds.
  pose proof sin_x3_bounds. pose proof sin_x12_bounds.
  pose proof sin_x30_bounds.
  unfold transform_lng_value.
  generalize dependent (sqrt (Rabs x0)).
  generalize dependent (sin (6.0 * x0 * PIc)).
  generalize dependent (sin (2.0 * x0 * PIc)).
  generalize dependent (sin (x0 * PIc)).
  generalize dependent (sin (x0 / 3.0 * PIc)).
  generalize dependent (sin (x0 / 12.0 * PIc)).
  generalize dependent (sin (x0 / 30.0 * PIc)).
  unfold x0, y0, lng0, lat0. intros. split; lra.
Qed.

(** *** The scaling *)

Lemma magic_bounds : 0.99724 <= magic lat0 <= 0.99725.
Proof.
  unfold magic. pose proof sin_rad_bounds as [Hl Hu].
  generalize dependent (sin (rad_lat lat0)). intros s Hl Hu.
  destruct (mult_enclosure s s 0.6416 0.6417 0.6416 0.6417) as [Ml Mu];
    try lra.
  unfold EEc. split; lra.
Qed.

Lemma sqrt_magic_bounds : 0.99861 <= sqrt_magic lat0 <= 0.99863.
Proof.
  pose proof magic_bounds as [Hl Hu].
  apply sqrt_enclosure; lra.
Qed.

Lemma scale_lat_denominator_bounds :
  19985867 <= Ac * (1 - EEc) / (magic lat0 * sqrt_magic lat0) * PIc
  <= 19986671.
Proof.
  pose proof magic_bounds as [Ml Mu].
  pose proof sqrt_magic_bounds as [Sl Su].
  destruct (mult_enclosure (magic lat0) (sqrt_magic lat0)
              0.99724 0.99725 0.99861 0.99863) as [Pl Pu]; try lra.
  destruct (div_enclosure (Ac * (1 - EEc))
              (magic lat0 * sqrt_magic lat0)
              (Ac * (1 - EEc)) (Ac * (1 - EEc))
              (0.99724 * 0.99861) (0.99725 * 0.99863)) as [Dl Du];
    try (unfold Ac, EEc; lra).
  generalize dependent (Ac * (1 - EEc) / (magic lat0 * sqrt_magic lat0)).
  intros q Dl Du. unfold Ac, EEc, PIc in *. split; lra.
Qed.

Lemma scale_lng_denominator_bounds :
  15388107 <= Ac / sqrt_magic lat0 * cos (rad_lat lat0) * PIc <= 15390422.
Proof.
  pose proof sqrt_magic_bounds as [Sl Su].
  pose proof cos_rad_bounds as [Cl Cu].
  destruct (div_enclosure Ac (sqrt_magic lat0) Ac Ac 0.99861 0.99863)
    as [Dl Du]; try (unfold Ac; lra).
  destruct (mult_enclosure (Ac / sqrt_magic lat0) (cos (rad_lat lat0))
              (Ac / 0.99863) (Ac / 0.99861) 0.7669 0.767) as [Pl Pu];
    try (unfold Ac in *; lra).
  generalize dependent (Ac / sqrt_magic lat0 * cos (rad_lat lat0)).
  intros q Pl Pu. unfold Ac, PIc in *. split; lra.
Qed.

(** *** The reference vector *)

Lemma mg_lat_bounds : 39.9164 <= mg_lat_value lng0 lat0 <= 39.91641.
Proof.
  unfold mg_lat_value. fold x0 y0.
  pose proof transform_lat_bounds as [Tl Tu].
  pose proof scale_lat_denominator_bounds as [Dl Du].
  destruct (div_enclosure (transform_lat_value x0 y0 * 180.0)
              (Ac * (1 - EEc) / (magic lat0 * sqrt_magic lat0) * PIc)
              (155.9 * 180.0) (156.0 * 180.0) 19985867 19986671)
    as [Ql Qu]; try lra.
  generalize dependent
    (transform_lat_value x0 y0 * 180.0
     / (Ac * (1 - EEc) / (magic lat0 * sqrt_magic lat0) * PIc)).
  intros q Ql Qu. unfold lat0. split; lra.
Qed.

Lemma mg_lng_bounds : 116.41024 <= mg_lng_value lng0 lat0 <= 116.41025.
Proof.
  unfold mg_lng_value. fold x0 y0.
  pose proof transform_lng_bounds as [Tl Tu].
  pose proof scale_lng_denominator_bounds as [Dl Du].
  destruct (div_enclosure (transform_lng_value x0 y0 * 180.0)
              (Ac / sqrt_magic lat0 * cos (rad_lat lat0) * PIc)
              (533.8 * 180.0) (534.0 * 180.0) 15388107 15390422)
    as [Ql Qu]; try lra.
  generalize dependent
    (transform_lng_value x0 y0 * 180.0
     / (Ac / sqrt_magic lat0 * cos (rad_lat lat0) * PIc)).
  intros q Ql Qu. unfold lng0. split; lra.
Qed.

(** With the recorded values of the C library the binary64 computation
    yields exactly the pair that CPython prints as
    (116.41024449916938, 39.91640428150164). *)
Lemma beijing_binary64 (libm_sin libm_cos : float -> float) :
  Replay.agrees libm_sin Replay.sin_table ->
  Replay.agrees libm_cos Replay.cos_table ->
  wgs84_to_gcj02 (H := Binary64.float_ops libm_sin libm_cos)
    (Binary64.dec64 116.404) (Binary64.dec64 39.915)
  = Ok (0x1.d1a417224d2f8p+6, 0x1.3f54cbc497b62p+5)%float.
Proof.
  unfold Replay.agrees, Replay.sin_table, Replay.cos_table. intros Hs Hc.
  repeat match goal with
         | H : Forall _ (_ :: _) |- _ => inversion_clear H
         | H : Forall _ [] |- _ => clear H
         end.
  cbn [fst snd] in *.
  vm_compute.
  repeat match goal with
         | H : libm_sin _ = _ |- _ => rewrite !H; clear H
         | H : libm_cos _ = _ |- _ => rewrite !H; clear H
         end.
  vm_compute. reflexivity.
Qed.

(** C6.  The distortion stage maps the reference point (116.404, 39.915)
    to a pair within 1e-4 degrees of (116.41024, 39.91634) in each
    coordinate: in exact arithmetic, and in binary64 for every C library
    that returns the recorded values of [sin] and [cos]. *)
Theorem beijing_reference_vector :
  (exists mg_lng mg_lat : R,
     wgs84_to_gcj02 116.404 39.915 = Ok (mg_lng, mg_lat) /\
     Rabs (mg_lng - 116.41024) <= 0.0001 /\
     Rabs (mg_lat - 39.91634) <= 0.0001) /\
  (forall libm_sin libm_cos : float -> float,
     Replay.agrees libm_sin Replay.sin_table ->
     Replay.agrees libm_cos Replay.cos_table ->
     exists g_lng g_lat : float,
       wgs84_to_gcj02 (H := Binary64.float_ops libm_sin libm_cos)
         (Binary64.dec64 116.404) (Binary64.dec64 39.915)
       = Ok (g_lng, g_lat) /\
       Replay.within64 g_lng 116.41024 0.0001 = true /\
       Replay.within64 g_lat 39.91634 0.0001 = true).
Proof.
  split.
  - exists (mg_lng_value lng0 lat0), (mg_lat_value lng0 lat0).
    pose proof mg_lng_bounds as [Gl Gu].
    pose proof mg_lat_bounds as [Ll Lu].
    split; [|split].
    + apply wgs84_to_gcj02_inside. unfold inside, lng0, lat0. lra.
    + apply Rabs_le. split; lra.
    + apply Rabs_le. split; lra.
  - intros libm_sin libm_cos Hs Hc.
    exists 0x1.d1a417224d2f8p+6%float, 0x1.3f54cbc497b62p+5%float.
    split; [now apply beijing_binary64|].
    split; reflexivity.
Qed.

Lemma beijing_reference_vector_witness :
  Replay.agrees Replay.sin_stub Replay.sin_table /\
  Replay.agrees Replay.cos_stub Replay.cos_table /\
  exists g_lng g_lat : float,
    wgs84_to_gcj02
      (H := Binary64.float_ops Replay.sin_stub Replay.cos_stub)
      (Binary64.dec64 116.404) (Binary64.dec64 39.915)
    = Ok (g_lng, g_lat) /\
    Replay.within64 g_lng 116.41024 0.0001 = true /\
    Replay.within64 g_lat 39.91634 0.0001 = true.
Proof.
  assert (Hs : Replay.agrees Replay.sin_stub Replay.sin_table)
    by (unfold Replay.agrees, Replay.sin_table; repeat constructor).
  assert (Hc : Replay.agrees Replay.cos_stub Replay.cos_table)
    by (unfold Replay.agrees, Replay.cos_table; repeat constructor).
  split; [exact Hs|]. split; [exact Hc|].
  exact (proj2 beijing_reference_vector _ _ Hs Hc).
Defined.

End Numeric.

(** ** Binary64: magnitudes through the operations

    How the operations of [SpecFloat], which the primitive operations on
    doubles are specified by, act on magnitudes: rounding keeps the
    magnitude of the exact result or raises it by one, so that bounds on
    the magnitudes of the operands bound that of the result. *)

Module MagnitudeFacts.

Import SpecFloat FloatAxioms Magnitude.

Local Open Scope Z_scope.

(** *** Digits *)

Lemma digits2_log2 (p : positive) : Zpos (digits2_pos p) = Z.log2 (Zpos p) + 1.
Proof.
  induction p as [p IH|p IH|]; cbn [digits2_pos]; try reflexivity.
  - rewrite Pos2Z.inj_succ, IH.
    change (Z.pos p~1) with (2 * Z.pos p + 1).
    rewrite Z.log2_succ_double by lia. lia.
  - rewrite Pos2Z.inj_succ, IH.
    change (Z.pos p~0) with (2 * Z.pos p).
    rewrite Z.log2_double by lia. lia.
Qed.

Lemma Zdigits2_log2 (m : Z) : 0 < m -> Zdigits2 m = Z.log2 m + 1.
Proof. destruct m as [|p|p]; try lia. intros _. apply digits2_log2. Qed.

Lemma Zdigits2_nonneg (m : Z) : 0 <= Zdigits2 m.
Proof. destruct m; cbn; lia. Qed.

(** Bounds of a positive integer from its number of digits. *)
Lemma digits_bounds (m : Z) :
  0 < m -> 2 ^ (Zdigits2 m - 1) <= m < 2 ^ Zdigits2 m.
Proof.
  intros Hm. rewrite Zdigits2_log2 by assumption.
  replace (Z.log2 m + 1 - 1) with (Z.log2 m) by lia.
  replace (Z.log2 m + 1) with (Z.succ (Z.log2 m)) by lia.
  apply Z.log2_spec. assumption.
Qed.

Lemma digits_unique (m d : Z) :
  0 < m -> 2 ^ (d - 1) <= m < 2 ^ d -> Zdigits2 m = d.
Proof.
  intros Hm [Hl Hu]. rewrite Zdigits2_log2 by assumption.
  assert (0 <= d - 1).
  { destruct (Z.le_gt_cases 0 (d - 1)); [assumption|].
    assert (d <= 0) by lia.
    assert (2 ^ d <= 2 ^ 0) by (apply Z.pow_le_mono_r; lia).
    change (2 ^ 0) with 1 in *. lia. }
  assert (Z.log2 m = d - 1).
  { apply Z.log2_unique; [assumption|].
    replace (Z.succ (d - 1)) with d by lia. lia. }
  lia.
Qed.

(** *** Shifting right *)

Lemma shr_1_m (mrs : shr_record) :
  0 <= shr_m mrs -> shr_m (shr_1 mrs) = Z.div2 (shr_m mrs).
Proof.
  destruct mrs as [m r s]. cbn [shr_m]. intros Hm.
  destruct m as [|[p|p|]|p]; try lia; reflexivity.
Qed.

Lemma iter_pos_shr_1_m (p : positive) :
  forall mrs, 0 <= shr_m mrs ->
  shr_m (SpecFloat.iter_pos shr_1 p mrs) = shr_m mrs / 2 ^ Zpos p.
Proof.
  induction p as [p IH|p IH|]; intros mrs Hm; cbn [SpecFloat.iter_pos].
  - assert (H1 : 0 <= shr_m (shr_1 mrs)).
    { rewrite shr_1_m by assumption. rewrite Z.div2_div. apply Z.div_pos; lia. }
    assert (H2 : 0 <= shr_m (SpecFloat.iter_pos shr_1 p (shr_1 mrs))).
    { rewrite IH by assumption. apply Z.div_pos; lia. }
    rewrite IH, IH, shr_1_m by assumption.
    rewrite Z.div2_div, !Z.div_div by lia.
    f_equal. rewrite Pos2Z.inj_xI.
    rewrite <- !Z.pow_add_r, <- Z.pow_succ_r by lia. f_equal. lia.
  - assert (H2 : 0 <= shr_m (SpecFloat.iter_pos shr_1 p mrs)).
    { rewrite IH by assumption. apply Z.div_pos; lia. }
    rewrite IH, IH by assumption.
    rewrite !Z.div_div by lia.
    f_equal. rewrite Pos2Z.inj_xO.
    rewrite <- !Z.pow_add_r by lia. f_equal. lia.
  - rewrite shr_1_m by assumption. now rewrite Z.div2_div.
Qed.

Lemma shr_m_value (mrs : shr_record) (e n : Z) :
  0 <= shr_m mrs ->
  shr_m (fst (shr mrs e n)) = (if 0 <? n then shr_m mrs / 2 ^ n else shr_m mrs)
  /\ snd (shr mrs e n) = (if 0 <? n then e + n else e).
Proof.
  intros Hm. unfold shr.
  destruct n as [|p|p]; cbn [fst snd]; try (split; reflexivity).
  split; [|reflexivity]. now apply iter_pos_shr_1_m.
Qed.

(** *** The exponent a result is rounded at *)

Lemma fexp64_eq (d : Z) : fexp prec emax d = fexp64 d.
Proof. reflexivity. Qed.

Lemma div_pow2_digits (m n : Z) :
  0 < m -> 0 < n -> n < Zdigits2 m ->
  0 < m / 2 ^ n /\ Zdigits2 (m / 2 ^ n) = Zdigits2 m - n.
Proof.
  intros Hm Hn Hd.
  pose proof (digits_bounds m Hm) as [Hl Hu].
  assert (Hp : 0 < 2 ^ n) by (apply Z.pow_pos_nonneg; lia).
  assert (Hq : 0 < m / 2 ^ n).
  { apply Z.div_str_pos. split; [assumption|].
    apply Z.le_trans with (2 ^ (Zdigits2 m - 1)); [|assumption].
    apply Z.pow_le_mono_r; lia. }
  split; [assumption|].
  rewrite (Zdigits2_log2 _ Hq), (Zdigits2_log2 _ Hm).
  rewrite <- Z.shiftr_div_pow2 by lia.
  rewrite Z.log2_shiftr by assumption.
  rewrite (Zdigits2_log2 _ Hm) in Hd. lia.
Qed.

Lemma div_pow2_zero (m n : Z) :
  0 < m -> Zdigits2 m <= n -> m / 2 ^ n = 0.
Proof.
  intros Hm Hd.
  pose proof (digits_bounds m Hm) as [Hl Hu].
  pose proof (Zdigits2_nonneg m).
  apply Z.div_small. split; [lia|].
  apply Z.lt_le_trans with (2 ^ Zdigits2 m); [assumption|].
  apply Z.pow_le_mono_r; lia.
Qed.

(** [shr_fexp] keeps the magnitude of a mantissa that stays above the
    least exponent, and leaves no mantissa otherwise. *)
Lemma shr_fexp_mag (m e : Z) (l : location) :
  0 < m ->
  (emin64 < Zdigits2 m + e ->
     0 < shr_m (fst (shr_fexp prec emax m e l)) /\
     Zdigits2 (shr_m (fst (shr_fexp prec emax m e l)))
       + snd (shr_fexp prec emax m e l) = Zdigits2 m + e /\
     snd (shr_fexp prec emax m e l) = Z.max e (fexp64 (Zdigits2 m + e))) /\
  (Zdigits2 m + e <= emin64 ->
     shr_m (fst (shr_fexp prec emax m e l)) = 0 /\
     snd (shr_fexp prec emax m e l) = emin64).
Proof.
  intros Hm. unfold shr_fexp. rewrite fexp64_eq.
  set (d := Zdigits2 m + e).
  assert (Hs : 0 <= shr_m (shr_record_of_loc m l))
    by (destruct l as [|[| |]]; cbn; lia).
  destruct (shr_m_value (shr_record_of_loc m l) e (fexp64 d - e) Hs)
    as [H1 H2].
  assert (Hsm : shr_m (shr_record_of_loc m l) = m)
    by (destruct l as [|[| |]]; reflexivity).
  rewrite Hsm in H1. rewrite H1, H2. clear H1 H2 Hsm Hs.
  pose proof (Zdigits2_nonneg m) as Hd0.
  assert (Hd1 : 0 < Zdigits2 m).
  { rewrite Zdigits2_log2 by assumption. pose proof (Z.log2_nonneg m). lia. }
  unfold fexp64, emin64 in *. split.
  - intros Hd.
    destruct (0 <? Z.max (d - 53) (-1074) - e) eqn:E.
    + apply Z.ltb_lt in E.
      destruct (div_pow2_digits m (Z.max (d - 53) (-1074) - e) Hm E)
        as [Q1 Q2]; [unfold d in *; lia|].
      rewrite Q2. unfold d in *. lia.
    + apply Z.ltb_ge in E. unfold d in *. lia.
  - intros Hd.
    assert (E : 0 < Z.max (d - 53) (-1074) - e) by (unfold d in *; lia).
    apply Z.ltb_lt in E. rewrite E. apply Z.ltb_lt in E.
    split; [|lia]. apply div_pow2_zero; [assumption|unfold d in *; lia].
Qed.

(** Rounding moves the mantissa up by at most one. *)
Lemma round_nearest_even_bounds (m : Z) (l : location) :
  m <= round_nearest_even m l <= m + 1.
Proof.
  destruct l as [|[| |]]; cbn; try lia.
  destruct (Z.even m); lia.
Qed.

Lemma loc_of_shr_record_of_loc (m : Z) (l : location) :
  loc_of_shr_record (shr_record_of_loc m l) = l.
Proof. destruct l as [|[| |]]; reflexivity. Qed.

Lemma digits_succ (m m' : Z) :
  0 < m -> m <= m' <= m + 1 -> Zdigits2 m <= Zdigits2 m' <= Zdigits2 m + 1.
Proof.
  intros Hm Hm'. rewrite !Zdigits2_log2 by lia.
  assert (Z.log2 m <= Z.log2 m') by (apply Z.log2_le_mono; lia).
  assert (Z.log2 m' <= Z.log2 (m + 1)) by (apply Z.log2_le_mono; lia).
  pose proof (Z.log2_succ_le m) as Hs.
  replace (Z.succ m) with (m + 1) in Hs by lia. lia.
Qed.

(** *** [binary_round_aux] *)

Lemma finite_in_rounded s lo hi x : finite_in s lo hi x -> rounded s lo hi x.
Proof. destruct x; cbn; tauto. Qed.

Lemma binary_round_aux_renormalize s m e l :
  binary_round_aux prec emax s m e l
  = let r := shr_fexp prec emax m e l in
    renormalize s
      (round_nearest_even (shr_m (fst r)) (loc_of_shr_record (fst r)))
      (snd r).
Proof.
  unfold binary_round_aux, renormalize.
  destruct (shr_fexp prec emax m e l) as [mrs' e']. reflexivity.
Qed.

Lemma renormalize_zero s e : renormalize s 0 e = S754_zero s.
Proof.
  unfold renormalize, shr_fexp.
  assert (H0 : 0 <= shr_m (shr_record_of_loc 0 loc_Exact)) by (cbn; lia).
  destruct (shr_m_value (shr_record_of_loc 0 loc_Exact) e
              (fexp prec emax (Zdigits2 0 + e) - e) H0) as [H1 _].
  revert H1.
  destruct (shr (shr_record_of_loc 0 loc_Exact) e
              (fexp prec emax (Zdigits2 0 + e) - e)) as [mrs e'].
  cbn [fst shr_m shr_record_of_loc]. intros H1. rewrite H1.
  destruct (0 <? _); [rewrite Zdiv_0_l|]; reflexivity.
Qed.

Lemma renormalize_pos s m e :
  0 < m -> emin64 < Zdigits2 m + e ->
  Z.max e (fexp64 (Zdigits2 m + e)) <= 971 ->
  finite_in s (Zdigits2 m + e) (Zdigits2 m + e) (renormalize s m e).
Proof.
  intros Hm Hd He. unfold renormalize.
  destruct (shr_fexp_mag m e loc_Exact Hm) as [H _].
  destruct (H Hd) as (P1 & P2 & P3). clear H.
  revert P1 P2 P3.
  destruct (shr_fexp prec emax m e loc_Exact) as [mrs e'].
  cbn [fst snd]. intros P1 P2 P3.
  destruct (shr_m mrs) as [|p|p] eqn:E; try lia.
  replace (e' <=? emax - prec) with true
    by (symmetry; apply Z.leb_le; change (emax - prec) with 971;
        rewrite P3; exact He).
  cbn [finite_in]. unfold mag. cbn [Zdigits2] in P2. split; [reflexivity|lia].
Qed.

(** [binary_round_aux] on a positive mantissa, away from underflow and
    overflow: the magnitude is kept or goes up by one *)
Lemma binary_round_aux_finite s m e l :
  0 < m -> emin64 < Zdigits2 m + e -> Zdigits2 m + e < 1024 -> e <= 971 ->
  finite_in s (Zdigits2 m + e) (Zdigits2 m + e + 1)
    (binary_round_aux prec emax s m e l).
Proof.
  intros Hm Hd Hu He. rewrite binary_round_aux_renormalize. cbv zeta.
  destruct (shr_fexp_mag m e l Hm) as [H _].
  destruct (H Hd) as (P1 & P2 & P3). clear H.
  revert P1 P2 P3.
  destruct (shr_fexp prec emax m e l) as [mrs e'].
  cbn [fst snd]. intros P1 P2 P3.
  pose proof (round_nearest_even_bounds (shr_m mrs) (loc_of_shr_record mrs))
    as Hr.
  pose proof (digits_succ (shr_m mrs) _ P1 Hr) as Hg.
  set (m2 := round_nearest_even (shr_m mrs) (loc_of_shr_record mrs)) in *.
  assert (F : finite_in s (Zdigits2 m2 + e') (Zdigits2 m2 + e')
                (renormalize s m2 e')).
  { apply renormalize_pos; unfold fexp64, emin64 in *; lia. }
  destruct (renormalize s m2 e') as [| | |s' m' e''];
    cbn [finite_in rounded] in F |- *; try contradiction.
  destruct F as [-> F]. split; [reflexivity|lia].
Qed.

(** The same without the lower bound: the result may be a zero or as
    small as the least subnormal *)
Lemma binary_round_aux_rounded s m e l :
  0 <= m -> Zdigits2 m + e < 1024 -> e <= 971 ->
  rounded s (-2000) (Z.max (Zdigits2 m + e + 1) (emin64 + 1))
    (binary_round_aux prec emax s m e l).
Proof.
  intros Hm Hu He.
  destruct (Z.eq_dec m 0) as [->|Hm0].
  - (* a zero mantissa: the result is a zero or the least subnormal *)
    rewrite binary_round_aux_renormalize. cbv zeta.
    unfold shr_fexp.
    assert (H0 : 0 <= shr_m (shr_record_of_loc 0 l))
      by (destruct l as [|[| |]]; cbn; lia).
    destruct (shr_m_value (shr_record_of_loc 0 l) e
                (fexp prec emax (Zdigits2 0 + e) - e) H0) as [H1 H2].
    revert H1 H2.
    destruct (shr (shr_record_of_loc 0 l) e
                (fexp prec emax (Zdigits2 0 + e) - e)) as [mrs e'].
    cbn [fst snd]. intros H1 H2.
    assert (Hz : shr_m mrs = 0).
    { rewrite H1. replace (shr_m (shr_record_of_loc 0 l)) with 0
        by (destruct l as [|[| |]]; reflexivity).
      destruct (0 <? _); [apply Zdiv_0_l|reflexivity]. }
    rewrite Hz.
    assert (He' : emin64 <= e' /\ e' <= Z.max e emin64).
    { rewrite fexp64_eq in H2. cbn [Zdigits2] in H2.
      unfold fexp64, emin64 in *.
      destruct (0 <? _) eqn:E in H2;
        [apply Z.ltb_lt in E|apply Z.ltb_ge in E]; lia. }
    pose proof (round_nearest_even_bounds 0 (loc_of_shr_record mrs)) as Hr.
    set (m2 := round_nearest_even 0 (loc_of_shr_record mrs)) in *.
    assert (Hc : m2 = 0 \/ m2 = 1) by lia.
    destruct Hc as [->| ->].
    + rewrite renormalize_zero. reflexivity.
    + assert (F : finite_in s (Zdigits2 1 + e') (Zdigits2 1 + e')
                    (renormalize s 1 e')).
      { apply renormalize_pos; cbn [Zdigits2 digits2_pos];
          unfold fexp64, emin64 in *; lia. }
      destruct (renormalize s 1 e') as [| | |s' m' e''];
        cbn [finite_in rounded] in F |- *; try contradiction.
      destruct F as [-> F]. cbn [Zdigits2 digits2_pos] in *. unfold emin64 in *.
      split; [reflexivity|lia].
  - assert (Hp : 0 < m) by lia.
    destruct (Z_lt_le_dec emin64 (Zdigits2 m + e)) as [Hd|Hd].
    + pose proof (binary_round_aux_finite s m e l Hp Hd Hu He) as F.
      destruct (binary_round_aux prec emax s m e l);
        cbn [finite_in rounded] in F |- *; try contradiction.
      unfold emin64 in *. destruct F as [-> F]. split; [reflexivity|lia].
    + rewrite binary_round_aux_renormalize. cbv zeta.
      destruct (shr_fexp_mag m e l Hp) as [_ H].
      destruct (H Hd) as (P1 & P2). clear H.
      revert P1 P2.
      destruct (shr_fexp prec emax m e l) as [mrs e'].
      cbn [fst snd]. intros P1 P2. rewrite P1, P2.
      pose proof (round_nearest_even_bounds 0 (loc_of_shr_record mrs)) as Hr.
      set (m2 := round_nearest_even 0 (loc_of_shr_record mrs)) in *.
      assert (Hc : m2 = 0 \/ m2 = 1) by lia.
      destruct Hc as [->| ->].
      * rewrite renormalize_zero. reflexivity.
      * assert (F : finite_in s (Zdigits2 1 + emin64) (Zdigits2 1 + emin64)
                      (renormalize s 1 emin64)).
        { apply renormalize_pos; cbn [Zdigits2 digits2_pos];
            unfold fexp64, emin64; lia. }
        destruct (renormalize s 1 emin64) as [| | |s' m' e''];
          cbn [finite_in rounded] in F |- *; try contradiction.
        destruct F as [-> F]. cbn [Zdigits2 digits2_pos] in *.
        unfold emin64 in *.
        split; [reflexivity|lia].
Qed.

(** *** Canonical representations *)

Lemma valid_binary_canonical s m e :
  SpecFloat.valid_binary prec emax (S754_finite s m e) = true ->
  canonical m e.
Proof.
  cbn [SpecFloat.valid_binary]. unfold bounded, canonical_mantissa, canonical.
  rewrite andb_true_iff, Z.eqb_eq, Z.leb_le. rewrite fexp64_eq.
  change (emax - prec) with 971. unfold mag. intuition congruence.
Qed.

Lemma canonical_exponent m e : canonical m e -> e <= mag m e - 1 /\ -1074 <= e.
Proof.
  unfold canonical, fexp64, emin64, mag. intros [H1 H2].
  pose proof (Pos2Z.is_pos (digits2_pos m)). lia.
Qed.

Lemma canonical_exponent_normal m e :
  canonical m e -> e = Z.max (mag m e - 53) (-1074).
Proof. unfold canonical, fexp64, emin64. tauto. Qed.

Lemma digits_mul (a b : Z) :
  0 < a -> 0 < b ->
  Zdigits2 a + Zdigits2 b - 1 <= Zdigits2 (a * b) <= Zdigits2 a + Zdigits2 b.
Proof.
  intros Ha Hb. rewrite !Zdigits2_log2 by nia.
  pose proof (Z.log2_mul_below a b Ha Hb).
  pose proof (Z.log2_mul_above a b). lia.
Qed.

(** *** Multiplication *)

Lemma SFmul_finite sx mx ex sy my ey :
  canonical mx ex -> canonical my ey ->
  emin64 < mag mx ex + mag my ey - 1 -> mag mx ex + mag my ey < 1024 ->
  finite_in (xorb sx sy) (mag mx ex + mag my ey - 1) (mag mx ex + mag my ey + 1)
    (SFmul prec emax (S754_finite sx mx ex) (S754_finite sy my ey)).
Proof.
  intros Cx Cy Hl Hu. cbn [SFmul].
  pose proof (digits_mul (Zpos mx) (Zpos my) eq_refl eq_refl) as Hd.
  change (Z.pos mx * Z.pos my) with (Z.pos (mx * my)) in Hd.
  apply canonical_exponent_normal in Cx, Cy.
  unfold mag in *. cbn [Zdigits2] in Hd.
  pose proof (binary_round_aux_finite (xorb sx sy) (Z.pos (mx * my))
                (ex + ey) loc_Exact eq_refl) as F.
  cbn [Zdigits2] in F. unfold emin64 in *.
  destruct (binary_round_aux prec emax (xorb sx sy) (Z.pos (mx * my))
              (ex + ey) loc_Exact) as [| | |s' m' e'];
    cbn [finite_in] in *; try (exfalso; apply F; lia).
  destruct F as [-> F]; [lia..|]. split; [reflexivity|]. unfold mag in *. lia.
Qed.

Lemma SFmul_rounded sx mx ex sy my ey :
  canonical mx ex -> canonical my ey ->
  mag mx ex + mag my ey < 1024 ->
  rounded (xorb sx sy) (-2000) (Z.max (mag mx ex + mag my ey + 1) (emin64 + 1))
    (SFmul prec emax (S754_finite sx mx ex) (S754_finite sy my ey)).
Proof.
  intros Cx Cy Hu. cbn [SFmul].
  pose proof (digits_mul (Zpos mx) (Zpos my) eq_refl eq_refl) as Hd.
  change (Z.pos mx * Z.pos my) with (Z.pos (mx * my)) in Hd.
  apply canonical_exponent_normal in Cx, Cy.
  unfold mag in *. cbn [Zdigits2] in Hd.
  assert (H0 : 0 <= Z.pos (mx * my)) by lia.
  pose proof (binary_round_aux_rounded (xorb sx sy) (Z.pos (mx * my))
                (ex + ey) loc_Exact H0) as F.
  cbn [Zdigits2] in F. unfold emin64 in *.
  destruct (binary_round_aux prec emax (xorb sx sy) (Z.pos (mx * my))
              (ex + ey) loc_Exact) as [| | |s' m' e'];
    cbn [rounded] in *; try (apply F; lia).
  destruct F as [-> F]; [lia..|]. split; [reflexivity|]. unfold mag in *. lia.
Qed.

(** *** Digits of shifts and quotients *)

Lemma pow2_lt_inv (a b : Z) : 0 <= a -> 2 ^ a < 2 ^ b -> a < b.
Proof.
  intros Ha H.
  destruct (Z.lt_ge_cases a b) as [|Hge]; [assumption|].
  assert (2 ^ b <= 2 ^ a) by (apply Z.pow_le_mono_r; lia). lia.
Qed.

Lemma digits_pos (m : Z) : 0 < m -> 1 <= Zdigits2 m.
Proof.
  intros Hm. rewrite Zdigits2_log2 by assumption.
  pose proof (Z.log2_nonneg m). lia.
Qed.

Lemma digits_shiftl (m s : Z) :
  0 < m -> 0 <= s -> Zdigits2 (m * 2 ^ s) = Zdigits2 m + s.
Proof.
  intros Hm Hs.
  assert (0 < 2 ^ s) by (apply Z.pow_pos_nonneg; lia).
  rewrite !Zdigits2_log2 by nia.
  rewrite <- Z.shiftl_mul_pow2 by assumption.
  rewrite Z.log2_shiftl by lia. lia.
Qed.

(** Digits of a quotient. *)
Lemma digits_div (a b q r : Z) :
  0 < a -> 0 < b -> a = b * q + r -> 0 <= r < b ->
  (0 < q ->
   Zdigits2 a - Zdigits2 b <= Zdigits2 q <= Zdigits2 a - Zdigits2 b + 1)
  /\ (1 <= Zdigits2 a - Zdigits2 b -> 0 < q)
  /\ 0 <= q.
Proof.
  intros Ha Hb Hq Hr.
  pose proof (digits_bounds a Ha) as [Al Au].
  pose proof (digits_bounds b Hb) as [Bl Bu].
  pose proof (digits_pos a Ha) as Da. pose proof (digits_pos b Hb) as Db.
  assert (Q0 : 0 <= q) by nia.
  assert (L : 0 < q ->
              Zdigits2 a - Zdigits2 b <= Zdigits2 q
              <= Zdigits2 a - Zdigits2 b + 1).
  { intros Hq0.
    pose proof (digits_bounds q Hq0) as [Ql Qu].
    pose proof (digits_pos q Hq0) as Dq.
    split.
    - (* a < (q + 1) * b <= 2 ^ dq * 2 ^ db *)
      assert (H1 : 2 ^ (Zdigits2 a - 1) < 2 ^ (Zdigits2 q + Zdigits2 b)).
      { rewrite Z.pow_add_r by lia.
        apply Z.le_lt_trans with a; [assumption|].
        apply Z.lt_le_trans with ((q + 1) * b); [nia|].
        assert (0 < 2 ^ Zdigits2 q) by (apply Z.pow_pos_nonneg; lia).
        nia. }
      apply pow2_lt_inv in H1; lia.
    - (* 2 ^ (dq - 1) * 2 ^ (db - 1) <= q * b <= a < 2 ^ da *)
      assert (H1 : 2 ^ (Zdigits2 q - 1 + (Zdigits2 b - 1)) < 2 ^ Zdigits2 a).
      { rewrite Z.pow_add_r by lia.
        apply Z.le_lt_trans with a; [|assumption].
        apply Z.le_trans with (q * b); [|nia].
        assert (0 < 2 ^ (Zdigits2 q - 1)) by (apply Z.pow_pos_nonneg; lia).
        assert (0 < 2 ^ (Zdigits2 b - 1)) by (apply Z.pow_pos_nonneg; lia).
        nia. }
      apply pow2_lt_inv in H1; lia. }
  split; [exact L|]. split; [|exact Q0].
  intros Hd.
  destruct (Z.eq_dec q 0) as [->|]; [|lia].
  (* q = 0: a < b, so a has at most as many digits as b *)
  assert (a < b) by lia.
  assert (H1 : 2 ^ (Zdigits2 a - 1) < 2 ^ Zdigits2 b) by lia.
  apply pow2_lt_inv in H1; lia.
Qed.

Lemma shift_match (m s : Z) :
  0 <= s ->
  match s with
  | Z.pos _ => Z.shiftl m s
  | Z0 => m
  | Z.neg _ => 0
  end = m * 2 ^ s.
Proof.
  intros Hs. destruct s as [|p|p].
  - rewrite Z.pow_0_r, Z.mul_1_r. reflexivity.
  - apply Z.shiftl_mul_pow2. lia.
  - lia.
Qed.

(** *** Division *)

Lemma SFdiv_core_binary_mag mx ex my ey :
  let k := mag mx ex - mag my ey in
  let r := SFdiv_core_binary prec emax (Zpos mx) ex (Zpos my) ey in
  0 <= fst (fst r) /\
  snd (fst r) <= fexp64 k /\
  (0 < fst (fst r) -> k <= Zdigits2 (fst (fst r)) + snd (fst r) <= k + 1) /\
  (emin64 < k -> 0 < fst (fst r)).
Proof.
  intros k r. subst r. unfold SFdiv_core_binary.
  rewrite fexp64_eq. cbn [Zdigits2].
  replace (Z.pos (digits2_pos mx) + ex - (Z.pos (digits2_pos my) + ey)) with k
    by (unfold k, mag; lia).
  set (e' := Z.min (fexp64 k) (ex - ey)).
  set (s := ex - ey - e').
  assert (Hs : 0 <= s) by (unfold s, e'; lia).
  set (m' := match s with
             | Z.pos _ => Z.shiftl (Z.pos mx) s
             | Z0 => Z.pos mx
             | Z.neg _ => 0
             end).
  assert (Hm' : m' = Z.pos mx * 2 ^ s) by (apply shift_match; exact Hs).
  assert (Hm'0 : 0 < m').
  { rewrite Hm'. assert (0 < 2 ^ s) by (apply Z.pow_pos_nonneg; lia). nia. }
  assert (Hd' : Zdigits2 m' = Z.pos (digits2_pos mx) + s).
  { rewrite Hm'. rewrite digits_shiftl by lia. reflexivity. }
  pose proof (Z_div_mod m' (Z.pos my) eq_refl) as Hdm.
  destruct (Z.div_eucl m' (Z.pos my)) as [q r]. destruct Hdm as [Hq Hr].
  cbn [fst snd].
  destruct (digits_div m' (Z.pos my) q r Hm'0 eq_refl Hq Hr) as (D1 & D2 & D3).
  cbn [Zdigits2] in D1, D2. rewrite Hd' in D1, D2.
  assert (Hk : Z.pos (digits2_pos mx) + s - Z.pos (digits2_pos my) + e' = k)
    by (unfold s, k, mag; lia).
  split; [exact D3|]. split; [unfold e'; lia|]. split.
  - intros Hq0. specialize (D1 Hq0). lia.
  - intros Hk0. apply D2. unfold e', fexp64, emin64 in *.
    unfold s, e', k, mag, fexp64, emin64 in *. lia.
Qed.

Lemma SFdiv_finite sx mx ex sy my ey :
  emin64 < mag mx ex - mag my ey -> mag mx ex - mag my ey + 1 < 1024 ->
  finite_in (xorb sx sy) (mag mx ex - mag my ey) (mag mx ex - mag my ey + 2)
    (SFdiv prec emax (S754_finite sx mx ex) (S754_finite sy my ey)).
Proof.
  intros Hl Hu. cbn [SFdiv].
  pose proof (SFdiv_core_binary_mag mx ex my ey) as H. cbv zeta in H.
  destruct (SFdiv_core_binary prec emax (Z.pos mx) ex (Z.pos my) ey)
    as [[q e'] l].
  cbn [fst snd] in H. destruct H as (H1 & H2 & H3 & H4).
  specialize (H4 Hl). specialize (H3 H4).
  unfold fexp64, emin64 in *.
  assert (F : finite_in (xorb sx sy) (Zdigits2 q + e') (Zdigits2 q + e' + 1)
                (binary_round_aux prec emax (xorb sx sy) q e' l)).
  { apply binary_round_aux_finite; unfold emin64; lia. }
  destruct (binary_round_aux prec emax (xorb sx sy) q e' l) as [| | |s' m' e''];
    cbn [finite_in] in *; try contradiction.
  destruct F as [-> F]. split; [reflexivity|lia].
Qed.

Lemma SFdiv_rounded sx mx ex sy my ey :
  mag mx ex - mag my ey + 1 < 1024 ->
  rounded (xorb sx sy) (-2000)
    (Z.max (mag mx ex - mag my ey + 2) (emin64 + 1))
    (SFdiv prec emax (S754_finite sx mx ex) (S754_finite sy my ey)).
Proof.
  intros Hu. cbn [SFdiv].
  pose proof (SFdiv_core_binary_mag mx ex my ey) as H. cbv zeta in H.
  destruct (SFdiv_core_binary prec emax (Z.pos mx) ex (Z.pos my) ey)
    as [[q e'] l].
  cbn [fst snd] in H. destruct H as (H1 & H2 & H3 & H4).
  unfold fexp64, emin64 in *.
  destruct (Z.eq_dec q 0) as [->|Hq].
  - pose proof (binary_round_aux_rounded (xorb sx sy) 0 e' l) as F.
    cbn [Zdigits2] in F. unfold emin64 in F.
    destruct (binary_round_aux prec emax (xorb sx sy) 0 e' l)
      as [| | |s' m' e''];
      cbn [rounded] in *; try (apply F; lia).
    destruct F as [-> F]; [lia..|]. split; [reflexivity|lia].
  - assert (Hq0 : 0 < q) by lia. specialize (H3 Hq0).
    pose proof (binary_round_aux_rounded (xorb sx sy) q e' l) as F.
    unfold emin64 in F.
    destruct (binary_round_aux prec emax (xorb sx sy) q e' l)
      as [| | |s' m' e''];
      cbn [rounded] in *; try (apply F; lia).
    destruct F as [-> F]; [lia..|]. split; [reflexivity|lia].
Qed.

Lemma rounded_small s lo hi x : rounded s lo hi x -> small hi x.
Proof. destruct x; cbn; tauto. Qed.

Lemma small_mono hi hi' x : hi <= hi' -> small hi x -> small hi' x.
Proof. destruct x; cbn; lia. Qed.

(** *** Alignment *)

Lemma iter_xO (m d : positive) :
  Z.pos (Pos.iter xO m d) = Z.pos m * 2 ^ Z.pos d.
Proof.
  rewrite (Pos.iter_swap_gen _ _ Z.pos xO (Z.mul 2)) by reflexivity.
  change (Pos.iter (Z.mul 2) (Z.pos m) d) with (Z.shiftl (Z.pos m) (Z.pos d)).
  apply Z.shiftl_mul_pow2. lia.
Qed.

Lemma shl_align_value (m : positive) (e e' : Z) :
  Z.pos (fst (shl_align m e e')) = Z.pos m * 2 ^ (e - snd (shl_align m e e'))
  /\ snd (shl_align m e e') = Z.min e e'.
Proof.
  unfold shl_align. destruct (e' - e) as [|d|d] eqn:E; cbn [fst snd].
  - rewrite Z.sub_diag, Z.pow_0_r. lia.
  - rewrite Z.sub_diag, Z.pow_0_r. lia.
  - rewrite iter_xO. replace (e - e') with (Z.pos d) by lia. lia.
Qed.

Lemma shl_align_mag (m : positive) (e e' : Z) :
  mag (fst (shl_align m e e')) (snd (shl_align m e e')) = mag m e.
Proof.
  destruct (shl_align_value m e e') as [H1 H2].
  unfold mag.
  change (Z.pos (digits2_pos (fst (shl_align m e e'))))
    with (Zdigits2 (Z.pos (fst (shl_align m e e')))).
  rewrite H1, digits_shiftl by lia. cbn [Zdigits2]. lia.
Qed.

(** *** [binary_round] *)

Lemma binary_round_finite s m e :
  emin64 < mag m e -> mag m e < 1024 ->
  finite_in s (mag m e) (mag m e + 1) (binary_round prec emax s m e).
Proof.
  intros Hl Hu. unfold binary_round. rewrite fexp64_eq. fold (mag m e).
  pose proof (shl_align_mag m e (fexp64 (mag m e))) as Hm.
  destruct (shl_align_value m e (fexp64 (mag m e))) as [_ He].
  destruct (shl_align m e (fexp64 (mag m e))) as [mz ez]. cbn [fst snd] in *.
  rewrite <- Hm. unfold mag.
  change (Z.pos (digits2_pos mz)) with (Zdigits2 (Z.pos mz)).
  apply binary_round_aux_finite; cbn [Zdigits2]; fold (mag mz ez);
    unfold fexp64, emin64 in *; lia.
Qed.

Lemma binary_normalize_small (z e : Z) (b : bool) (k : Z) :
  Z.abs z < 2 ^ k -> 0 <= k -> emin64 <= e -> k + e < 1024 ->
  small (k + e + 1) (binary_normalize prec emax z e b).
Proof.
  intros Hz Hk He Hu. unfold binary_normalize.
  assert (D : forall p, Z.pos p < 2 ^ k -> emin64 < mag p e <= k + e).
  { intros p Hp. unfold mag.
    change (Z.pos (digits2_pos p)) with (Zdigits2 (Z.pos p)).
    pose proof (digits_bounds (Z.pos p) eq_refl) as [Pl Pu].
    pose proof (digits_pos (Z.pos p) eq_refl).
    assert (H1 : 2 ^ (Zdigits2 (Z.pos p) - 1) < 2 ^ k) by lia.
    apply pow2_lt_inv in H1; lia. }
  destruct z as [|p|p]; [exact I| |].
  - destruct (D p) as [D1 D2]; [lia|].
    pose proof (binary_round_finite false p e D1 ltac:(lia)) as F.
    destruct (binary_round prec emax false p e); cbn [finite_in small] in *;
      try contradiction.
    destruct F as [_ F]; lia.
  - destruct (D p) as [D1 D2]; [lia|].
    pose proof (binary_round_finite true p e D1 ltac:(lia)) as F.
    destruct (binary_round prec emax true p e); cbn [finite_in small] in *;
      try contradiction.
    destruct F as [_ F]; lia.
Qed.

(** *** Subtraction *)

Lemma aligned_bound (m : positive) (e ez : Z) :
  ez <= e -> emin64 <= ez ->
  Z.pos (fst (shl_align m e ez)) < 2 ^ (mag m e - ez)
  /\ 2 ^ (mag m e - ez - 1) <= Z.pos (fst (shl_align m e ez))
  /\ 1 <= mag m e - ez.
Proof.
  intros He Hz.
  destruct (shl_align_value m e ez) as [H1 H2].
  pose proof (shl_align_mag m e ez) as Hm.
  rewrite H2, Z.min_r in * by lia.
  pose proof (digits_bounds (Z.pos (fst (shl_align m e ez))) eq_refl)
    as [Pl Pu].
  unfold mag in *.
  change (Z.pos (digits2_pos (fst (shl_align m e ez))))
    with (Zdigits2 (Z.pos (fst (shl_align m e ez)))) in Hm.
  pose proof (digits_pos (Z.pos (fst (shl_align m e ez))) eq_refl).
  replace (Z.pos (digits2_pos m) + e - ez)
    with (Zdigits2 (Z.pos (fst (shl_align m e ez)))) by lia.
  replace (Zdigits2 (Z.pos (fst (shl_align m e ez))) - 1 - 0)
    with (Zdigits2 (Z.pos (fst (shl_align m e ez))) - 1) by lia.
  lia.
Qed.

Lemma SFsub_small sx mx ex sy my ey (k : Z) :
  canonical mx ex -> canonical my ey ->
  mag mx ex <= k -> mag my ey <= k -> k + 1 < 1024 ->
  small (k + 2)
    (SFsub prec emax (S754_finite sx mx ex) (S754_finite sy my ey)).
Proof.
  intros Cx Cy Hx Hy Hk. cbn [SFsub].
  set (ez := Z.min ex ey).
  destruct (canonical_exponent mx ex Cx) as [Ex1 Ex2].
  destruct (canonical_exponent my ey Cy) as [Ey1 Ey2].
  destruct (aligned_bound mx ex ez) as (X1 & _ & X3);
    [unfold ez, emin64; lia..|].
  destruct (aligned_bound my ey ez) as (Y1 & _ & Y3);
    [unfold ez, emin64; lia..|].
  set (ax := Z.pos (fst (shl_align mx ex ez))) in *.
  set (ay := Z.pos (fst (shl_align my ey ez))) in *.
  assert (Px : 2 ^ (mag mx ex - ez) <= 2 ^ (k - ez))
    by (apply Z.pow_le_mono_r; lia).
  assert (Py : 2 ^ (mag my ey - ez) <= 2 ^ (k - ez))
    by (apply Z.pow_le_mono_r; lia).
  assert (Hz : Z.abs (cond_Zopp sx ax - cond_Zopp sy ay) < 2 ^ (k - ez + 1)).
  { rewrite Z.pow_add_r by lia. change (2 ^ 1) with 2.
    unfold cond_Zopp. destruct sx, sy; lia. }
  pose proof (binary_normalize_small _ ez false (k - ez + 1) Hz) as S.
  replace (k - ez + 1 + ez + 1) with (k + 2) in S by lia.
  apply S; unfold emin64, ez in *; lia.
Qed.

Lemma SFsub_one_minus (t : spec_float) :
  match t with
  | S754_zero _ => True
  | S754_finite _ m e => canonical m e /\ mag m e <= -1
  | _ => False
  end ->
  finite_in false 0 2 (SFsub prec emax SF_one t).
Proof.
  destruct t as [s| | |sy my ey]; try contradiction.
  - intros _. unfold SF_one. cbn [SFsub finite_in].
    split; [reflexivity|]. vm_compute. split; discriminate.
  - intros [Cy Hy]. unfold SF_one. cbn [SFsub].
    destruct (canonical_exponent my ey Cy) as [Ey1 Ey2].
    pose proof (canonical_exponent_normal my ey Cy) as Ey3.
    assert (Ez : Z.min (-52) ey = ey) by lia. rewrite Ez.
    destruct (shl_align_value 4503599627370496 (-52) ey) as [A1 A2].
    destruct (shl_align_value my ey ey) as [B1 B2].
    rewrite Z.min_r in A2 by lia. rewrite Z.min_id in B2.
    rewrite A2 in A1. rewrite B2, Z.sub_diag, Z.pow_0_r, Z.mul_1_r in B1.
    set (ax := Z.pos (fst (shl_align 4503599627370496 (-52) ey))) in *.
    set (ay := Z.pos (fst (shl_align my ey ey))) in *.
    assert (Hax : ax = 2 ^ (- ey)).
    { rewrite A1. change 4503599627370496 with (2 ^ 52).
      rewrite <- Z.pow_add_r by lia. f_equal. lia. }
    pose proof (digits_bounds (Z.pos my) eq_refl) as [Ml Mu].
    cbn [Zdigits2] in Ml, Mu.
    assert (Hay : 0 < ay /\ ay < 2 ^ (- ey - 1)).
    { rewrite B1. split; [lia|].
      apply Z.lt_le_trans with (2 ^ Z.pos (digits2_pos my)); [assumption|].
      apply Z.pow_le_mono_r; unfold mag in *; lia. }
    assert (Hp : 2 ^ (- ey) = 2 * 2 ^ (- ey - 1)).
    { rewrite <- Z.pow_succ_r by lia. f_equal. lia. }
    assert (Hp2 : 2 ^ (- ey + 1) = 2 * 2 ^ (- ey)).
    { rewrite <- Z.pow_succ_r by lia. f_equal. }
    set (z := cond_Zopp false ax - cond_Zopp sy ay).
    assert (Hz : 2 ^ (- ey - 1) < z < 2 ^ (- ey + 1)).
    { unfold z, cond_Zopp. destruct sy; lia. }
    assert (Hz0 : 0 < z).
    { assert (0 < 2 ^ (- ey - 1)) by (apply Z.pow_pos_nonneg; lia). lia. }
    assert (Hd : - ey <= Zdigits2 z <= - ey + 1).
    { pose proof (digits_bounds z Hz0) as [Zl Zu].
      pose proof (digits_pos z Hz0).
      assert (H1 : 2 ^ (- ey - 1) < 2 ^ Zdigits2 z) by lia.
      assert (H2 : 2 ^ (Zdigits2 z - 1) < 2 ^ (- ey + 1)) by lia.
      apply pow2_lt_inv in H1, H2; lia. }
    destruct z as [|p|p] eqn:E; try lia.
    cbn [binary_normalize]. cbn [Zdigits2] in Hd.
    assert (Hmg : 0 <= mag p ey <= 1) by (unfold mag; lia).
    pose proof (binary_round_finite false p ey) as F.
    destruct (binary_round prec emax false p ey); cbn [finite_in] in *;
      try (apply F; unfold emin64; lia).
    destruct F as [-> F]; [unfold emin64; lia..|]. split; [reflexivity|lia].
Qed.

(** *** Square root *)

Lemma digits_sqrt (n q r : Z) :
  0 < n -> n = q * q + r -> 0 <= r <= 2 * q -> 0 <= q ->
  0 < q /\ Zdigits2 n <= 2 * Zdigits2 q <= Zdigits2 n + 1.
Proof.
  intros Hn Hq Hr Hq0.
  assert (Q : 0 < q) by nia. split; [exact Q|].
  pose proof (digits_bounds n Hn) as [Nl Nu].
  pose proof (digits_bounds q Q) as [Ql Qu].
  pose proof (digits_pos n Hn). pose proof (digits_pos q Q).
  split.
  - (* n < (q + 1)^2 <= 2 ^ (2 dq) *)
    assert (H1 : 2 ^ (Zdigits2 n - 1) < 2 ^ (Zdigits2 q + Zdigits2 q)).
    { rewrite Z.pow_add_r by lia.
      apply Z.le_lt_trans with n; [assumption|]. nia. }
    apply pow2_lt_inv in H1; lia.
  - (* 2 ^ (2 dq - 2) <= q^2 <= n < 2 ^ dn *)
    assert (H1 : 2 ^ (Zdigits2 q - 1 + (Zdigits2 q - 1)) < 2 ^ Zdigits2 n).
    { rewrite Z.pow_add_r by lia.
      apply Z.le_lt_trans with n; [|assumption].
      assert (0 < 2 ^ (Zdigits2 q - 1)) by (apply Z.pow_pos_nonneg; lia).
      nia. }
    apply pow2_lt_inv in H1; lia.
Qed.

Lemma SFsqrt_finite mx ex (lo hi : Z) :
  2 * lo <= mag mx ex -> mag mx ex + 1 <= 2 * hi ->
  emin64 < lo -> hi < 1023 ->
  finite_in false lo (hi + 1) (SFsqrt prec emax (S754_finite false mx ex)).
Proof.
  intros Hlo Hhi Hl Hu. cbn [SFsqrt]. unfold SFsqrt_core_binary.
  rewrite fexp64_eq. cbn [Zdigits2]. fold (mag mx ex).
  set (e' := Z.min (fexp64 (Z.div2 (mag mx ex + 1))) (Z.div2 ex)).
  set (s := ex - 2 * e').
  pose proof (Zdiv2_odd_eqn ex) as He2.
  assert (Hs : 0 <= s).
  { unfold s, e'. destruct (Z.odd ex); lia. }
  rewrite (shift_match (Z.pos mx) s Hs).
  set (m' := Z.pos mx * 2 ^ s).
  assert (Hm' : 0 < m').
  { unfold m'. assert (0 < 2 ^ s) by (apply Z.pow_pos_nonneg; lia). nia. }
  assert (Hd' : Zdigits2 m' = Z.pos (digits2_pos mx) + s)
    by (unfold m'; rewrite digits_shiftl by lia; reflexivity).
  pose proof (Z.sqrtrem_spec m' ltac:(lia)) as Hsq.
  destruct (Z.sqrtrem m') as [q r]. destruct Hsq as [Hq Hr].
  assert (Hq0 : 0 <= q) by nia.
  destruct (digits_sqrt m' q r Hm' Hq Hr Hq0) as [Q D].
  rewrite Hd' in D.
  assert (M : 2 * (Zdigits2 q + e') = mag mx ex
              \/ 2 * (Zdigits2 q + e') = mag mx ex + 1)
    by (unfold s, mag in *; lia).
  assert (E' : e' <= 971).
  { pose proof (Zdiv2_odd_eqn (mag mx ex + 1)).
    unfold e', fexp64, emin64 in *. destruct (Z.odd (mag mx ex + 1)); lia. }
  set (l := if r =? 0 then loc_Exact
            else loc_Inexact (if r <=? q then Lt else Gt)).
  pose proof (binary_round_aux_finite false q e' l Q) as F.
  destruct (binary_round_aux prec emax false q e' l); cbn [finite_in] in *;
    try (apply F; unfold emin64 in *; lia).
  destruct F as [-> F]; [unfold emin64 in *; lia..|].
  split; [reflexivity|lia].
Qed.

(** *** Doubles *)

Lemma canonical64 (x : float) s m e :
  Prim2SF x = S754_finite s m e -> canonical m e.
Proof.
  intros E. apply (valid_binary_canonical s). rewrite <- E.
  apply Prim2SF_valid.
Qed.

Lemma positive64_nonzero64 lo hi x : positive64 lo hi x -> nonzero64 lo hi x.
Proof.
  unfold positive64, nonzero64.
  destruct (Prim2SF x); cbn [finite_in nonzero_in]; tauto.
Qed.

Lemma nonzero64_small64 lo hi x : nonzero64 lo hi x -> small64 hi x.
Proof.
  unfold small64, nonzero64.
  destruct (Prim2SF x); cbn [small nonzero_in]; tauto.
Qed.

Lemma small64_mono k k' x : k <= k' -> small64 k x -> small64 k' x.
Proof. unfold small64. apply small_mono. Qed.

Lemma nonzero64_mono lo hi lo' hi' x :
  lo' <= lo -> hi <= hi' -> nonzero64 lo hi x -> nonzero64 lo' hi' x.
Proof.
  unfold nonzero64. destruct (Prim2SF x); cbn [nonzero_in]; lia.
Qed.

(** *** Tests *)

Lemma small64_not_infinity k x :
  small64 k x -> PrimFloat.is_infinity x = false.
Proof.
  unfold small64, PrimFloat.is_infinity. rewrite eqb_spec, abs_spec.
  destruct (Prim2SF x); cbn [small]; try contradiction; reflexivity.
Qed.

Lemma nonzero64_not_zero lo hi x : nonzero64 lo hi x -> (x =? 0)%float = false.
Proof.
  unfold nonzero64. rewrite eqb_spec.
  destruct (Prim2SF x) as [| | |[|] m e]; cbn [nonzero_in];
    try contradiction; reflexivity.
Qed.

Lemma positive64_not_negative lo hi x z :
  Prim2SF z = S754_zero false -> positive64 lo hi x -> (x <? z)%float = false.
Proof.
  unfold positive64. intros Ez. rewrite ltb_spec, Ez.
  destruct (Prim2SF x) as [| | |[|] m e]; cbn [finite_in];
    try contradiction; try reflexivity.
  intros [E _]. discriminate E.
Qed.

(** *** A number between two positive numbers *)

Lemma SFltb_between x ma ea mb eb :
  SFltb (S754_finite false ma ea) x = true ->
  SFltb x (S754_finite false mb eb) = true ->
  exists m e, x = S754_finite false m e /\ ea <= e <= eb.
Proof.
  unfold SFltb.
  destruct x as [[|]|[|]| |[|] m e]; cbn [SFcompare]; try discriminate.
  intros H1 H2. exists m, e. split; [reflexivity|].
  destruct (Z.compare_spec ea e), (Z.compare_spec e eb);
    try discriminate; lia.
Qed.

Lemma between64 (a b x : float) ma ea mb eb :
  Prim2SF a = S754_finite false ma ea ->
  Prim2SF b = S754_finite false mb eb ->
  (a <? x)%float = true -> (x <? b)%float = true ->
  positive64 (ea + 1) (eb + 53) x.
Proof.
  intros Ea Eb. rewrite !ltb_spec, Ea, Eb. intros H1 H2.
  destruct (SFltb_between _ _ _ _ _ H1 H2) as (m & e & E & He).
  unfold positive64. rewrite E. cbn [finite_in]. split; [reflexivity|].
  pose proof (canonical64 x _ _ _ E) as C.
  pose proof (canonical_exponent_normal _ _ C).
  pose proof (canonical_exponent _ _ C). lia.
Qed.

(** *** What [abs x <= 1] and [x <> 0] say *)

Lemma leb_abs_one_small64 (x : float) :
  (PrimFloat.abs x <=? 1)%float = true -> small64 1 x.
Proof.
  rewrite leb_spec, abs_spec. unfold small64.
  change (Prim2SF 1) with SF_one. unfold SF_one, SFleb.
  pose proof (canonical64 x) as C.
  destruct (Prim2SF x) as [| | |s m e]; cbn [SFabs SFcompare small];
    try discriminate; [trivial|].
  specialize (C _ _ _ eq_refl).
  pose proof (canonical_exponent_normal _ _ C).
  destruct (Z.compare_spec e (-52)); try discriminate; lia.
Qed.

Lemma nonzero_small64 (x : float) k :
  small64 k x -> (x =? 0)%float = false -> nonzero64 (-1073) k x.
Proof.
  unfold small64, nonzero64. rewrite eqb_spec.
  pose proof (canonical64 x) as C.
  destruct (Prim2SF x) as [| | |s m e]; cbn [small nonzero_in];
    try contradiction; try discriminate.
  intros H _. specialize (C _ _ _ eq_refl).
  pose proof (canonical_exponent _ _ C). lia.
Qed.

(** *** Arithmetic *)

Lemma mul_small64 (a b c : Z) (x y : float) :
  small64 a x -> small64 b y ->
  a + b < 1024 -> a + b + 1 <= c -> emin64 + 1 <= c ->
  small64 c (x * y).
Proof.
  unfold small64. intros Hx Hy Hu Hc Hc'. rewrite mul_spec. unfold SF64mul.
  pose proof (canonical64 x) as Cx. pose proof (canonical64 y) as Cy.
  destruct (Prim2SF x) as [sx| | |sx mx ex];
    destruct (Prim2SF y) as [sy| | |sy my ey];
    cbn [small] in Hx, Hy; try contradiction; try exact I.
  specialize (Cx _ _ _ eq_refl). specialize (Cy _ _ _ eq_refl).
  pose proof (SFmul_rounded sx mx ex sy my ey Cx Cy ltac:(lia)) as R.
  apply rounded_small in R. revert R. apply small_mono. lia.
Qed.

Lemma div_small64 (a lo hi c : Z) (x y : float) :
  small64 a x -> nonzero64 lo hi y ->
  a - lo + 1 < 1024 -> a - lo + 2 <= c -> emin64 + 1 <= c ->
  small64 c (x / y).
Proof.
  unfold small64, nonzero64. intros Hx Hy Hu Hc Hc'.
  rewrite div_spec. unfold SF64div.
  destruct (Prim2SF x) as [sx| | |sx mx ex];
    destruct (Prim2SF y) as [sy| | |sy my ey];
    cbn [small nonzero_in] in Hx, Hy; try contradiction; try exact I.
  pose proof (SFdiv_rounded sx mx ex sy my ey ltac:(lia)) as R.
  apply rounded_small in R. revert R. apply small_mono. lia.
Qed.

Lemma sub_small64 (k c : Z) (x y : float) :
  small64 k x -> small64 k y -> k + 1 < 1024 -> k + 2 <= c ->
  small64 c (x - y).
Proof.
  unfold small64. intros Hx Hy Hu Hc. rewrite sub_spec. unfold SF64sub.
  pose proof (canonical64 x) as Cx. pose proof (canonical64 y) as Cy.
  destruct (Prim2SF x) as [sx| | |sx mx ex];
    destruct (Prim2SF y) as [sy| | |sy my ey];
    cbn [small] in Hx, Hy; try contradiction.
  - cbn [SFsub]. destruct sx, sy; exact I.
  - cbn [SFsub small]. lia.
  - cbn [SFsub small]. lia.
  - specialize (Cx _ _ _ eq_refl). specialize (Cy _ _ _ eq_refl).
    pose proof (SFsub_small sx mx ex sy my ey k Cx Cy Hx Hy Hu) as R.
    revert R. apply small_mono. lia.
Qed.

Lemma mul_nonzero64 (lo1 hi1 lo2 hi2 : Z) (x y : float) :
  nonzero64 lo1 hi1 x -> nonzero64 lo2 hi2 y ->
  emin64 < lo1 + lo2 - 1 -> hi1 + hi2 < 1024 ->
  nonzero64 (lo1 + lo2 - 1) (hi1 + hi2 + 1) (x * y).
Proof.
  unfold nonzero64. intros Hx Hy Hl Hu. rewrite mul_spec. unfold SF64mul.
  pose proof (canonical64 x) as Cx. pose proof (canonical64 y) as Cy.
  destruct (Prim2SF x) as [sx| | |sx mx ex];
    destruct (Prim2SF y) as [sy| | |sy my ey];
    cbn [nonzero_in] in Hx, Hy; try contradiction.
  specialize (Cx _ _ _ eq_refl). specialize (Cy _ _ _ eq_refl).
  pose proof (SFmul_finite sx mx ex sy my ey Cx Cy ltac:(lia) ltac:(lia))
    as R.
  destruct (SFmul prec emax (S754_finite sx mx ex) (S754_finite sy my ey));
    cbn [finite_in nonzero_in] in *; try contradiction. lia.
Qed.

Lemma mul_positive64 (lo1 hi1 lo2 hi2 : Z) (x y : float) :
  positive64 lo1 hi1 x -> positive64 lo2 hi2 y ->
  emin64 < lo1 + lo2 - 1 -> hi1 + hi2 < 1024 ->
  positive64 (lo1 + lo2 - 1) (hi1 + hi2 + 1) (x * y).
Proof.
  unfold positive64. intros Hx Hy Hl Hu. rewrite mul_spec. unfold SF64mul.
  pose proof (canonical64 x) as Cx. pose proof (canonical64 y) as Cy.
  destruct (Prim2SF x) as [sx| | |sx mx ex];
    destruct (Prim2SF y) as [sy| | |sy my ey];
    cbn [finite_in] in Hx, Hy; try contradiction.
  specialize (Cx _ _ _ eq_refl). specialize (Cy _ _ _ eq_refl).
  destruct Hx as [-> Hx]. destruct Hy as [-> Hy].
  pose proof (SFmul_finite false mx ex false my ey Cx Cy ltac:(lia)
                ltac:(lia)) as R.
  destruct (SFmul prec emax (S754_finite false mx ex)
              (S754_finite false my ey));
    cbn [finite_in] in *; try contradiction.
  destruct R as [-> R]. split; [reflexivity|lia].
Qed.

Lemma div_positive64 (lo1 hi1 lo2 hi2 : Z) (x y : float) :
  positive64 lo1 hi1 x -> positive64 lo2 hi2 y ->
  emin64 < lo1 - hi2 -> hi1 - lo2 + 1 < 1024 ->
  positive64 (lo1 - hi2) (hi1 - lo2 + 2) (x / y).
Proof.
  unfold positive64. intros Hx Hy Hl Hu. rewrite div_spec. unfold SF64div.
  destruct (Prim2SF x) as [sx| | |sx mx ex];
    destruct (Prim2SF y) as [sy| | |sy my ey];
    cbn [finite_in] in Hx, Hy; try contradiction.
  destruct Hx as [-> Hx]. destruct Hy as [-> Hy].
  pose proof (SFdiv_finite false mx ex false my ey ltac:(lia) ltac:(lia))
    as R.
  destruct (SFdiv prec emax (S754_finite false mx ex)
              (S754_finite false my ey));
    cbn [finite_in] in *; try contradiction.
  destruct R as [-> R]. split; [reflexivity|lia].
Qed.

Lemma one_minus_positive64 (o t : float) :
  Prim2SF o = SF_one -> small64 (-1) t -> positive64 0 2 (o - t).
Proof.
  unfold small64, positive64. intros Eo Ht.
  rewrite sub_spec, Eo. unfold SF64sub.
  apply SFsub_one_minus.
  pose proof (canonical64 t) as C.
  destruct (Prim2SF t) as [| | |s m e]; cbn [small] in Ht;
    try contradiction; [exact I|].
  split; [exact (C _ _ _ eq_refl)|exact Ht].
Qed.

Lemma sqrt_positive64 (lo hi : Z) (x : float) :
  positive64 (2 * lo) (2 * hi - 1) x -> emin64 < lo -> hi < 1023 ->
  positive64 lo (hi + 1) (PrimFloat.sqrt x).
Proof.
  unfold positive64. intros Hx Hl Hu. rewrite sqrt_spec. unfold SF64sqrt.
  destruct (Prim2SF x) as [sx| | |sx mx ex]; cbn [finite_in] in Hx;
    try contradiction.
  destruct Hx as [-> Hx].
  apply SFsqrt_finite; lia.
Qed.

(** *** Upper bounds on values *)

Lemma scaled_shift (m e n : Z) :
  0 <= n -> -2200 <= e -> scaled m (e + n) = scaled m e * 2 ^ n.
Proof.
  intros Hn He. unfold scaled.
  replace (e + n + 2200) with (e + 2200 + n) by lia.
  rewrite Z.pow_add_r by lia. ring.
Qed.

Lemma scaled_lt_cancel (a b e : Z) :
  -2200 <= e -> scaled a e < scaled b e -> a < b.
Proof.
  unfold scaled. intros He H.
  apply Z.mul_lt_mono_pos_r in H; [exact H|].
  apply Z.pow_pos_nonneg; lia.
Qed.

Lemma shr_fexp_value (m e : Z) (l : location) :
  0 < m ->
  snd (shr_fexp prec emax m e l) = Z.max e (fexp64 (Zdigits2 m + e)) /\
  shr_m (fst (shr_fexp prec emax m e l))
  = m / 2 ^ (snd (shr_fexp prec emax m e l) - e).
Proof.
  intros Hm. unfold shr_fexp. rewrite fexp64_eq.
  set (d := Zdigits2 m + e).
  assert (Hs : 0 <= shr_m (shr_record_of_loc m l))
    by (destruct l as [|[| |]]; cbn; lia).
  destruct (shr_m_value (shr_record_of_loc m l) e (fexp64 d - e) Hs)
    as [H1 H2].
  assert (Hsm : shr_m (shr_record_of_loc m l) = m)
    by (destruct l as [|[| |]]; reflexivity).
  rewrite Hsm in H1. rewrite H1, H2.
  destruct (0 <? fexp64 d - e) eqn:E.
  - apply Z.ltb_lt in E. split; [lia|]. do 2 f_equal. lia.
  - apply Z.ltb_ge in E. split; [lia|].
    rewrite Z.sub_diag, Z.pow_0_r, Z.div_1_r. reflexivity.
Qed.

Lemma renormalize_value s m e :
  0 < m -> emin64 < Zdigits2 m + e ->
  Z.max e (fexp64 (Zdigits2 m + e)) <= 971 ->
  exists m' e',
    renormalize s m e = S754_finite s m' e' /\
    e <= e' /\ Z.pos m' = m / 2 ^ (e' - e).
Proof.
  intros Hm Hd He. unfold renormalize.
  destruct (shr_fexp_mag m e loc_Exact Hm) as [H _].
  destruct (H Hd) as (P1 & P2 & P3). clear H.
  destruct (shr_fexp_value m e loc_Exact Hm) as [V1 V2].
  revert P1 P2 P3 V1 V2.
  destruct (shr_fexp prec emax m e loc_Exact) as [mrs e'].
  cbn [fst snd]. intros P1 P2 P3 V1 V2.
  destruct (shr_m mrs) as [|p|p] eqn:E; try lia.
  replace (e' <=? emax - prec) with true
    by (symmetry; apply Z.leb_le; change (emax - prec) with 971;
        rewrite P3; exact He).
  exists p, e'. split; [reflexivity|]. split; [lia|exact V2].
Qed.

(** Rounding does not pass a number of the grid the result lies on. *)
Lemma binary_round_aux_at_most m e l N k :
  0 < m -> emin64 < Zdigits2 m + e -> Zdigits2 m + e < 1024 -> e <= 971 ->
  -2200 <= e -> fexp64 (Zdigits2 m + e) <= k -> e <= k ->
  scaled m e < scaled N k ->
  at_most N k (binary_round_aux prec emax false m e l).
Proof.
  intros Hm Hd Hu He He0 Hk Hek Hv.
  rewrite binary_round_aux_renormalize. cbv zeta.
  destruct (shr_fexp_mag m e l Hm) as [H _].
  destruct (H Hd) as (P1 & P2 & P3). clear H.
  destruct (shr_fexp_value m e l Hm) as [V1 _].
  destruct (shr_fexp_value m e l Hm) as [_ V2].
  revert P1 P2 P3 V1 V2.
  destruct (shr_fexp prec emax m e l) as [mrs e1].
  cbn [fst snd]. intros P1 P2 P3 V1 V2.
  pose proof (round_nearest_even_bounds (shr_m mrs) (loc_of_shr_record mrs))
    as Hr.
  pose proof (digits_succ (shr_m mrs) _ P1 Hr) as Hg.
  set (m2 := round_nearest_even (shr_m mrs) (loc_of_shr_record mrs)) in *.
  destruct (renormalize_value false m2 e1) as (m' & e' & -> & E1 & E2);
    [unfold fexp64, emin64 in *; lia..|].
  cbn [at_most].
  assert (He1 : e <= e1 <= k) by lia.
  (* the truncated mantissa is below the grid point *)
  assert (B1 : shr_m mrs < N * 2 ^ (k - e1)).
  { rewrite V2. apply Z.div_lt_upper_bound; [apply Z.pow_pos_nonneg; lia|].
    apply (scaled_lt_cancel _ _ e He0). unfold scaled in *.
    replace (k + 2200) with ((e1 - e) + (k - e1) + (e + 2200)) in Hv by lia.
    rewrite (Z.pow_add_r 2 (e1 - e + (k - e1))), (Z.pow_add_r 2 (e1 - e))
      in Hv by lia.
    replace (2 ^ (e1 - e) * (N * 2 ^ (k - e1)) * 2 ^ (e + 2200))
      with (N * (2 ^ (e1 - e) * 2 ^ (k - e1) * 2 ^ (e + 2200))) by ring.
    exact Hv. }
  assert (B2 : m2 <= N * 2 ^ (k - e1)) by lia.
  unfold scaled. rewrite E2.
  replace (e' + 2200) with ((e' - e1) + (e1 + 2200)) by lia.
  replace (k + 2200) with ((k - e1) + (e1 + 2200)) by lia.
  rewrite (Z.pow_add_r 2 (e' - e1)), (Z.pow_add_r 2 (k - e1)) by lia.
  assert (G : 0 < 2 ^ (e1 + 2200)) by (apply Z.pow_pos_nonneg; lia).
  assert (D : 0 < 2 ^ (e' - e1)) by (apply Z.pow_pos_nonneg; lia).
  pose proof (Z.mul_div_le m2 (2 ^ (e' - e1)) D) as Q.
  rewrite !Z.mul_assoc.
  apply Z.mul_le_mono_nonneg_r; [lia|].
  rewrite (Z.mul_comm (m2 / 2 ^ (e' - e1))). lia.
Qed.

(** *** Comparison *)

Lemma SFltb_scaled mx ex mb eb :
  canonical mx ex -> canonical mb eb ->
  SFltb (S754_finite false mx ex) (S754_finite false mb eb) = true ->
  scaled (Z.pos mx) ex < scaled (Z.pos mb) eb.
Proof.
  intros Cx Cb. unfold SFltb. cbn [SFcompare].
  pose proof (canonical_exponent_normal _ _ Cx) as Nx.
  pose proof (canonical_exponent_normal _ _ Cb) as Nb.
  unfold mag in Nx, Nb.
  pose proof (digits_bounds (Z.pos mx) eq_refl) as [Xl Xu].
  pose proof (digits_bounds (Z.pos mb) eq_refl) as [Bl Bu].
  cbn [Zdigits2] in Xl, Xu, Bl, Bu.
  destruct (Z.compare_spec ex eb) as [E|E|E]; try discriminate.
  - subst eb. intros H.
    assert (Hm : (mx < mb)%positive).
    { destruct (Pos.compare_cont Eq mx mb) eqn:C; try discriminate.
      exact C. }
    unfold scaled. apply Z.mul_lt_mono_pos_r; [|lia].
    apply Z.pow_pos_nonneg; lia.
  - intros _. unfold scaled.
    assert (Db : Z.pos (digits2_pos mb) = 53) by lia.
    assert (Dx : Z.pos (digits2_pos mx) <= 53) by lia.
    rewrite Db in Bl. change (2 ^ (53 - 1)) with (2 ^ 52) in Bl.
    assert (Xu' : Z.pos mx < 2 ^ 53).
    { apply Z.lt_le_trans with (2 ^ Z.pos (digits2_pos mx)); [exact Xu|].
      apply Z.pow_le_mono_r; lia. }
    assert (P : 2 * 2 ^ (ex + 2200) <= 2 ^ (eb + 2200)).
    { rewrite <- Z.pow_succ_r by lia. apply Z.pow_le_mono_r; lia. }
    assert (G : 0 < 2 ^ (ex + 2200)) by (apply Z.pow_pos_nonneg; lia).
    change (2 ^ 53) with (2 ^ 52 * 2) in Xu'.
    apply Z.lt_le_trans with (2 ^ 52 * 2 * 2 ^ (ex + 2200)).
    + apply Z.mul_lt_mono_pos_r; assumption.
    + apply Z.le_trans with (2 ^ 52 * 2 ^ (eb + 2200)).
      * rewrite <- Z.mul_assoc. apply Z.mul_le_mono_nonneg_l; lia.
      * apply Z.mul_le_mono_nonneg_r; lia.
Qed.

(** *** Multiplication and division *)

Lemma SFmul_at_most mx ex my ey N k :
  canonical mx ex -> canonical my ey ->
  emin64 < mag mx ex + mag my ey - 1 -> mag mx ex + mag my ey < 1024 ->
  fexp64 (mag mx ex + mag my ey) <= k -> ex + ey <= k ->
  scaled (Z.pos mx * Z.pos my) (ex + ey) < scaled N k ->
  at_most N k
    (SFmul prec emax (S754_finite false mx ex) (S754_finite false my ey)).
Proof.
  intros Cx Cy Hl Hu Hk Hek Hv. cbn [SFmul xorb].
  pose proof (digits_mul (Zpos mx) (Zpos my) eq_refl eq_refl) as Hd.
  change (Z.pos mx * Z.pos my) with (Z.pos (mx * my)) in *.
  destruct (canonical_exponent mx ex Cx) as [Ex1 Ex2].
  destruct (canonical_exponent my ey Cy) as [Ey1 Ey2].
  apply canonical_exponent_normal in Cx, Cy.
  unfold mag in *. cbn [Zdigits2] in Hd.
  apply binary_round_aux_at_most; cbn [Zdigits2];
    unfold fexp64, emin64 in *; lia.
Qed.

Lemma SFdiv_core_binary_value mx ex my ey :
  let r := SFdiv_core_binary prec emax (Zpos mx) ex (Zpos my) ey in
  snd (fst r) = Z.min (fexp64 (mag mx ex - mag my ey)) (ex - ey) /\
  fst (fst r) * Z.pos my <= Z.pos mx * 2 ^ (ex - ey - snd (fst r)).
Proof.
  intros r. subst r. unfold SFdiv_core_binary.
  rewrite fexp64_eq. cbn [Zdigits2].
  replace (Z.pos (digits2_pos mx) + ex - (Z.pos (digits2_pos my) + ey))
    with (mag mx ex - mag my ey) by (unfold mag; lia).
  set (e' := Z.min (fexp64 (mag mx ex - mag my ey)) (ex - ey)).
  set (s := ex - ey - e').
  assert (Hs : 0 <= s) by (unfold s, e'; lia).
  rewrite (shift_match (Z.pos mx) s Hs).
  pose proof (Z_div_mod (Z.pos mx * 2 ^ s) (Z.pos my) eq_refl) as Hdm.
  destruct (Z.div_eucl (Z.pos mx * 2 ^ s) (Z.pos my)) as [q r].
  destruct Hdm as [Hq Hr]. cbn [fst snd].
  split; [reflexivity|]. fold s. lia.
Qed.

Lemma SFdiv_at_most mx ex my ey N k :
  canonical mx ex -> canonical my ey ->
  emin64 < mag mx ex - mag my ey -> mag mx ex - mag my ey + 1 < 1024 ->
  fexp64 (mag mx ex - mag my ey + 1) <= k ->
  scaled (Z.pos mx) (ex - ey) < Z.pos my * scaled N k ->
  at_most N k
    (SFdiv prec emax (S754_finite false mx ex) (S754_finite false my ey)).
Proof.
  intros Cx Cy Hl Hu Hk Hv. cbn [SFdiv xorb].
  pose proof (SFdiv_core_binary_mag mx ex my ey) as H. cbv zeta in H.
  pose proof (SFdiv_core_binary_value mx ex my ey) as V. cbv zeta in V.
  destruct (SFdiv_core_binary prec emax (Z.pos mx) ex (Z.pos my) ey)
    as [[q e'] l].
  cbn [fst snd] in H, V. destruct H as (H1 & H2 & H3 & H4).
  destruct V as [V1 V2].
  specialize (H4 Hl). specialize (H3 H4).
  destruct (canonical_exponent mx ex Cx) as [Ex1 Ex2].
  destruct (canonical_exponent my ey Cy) as [Ey1 Ey2].
  destruct Cx as [_ Ex3]. destruct Cy as [_ Ey3].
  assert (He' : -2200 <= e' <= k) by (unfold fexp64, emin64 in *; lia).
  apply binary_round_aux_at_most; unfold fexp64, emin64 in *; try lia.
  (* q * 2^e' is below the grid point *)
  assert (G : 0 < 2 ^ (e' + 2200)) by (apply Z.pow_pos_nonneg; lia).
  apply (Z.mul_lt_mono_pos_l (Z.pos my)); [lia|].
  apply Z.le_lt_trans with (scaled (Z.pos mx) (ex - ey)); [|exact Hv].
  unfold scaled.
  replace (ex - ey + 2200) with ((ex - ey - e') + (e' + 2200)) by lia.
  rewrite (Z.pow_add_r 2 (ex - ey - e')) by lia.
  rewrite !Z.mul_assoc. apply Z.mul_le_mono_nonneg_r; lia.
Qed.

(** *** On doubles *)

Lemma ltb_at_most64 (lo hi : Z) (x b : float) mb eb :
  Prim2SF b = S754_finite false mb eb ->
  positive64 lo hi x -> (x <? b)%float = true ->
  at_most64 (Z.pos mb) eb x.
Proof.
  intros Eb Hx. rewrite ltb_spec, Eb. unfold positive64, at_most64 in *.
  pose proof (canonical64 x) as Cx. pose proof (canonical64 b _ _ _ Eb) as Cb.
  destruct (Prim2SF x) as [| | |sx mx ex]; cbn [finite_in] in Hx;
    try contradiction.
  destruct Hx as [-> _]. intros H. cbn [at_most].
  apply Z.lt_le_incl, SFltb_scaled; [exact (Cx _ _ _ eq_refl)|exact Cb|exact H].
Qed.

Lemma mul_at_most64 (lo hi Nx kx N k : Z) (x y : float) my ey :
  positive64 lo hi x -> at_most64 Nx kx x ->
  Prim2SF y = S754_finite false my ey -> ey <= 0 -> -2200 <= k ->
  emin64 < lo + mag my ey - 1 -> hi + mag my ey < 1024 ->
  fexp64 (hi + mag my ey) <= k -> hi - 1 + ey <= k ->
  Z.pos my * scaled Nx kx < scaled N (k - ey) ->
  at_most64 N k (x * y).
Proof.
  unfold positive64, at_most64. intros Hx Ax Ey Hey Hk0 Hl Hu Hk Hek Hv.
  rewrite mul_spec, Ey. unfold SF64mul.
  pose proof (canonical64 x) as Cx. pose proof (canonical64 y _ _ _ Ey) as Cy.
  destruct (Prim2SF x) as [| | |sx mx ex]; cbn [finite_in] in Hx;
    try contradiction.
  destruct Hx as [-> Hx]. cbn [at_most] in Ax.
  specialize (Cx _ _ _ eq_refl).
  destruct (canonical_exponent mx ex Cx) as [Ex1 Ex2].
  destruct (canonical_exponent my ey Cy) as [Ey1 Ey2].
  apply SFmul_at_most; trivial; unfold fexp64, emin64 in *; try lia.
  (* the exact product is below the grid point *)
  assert (P : 0 < 2 ^ (- ey)) by (apply Z.pow_pos_nonneg; lia).
  apply (Z.mul_lt_mono_pos_r (2 ^ (- ey))); [exact P|].
  rewrite <- (scaled_shift N k (- ey)) by lia.
  rewrite <- (scaled_shift _ (ex + ey) (- ey)) by lia.
  replace (ex + ey + - ey) with ex by lia.
  replace (k + - ey) with (k - ey) by lia.
  apply Z.le_lt_trans with (Z.pos my * scaled Nx kx); [|exact Hv].
  unfold scaled in *. rewrite (Z.mul_comm (Z.pos mx) (Z.pos my)).
  rewrite <- Z.mul_assoc. apply Z.mul_le_mono_nonneg_l; lia.
Qed.

Lemma div_at_most64 (lo hi Nx kx N k : Z) (x y : float) my ey :
  positive64 lo hi x -> at_most64 Nx kx x ->
  Prim2SF y = S754_finite false my ey -> ey <= 0 -> -2200 <= kx ->
  emin64 < lo - mag my ey -> hi - mag my ey + 1 < 1024 ->
  fexp64 (hi - mag my ey + 1) <= k ->
  scaled Nx (kx - ey) < Z.pos my * scaled N k ->
  at_most64 N k (x / y).
Proof.
  unfold positive64, at_most64. intros Hx Ax Ey Hey Hk0 Hl Hu Hk Hv.
  rewrite div_spec, Ey. unfold SF64div.
  pose proof (canonical64 x) as Cx. pose proof (canonical64 y _ _ _ Ey) as Cy.
  destruct (Prim2SF x) as [| | |sx mx ex]; cbn [finite_in] in Hx;
    try contradiction.
  destruct Hx as [-> Hx]. cbn [at_most] in Ax.
  specialize (Cx _ _ _ eq_refl).
  destruct (canonical_exponent mx ex Cx) as [Ex1 Ex2].
  apply SFdiv_at_most; trivial; unfold fexp64, emin64 in *; try lia.
  apply Z.le_lt_trans with (scaled Nx (kx - ey)); [|exact Hv].
  replace (ex - ey) with (ex + - ey) by lia.
  replace (kx - ey) with (kx + - ey) by lia.
  rewrite !scaled_shift by lia.
  apply Z.mul_le_mono_nonneg_r; [|exact Ax].
  apply Z.pow_nonneg. lia.
Qed.

Lemma at_most64_lt_one (N k : Z) (x : float) :
  at_most64 N k x -> scaled N k < scaled 1 0 -> (x <? 1)%float = true.
Proof.
  unfold at_most64. intros Ax Hv. rewrite ltb_spec.
  change (Prim2SF 1) with SF_one. unfold SF_one.
  pose proof (canonical64 x) as Cx.
  destruct (Prim2SF x) as [| | |[|] m e]; cbn [at_most] in Ax;
    try contradiction.
  specialize (Cx _ _ _ eq_refl).
  pose proof (canonical_exponent_normal _ _ Cx) as Nx.
  destruct (canonical_exponent _ _ Cx) as [E1 E2].
  assert (Hm : mag m e <= 0).
  { unfold mag in *.
    pose proof (digits_bounds (Z.pos m) eq_refl) as [Ml _].
    cbn [Zdigits2] in Ml.
    assert (H : scaled (2 ^ (Z.pos (digits2_pos m) - 1)) e < scaled 1 0).
    { apply Z.le_lt_trans with (scaled (Z.pos m) e); [|lia].
      unfold scaled. apply Z.mul_le_mono_nonneg_r; [|exact Ml].
      apply Z.pow_nonneg. lia. }
    unfold scaled in H. rewrite Z.mul_1_l, <- Z.pow_add_r in H by lia.
    apply pow2_lt_inv in H; lia. }
  unfold SFltb. cbn [SFcompare].
  destruct (Z.compare_spec e (-52)); try reflexivity; lia.
Qed.

Lemma positive64_gt_zero (lo hi : Z) (x z : float) :
  Prim2SF z = S754_zero false -> positive64 lo hi x ->
  (z <? x)%float = true.
Proof.
  unfold positive64. intros Ez. rewrite ltb_spec, Ez.
  destruct (Prim2SF x) as [| | |[|] m e]; cbn [finite_in];
    try contradiction; try reflexivity.
  intros [E _]. discriminate E.
Qed.

(** *** The difference of a number and a larger one *)




(** *** The two tests decide what they test *)

Lemma small64b_ok k x : small64b k x = true -> small64 k x.
Proof.
  unfold small64b, small64.
  destruct (Prim2SF x); cbn [small]; try discriminate; [trivial|].
  apply Z.leb_le.
Qed.

Lemma positive64b_ok lo hi x : positive64b lo hi x = true -> positive64 lo hi x.
Proof.
  unfold positive64b, positive64.
  destruct (Prim2SF x) as [| | |[|] m e]; cbn [finite_in]; try discriminate.
  rewrite andb_true_iff, !Z.leb_le. intros [H1 H2].
  split; [reflexivity|lia].
Qed.

Lemma positive64_mono lo hi lo' hi' x :
  lo' <= lo -> hi <= hi' -> positive64 lo hi x -> positive64 lo' hi' x.
Proof.
  unfold positive64. destruct (Prim2SF x); cbn [finite_in]; try tauto.
  intros H1 H2 [E H]. split; [exact E|lia].
Qed.

Lemma small64_is_finite k x : small64 k x -> PrimFloat.is_finite x = true.
Proof.
  unfold small64, PrimFloat.is_finite, PrimFloat.is_nan, PrimFloat.is_infinity.
  rewrite !eqb_spec, abs_spec.
  change (Prim2SF PrimFloat.infinity) with (S754_infinity false).
  destruct (Prim2SF x) as [[|]| | |[|] m e]; cbn [small]; try contradiction;
    intros _; try reflexivity.
  - unfold SFeqb. cbn [SFcompare SFabs].
    rewrite Z.compare_refl, Pos.compare_cont_refl. reflexivity.
  - unfold SFeqb. cbn [SFcompare SFabs].
    rewrite Z.compare_refl, Pos.compare_cont_refl. reflexivity.
Qed.

(** The bounds in the form the tactics below apply them in. *)
Lemma mul_small64' (a b : Z) (x y : float) :
  small64 a x -> small64 b y -> a + b < 1024 ->
  small64 (Z.max (a + b + 1) (emin64 + 1)) (x * y).
Proof. intros Hx Hy Hu. apply (mul_small64 a b); trivial; lia. Qed.

Lemma div_small64' (a lo hi : Z) (x y : float) :
  small64 a x -> nonzero64 lo hi y -> a - lo + 1 < 1024 ->
  small64 (Z.max (a - lo + 2) (emin64 + 1)) (x / y).
Proof. intros Hx Hy Hu. apply (div_small64 a lo hi); trivial; lia. Qed.

Lemma sub_small64' (a b : Z) (x y : float) :
  small64 a x -> small64 b y -> Z.max a b + 1 < 1024 ->
  small64 (Z.max a b + 2) (x - y).
Proof.
  intros Hx Hy Hu. apply (sub_small64 (Z.max a b)); try lia.
  - revert Hx. apply small64_mono. lia.
  - revert Hy. apply small64_mono. lia.
Qed.

(** [literal64] settles a bound on a literal of the program by
    evaluation, [closed64] a closed comparison of integers, [small64_tac]
    a bound on an expression built from literals and bounded numbers. *)
Ltac literal64 :=
  lazymatch goal with
  | |- small64 ?k (Binary64.dec64 _) =>
      unify k 23; apply small64b_ok; vm_compute; reflexivity
  | |- nonzero64 ?lo ?hi (Binary64.dec64 _) =>
      unify lo 1; unify hi 23;
      apply positive64_nonzero64, positive64b_ok; vm_compute; reflexivity
  end.

Ltac closed64 :=
  vm_compute; first [reflexivity | discriminate | intro; discriminate].

(** *** The angle [rad_lat]

    For a latitude in the rectangle [lat / 180.0 * PI] lies strictly
    between 0 and 1: the quotient is at most 305/1024 and the product at
    most 15/16. *)

Lemma rad_lat_range64 (lat : float) :
  (Binary64.dec64 3.86 <? lat)%float = true ->
  (lat <? Binary64.dec64 53.55)%float = true ->
  (0 <? lat / Binary64.dec64 180.0
        * Binary64.dec64 3.1415926535897932384626)%float = true /\
  (lat / Binary64.dec64 180.0
   * Binary64.dec64 3.1415926535897932384626 <? 1)%float = true.
Proof.
  intros H1 H2.
  assert (Hp : positive64 (-50) 6 lat).
  { eapply positive64_mono;
      [| |eapply (between64 (Binary64.dec64 3.86) (Binary64.dec64 53.55));
          [vm_compute; reflexivity|vm_compute; reflexivity
          |exact H1|exact H2]]; lia. }
  assert (Ha : at_most64 7536492501427814 (-47) lat).
  { eapply (ltb_at_most64 _ _ lat (Binary64.dec64 53.55));
      [vm_compute; reflexivity|exact Hp|exact H2]. }
  assert (H180 : positive64 8 8 (Binary64.dec64 180.0))
    by (apply positive64b_ok; vm_compute; reflexivity).
  assert (Hpi : positive64 2 2 (Binary64.dec64 3.1415926535897932384626))
    by (apply positive64b_ok; vm_compute; reflexivity).
  pose proof (div_positive64 _ _ _ _ _ _ Hp H180
                ltac:(unfold emin64; lia) ltac:(lia)) as Hq.
  assert (Aq : at_most64 305 (-10) (lat / Binary64.dec64 180.0)).
  { eapply (div_at_most64 _ _ _ _ 305 (-10) lat (Binary64.dec64 180.0));
      [exact Hp|exact Ha|vm_compute; reflexivity|closed64..]. }
  pose proof (mul_positive64 _ _ _ _ _ _ Hq Hpi
                ltac:(unfold emin64; lia) ltac:(lia)) as Hr.
  split.
  - exact (positive64_gt_zero _ _ _ 0%float eq_refl Hr).
  - apply (at_most64_lt_one 15 (-4)); [|closed64].
    eapply (mul_at_most64 _ _ _ _ 15 (-4) _
              (Binary64.dec64 3.1415926535897932384626));
      [exact Hq|exact Aq|vm_compute; reflexivity|closed64..].
Qed.

Ltac small64_tac :=
  lazymatch goal with
  | |- small64 _ (PrimFloat.mul _ _) =>
      eapply mul_small64'; [small64_tac | small64_tac | unfold emin64; lia]
  | |- small64 _ (PrimFloat.div _ _) =>
      eapply div_small64'; [small64_tac | literal64 | unfold emin64; lia]
  | |- small64 _ (PrimFloat.sub _ _) =>
      eapply sub_small64'; [small64_tac | small64_tac | unfold emin64; lia]
  | |- small64 _ (Binary64.dec64 _) => literal64
  | |- small64 _ _ => eassumption
  end.

(** *** The distortion stage raises nothing *)

Section Safety64.

Variables libm_sin libm_cos : float -> float.

Hypothesis libm : libm_range libm_sin libm_cos.

Lemma math_sin_small64 k x :
  small64 k x ->
  math_sin (H := Binary64.float_ops libm_sin libm_cos) x = Ok (libm_sin x).
Proof.
  intros Hx. unfold math_sin. cbn [fis_inf fsin Binary64.float_ops].
  now rewrite (small64_not_infinity k).
Qed.

Lemma math_cos_small64 k x :
  small64 k x ->
  math_cos (H := Binary64.float_ops libm_sin libm_cos) x = Ok (libm_cos x).
Proof.
  intros Hx. unfold math_cos. cbn [fis_inf fcos Binary64.float_ops].
  now rewrite (small64_not_infinity k).
Qed.

Lemma truediv_nonzero64 lo hi a b :
  nonzero64 lo hi b ->
  truediv (H := Binary64.float_ops libm_sin libm_cos) a b = Ok (a / b)%float.
Proof.
  intros Hb. unfold truediv. cbn [fis_zero fdiv Binary64.float_ops].
  now rewrite (nonzero64_not_zero lo hi).
Qed.

Lemma math_sqrt_positive64 lo hi x :
  positive64 lo hi x ->
  math_sqrt (H := Binary64.float_ops libm_sin libm_cos) x
  = Ok (PrimFloat.sqrt x).
Proof.
  intros Hx. unfold math_sqrt. cbn [fltb fsqrt dec Binary64.float_ops].
  now rewrite (positive64_not_negative lo hi x (Binary64.dec64 0) eq_refl).
Qed.

(** One statement of the program: a call of [math.sin], a division by a
    literal, [math.sqrt (abs _)], the final [return]. *)
Ltac step64 :=
  lazymatch goal with
  | |- succeeds (bind (math_sin _) _) =>
      erewrite math_sin_small64;
      [cbn [bind]
      |unfold PI; cbn [dec fsub fmul fdiv Binary64.float_ops]; small64_tac]
  | |- succeeds (bind (truediv _ (dec _)) _) =>
      erewrite truediv_nonzero64;
      [cbn [bind]|cbn [dec Binary64.float_ops]; literal64]
  | |- succeeds (bind (math_sqrt (fabs _)) _) =>
      rewrite (math_sqrt_abs_ok
                 (laws := Binary64Facts.binary64_laws libm_sin libm_cos));
      cbn [bind]
  | |- succeeds (Ok _) => eexists; reflexivity
  end.

Lemma _transform_lat_succeeds64 (x y : float) :
  small64 40 x -> small64 40 y ->
  succeeds (_transform_lat (H := Binary64.float_ops libm_sin libm_cos) x y).
Proof.
  intros Hx Hy. unfold _transform_lat. repeat step64.
Qed.

Lemma _transform_lng_succeeds64 (x y : float) :
  small64 40 x -> small64 40 y ->
  succeeds (_transform_lng (H := Binary64.float_ops libm_sin libm_cos) x y).
Proof.
  intros Hx Hy. unfold _transform_lng. repeat step64.
Qed.

(** Inside the rectangle both coordinates are positive and finite, and
    so are the two offsets. *)
Lemma in_china_positive64 (lng lat : float) :
  in_china (H := Binary64.float_ops libm_sin libm_cos) lng lat = true ->
  positive64 (-45) 8 lng /\ positive64 (-50) 6 lat.
Proof.
  unfold in_china. cbn [fltb dec Binary64.float_ops].
  rewrite !andb_true_iff. intros [[H1 H2] [H3 H4]]. split.
  - eapply positive64_mono;
      [| |eapply (between64 (Binary64.dec64 73.66) (Binary64.dec64 135.05));
          [vm_compute; reflexivity|vm_compute; reflexivity
          |exact H1|exact H2]]; lia.
  - eapply positive64_mono;
      [| |eapply (between64 (Binary64.dec64 3.86) (Binary64.dec64 53.55));
          [vm_compute; reflexivity|vm_compute; reflexivity
          |exact H3|exact H4]]; lia.
Qed.

Lemma in_china_small64 (lng lat : float) :
  in_china (H := Binary64.float_ops libm_sin libm_cos) lng lat = true ->
  small64 8 lng /\ small64 6 lat.
Proof.
  intros Hin. destruct (in_china_positive64 lng lat Hin) as [H1 H2].
  split; eapply nonzero64_small64, positive64_nonzero64; eassumption.
Qed.

Lemma offsets_small64 (lng lat : float) :
  in_china (H := Binary64.float_ops libm_sin libm_cos) lng lat = true ->
  small64 40 (lng - Binary64.dec64 105.0)%float /\
  small64 40 (lat - Binary64.dec64 35.0)%float.
Proof.
  intros Hin. destruct (in_china_small64 lng lat Hin) as [Hlng Hlat].
  split; (eapply small64_mono; [|small64_tac]; lia).
Qed.


Lemma distort_succeeds64 (lng lat : float) :
  in_china (H := Binary64.float_ops libm_sin libm_cos) lng lat = true ->
  succeeds (distort (H := Binary64.float_ops libm_sin libm_cos) lng lat).
Proof.
  intros Hin. destruct (in_china_small64 lng lat Hin) as [Hlng Hlat].
  destruct (offsets_small64 lng lat Hin) as [Hx Hy].
  assert (Hlatr : (Binary64.dec64 3.86 <? lat)%float = true /\
                  (lat <? Binary64.dec64 53.55)%float = true).
  { revert Hin. unfold in_china. cbn [fltb dec Binary64.float_ops].
    rewrite !andb_true_iff. tauto. }
  destruct (rad_lat_range64 lat (proj1 Hlatr) (proj2 Hlatr)) as [R0 R1].
  clear Hin Hlatr. unfold distort.
  destruct (_transform_lat_succeeds64 _ _ Hx Hy) as [d_lat Elat].
  destruct (_transform_lng_succeeds64 _ _ Hx Hy) as [d_lng Elng].
  cbn [dec fsub Binary64.float_ops]. rewrite Elat, Elng. cbn [bind].
  erewrite truediv_nonzero64 by (cbn [dec Binary64.float_ops]; literal64).
  cbn [bind].
  unfold PI, EE, A. cbn [dec fadd fsub fmul fdiv Binary64.float_ops].
  set (rad_lat := (lat / Binary64.dec64 180.0
                   * Binary64.dec64 3.1415926535897932384626)%float).
  assert (Hrad : small64 40 rad_lat)
    by (eapply small64_mono; [|unfold rad_lat; small64_tac];
        unfold emin64; lia).
  rewrite (math_sin_small64 _ _ Hrad), (math_cos_small64 _ _ Hrad).
  cbn [bind].
  pose proof (small64_is_finite _ _ Hrad) as Frad.
  pose proof (leb_abs_one_small64 _ (sin_le_one _ _ libm _ Frad)) as Hs.
  pose proof (nonzero_small64 _ _
                (leb_abs_one_small64 _ (cos_le_one _ _ libm _ Frad))
                (cos_not_zero _ _ libm _ R0 R1)) as Hc.
  set (s := libm_sin rad_lat) in *. set (c := libm_cos rad_lat) in *.
  set (t := (Binary64.dec64 0.00669342162296594323 * s * s)%float).
  assert (Ht : small64 (-1) t).
  { unfold t. eapply small64_mono;
      [|eapply mul_small64';
        [eapply mul_small64';
         [apply (small64b_ok (-7)); vm_compute; reflexivity|exact Hs|lia]
        |exact Hs|unfold emin64; lia]].
    unfold emin64. lia. }
  pose proof (one_minus_positive64 (Binary64.dec64 1) t eq_refl Ht) as Hm.
  set (magic := (Binary64.dec64 1 - t)%float) in *.
  rewrite (math_sqrt_positive64 _ _ _ Hm). cbn [bind].
  assert (Hq : positive64 0 3 (PrimFloat.sqrt magic)).
  { apply (sqrt_positive64 0 2); [|unfold emin64; lia|lia].
    revert Hm. apply positive64_mono; lia. }
  set (sqrt_magic := PrimFloat.sqrt magic) in *.
  pose proof (mul_positive64 _ _ _ _ _ _ Hm Hq
                ltac:(unfold emin64; lia) ltac:(lia)) as Hms.
  rewrite (truediv_nonzero64 _ _ _ _ (positive64_nonzero64 _ _ _ Hms)).
  cbn [bind].
  assert (Hpi : positive64 2 2 (Binary64.dec64 3.1415926535897932384626))
    by (apply positive64b_ok; vm_compute; reflexivity).
  assert (Ha : positive64 23 23 (Binary64.dec64 6378245.0))
    by (apply positive64b_ok; vm_compute; reflexivity).
  assert (Hae : positive64 23 23
                  (Binary64.dec64 6378245.0
                   * (Binary64.dec64 1
                      - Binary64.dec64 0.00669342162296594323))%float)
    by (apply positive64b_ok; vm_compute; reflexivity).
  pose proof (div_positive64 _ _ _ _ _ _ Hae Hms
                ltac:(unfold emin64; lia) ltac:(lia)) as Hu.
  pose proof (mul_positive64 _ _ _ _ _ _ Hu Hpi
                ltac:(unfold emin64; lia) ltac:(lia)) as Hupi.
  rewrite (truediv_nonzero64 _ _ _ _ (positive64_nonzero64 _ _ _ Hupi)).
  cbn [bind].
  rewrite (truediv_nonzero64 _ _ _ _ (positive64_nonzero64 _ _ _ Hq)).
  cbn [bind].
  pose proof (div_positive64 _ _ _ _ _ _ Ha Hq
                ltac:(unfold emin64; lia) ltac:(lia)) as Hv.
  pose proof (mul_nonzero64 _ _ _ _ _ _ (positive64_nonzero64 _ _ _ Hv) Hc
                ltac:(unfold emin64; lia) ltac:(lia)) as Hvc.
  pose proof (mul_nonzero64 _ _ _ _ _ _ Hvc
                (positive64_nonzero64 _ _ _ Hpi)
                ltac:(unfold emin64; lia) ltac:(lia)) as Hvcpi.
  rewrite (truediv_nonzero64 _ _ _ _ Hvcpi). cbn [bind].
  eexists. reflexivity.
Qed.

End Safety64.

End MagnitudeFacts.

(** ** No exception: exact arithmetic and binary64 *)

Module Safety.

Import Exact ExactCore ExactFacts.

Local Open Scope R_scope.

(** The stand-in for the C library stays within the range asked of one. *)
Lemma lookup_Forall (P : float -> Prop) (d : float)
    (table : list (float * float)) (x : float) :
  P d -> Forall (fun p => P (snd p)) table -> P (Replay.lookup d table x).
Proof.
  intros Hd Ht.
  induction Ht as [|[a v] rest Hv _ IH]; cbn [Replay.lookup]; [exact Hd|].
  destruct (PrimFloat.eqb a x); [exact Hv|exact IH].
Qed.

Lemma stub_range : libm_range Replay.sin_stub Replay.cos_stub.
Proof.
  unfold Replay.sin_stub, Replay.cos_stub.
  constructor; intros x; intros.
  - apply (lookup_Forall
             (fun v => PrimFloat.leb (PrimFloat.abs v) 1 = true));
      [reflexivity|repeat constructor].
  - apply (lookup_Forall
             (fun v => PrimFloat.leb (PrimFloat.abs v) 1 = true));
      [reflexivity|repeat constructor].
  - apply (lookup_Forall (fun v => PrimFloat.eqb v 0 = false));
      [reflexivity|repeat constructor].
Qed.

(** C4.  [wgs84_to_gcj02] returns a pair whatever its arguments; no
    [ValueError] of [math.sqrt], [math.sin], [math.cos] and no
    [ZeroDivisionError] can arise.
    In exact arithmetic: the two correction functions return, since
    [math.sqrt] is applied to [abs] of a number; [magic] is positive, so
    [math.sqrt magic] returns and the [dLat] denominator is positive; and
    for a latitude in (3.86, 53.55) [cos rad_lat] is positive, so the
    [dLng] denominator is not zero.
    In binary64: the same for every pair of doubles (NaN and infinities
    fall outside the rectangle) and every C library within [libm_range];
    there the arguments of [sin] and [cos] are finite, [magic] lies
    between 1/2 and 4, [rad_lat] lies strictly between 0 and 1, and no
    denominator rounds to zero. *)
Theorem wgs84_to_gcj02_never_raises :
  (forall lng lat : R,
     succeeds (wgs84_to_gcj02 lng lat) /\
     succeeds (_transform_lat lng lat) /\
     succeeds (_transform_lng lng lat) /\
     0 < magic lat /\
     math_sqrt (magic lat) = Ok (sqrt_magic lat) /\
     0 < Ac * (1 - EEc) / (magic lat * sqrt_magic lat) * PIc /\
     (3.86 < lat < 53.55 ->
      0 < cos (rad_lat lat) /\
      Ac / sqrt_magic lat * cos (rad_lat lat) * PIc <> 0)) /\
  (forall libm_sin libm_cos : float -> float,
     libm_range libm_sin libm_cos ->
     forall lng lat : float,
       succeeds (wgs84_to_gcj02 (H := Binary64.float_ops libm_sin libm_cos)
                   lng lat)).
Proof.
  split.
  - intros lng lat. repeat split.
    + destruct (in_china lng lat) eqn:E.
      * apply in_china_iff in E. eexists. apply wgs84_to_gcj02_inside, E.
      * eexists. apply wgs84_to_gcj02_outside. intros Hin.
        apply in_china_iff in Hin. congruence.
    + eexists. apply _transform_lat_value.
    + eexists. apply _transform_lng_value.
    + apply magic_pos.
    + apply math_sqrt_ok. pose proof (magic_pos lat). lra.
    + apply scale_lat_denominator_pos.
    + now apply cos_rad_lat_pos.
    + apply scale_lng_denominator_nonzero, Rgt_not_eq.
      now apply cos_rad_lat_pos.
  - intros libm_sin libm_cos libm lng lat.
    unfold wgs84_to_gcj02, _out_of_china.
    destruct (in_china lng lat) eqn:E; cbn [negb].
    + now apply MagnitudeFacts.distort_succeeds64.
    + eexists. reflexivity.
Qed.

Lemma wgs84_to_gcj02_never_raises_witness :
  libm_range Replay.sin_stub Replay.cos_stub /\
  succeeds (wgs84_to_gcj02
              (H := Binary64.float_ops Replay.sin_stub Replay.cos_stub)
              (Binary64.dec64 116.404) (Binary64.dec64 39.915)) /\
  succeeds (wgs84_to_gcj02 116.404 39.915) /\
  0 < cos (rad_lat 39.915).
Proof.
  pose proof wgs84_to_gcj02_never_raises as [Hr Hf].
  destruct (Hr 116.404 39.915) as (Hs & _ & _ & _ & _ & _ & Hc).
  split; [exact stub_range|].
  split; [exact (Hf _ _ stub_range _ _)|].
  split; [exact Hs|]. apply Hc. lra.
Defined.

End Safety.

(** ** The square-root term, in exact arithmetic and in binary64 *)

Module SqrtTerm.

Import Exact ExactCore ExactFacts Refinement.

Local Open Scope R_scope.



End SqrtTerm.

(* ------------------------------------------------------------------ *)
(** * Properties of what lies around the core *)

(** ** The category statistics *)

Lemma str_eqb_eq (s t : str) : str_eqb s t = true <-> s = t.
Proof.
  unfold str_eqb. destruct (list_eq_dec N.eq_dec s t); split; congruence.
Qed.

Lemma str_eqb_refl (s : str) : str_eqb s s = true.
Proof. now apply str_eqb_eq. Qed.

Lemma str_eqb_neq (s t : str) : str_eqb s t = false <-> s <> t.
Proof.
  unfold str_eqb. destruct (list_eq_dec N.eq_dec s t); split; congruence.
Qed.

Lemma stats_get_bump (k k' : str) (st : list (str * nat)) :
  stats_get k (bump k' st)
  = (stats_get k st + (if str_eqb k' k then 1 else 0))%nat.
Proof.
  induction st as [|[k0 n] st IH]; cbn [bump stats_get].
  - destruct (str_eqb k' k); lia.
  - destruct (str_eqb k0 k') eqn:E0; cbn [stats_get].
    + apply str_eqb_eq in E0. subst k0. destruct (str_eqb k' k); lia.
    + destruct (str_eqb k0 k) eqn:E1; [|exact IH].
      apply str_eqb_eq in E1. subst k0.
      replace (str_eqb k' k) with false; [lia|].
      symmetry. apply str_eqb_neq. apply str_eqb_neq in E0. congruence.
Qed.

Lemma stats_total_bump (k : str) (st : list (str * nat)) :
  stats_total (bump k st) = S (stats_total st).
Proof.
  induction st as [|[k0 n] st IH]; cbn [bump]; [reflexivity|].
  unfold stats_total in *.
  destruct (str_eqb k0 k); cbn [fold_right snd] in *; lia.
Qed.

Lemma bump_keys (k k' : str) (st : list (str * nat)) :
  In k' (map fst (bump k st)) <-> k' = k \/ In k' (map fst st).
Proof.
  induction st as [|[k0 n] st IH]; cbn [bump map fst In].
  - intuition congruence.
  - destruct (str_eqb k0 k) eqn:E; cbn [map fst In].
    + apply str_eqb_eq in E. subst k0. intuition congruence.
    + rewrite IH. tauto.
Qed.

Lemma bump_NoDup (k : str) (st : list (str * nat)) :
  NoDup (map fst st) -> NoDup (map fst (bump k st)).
Proof.
  induction st as [|[k0 n] st IH]; cbn [bump map fst]; intros Hn.
  - constructor; [intros []|constructor].
  - inversion Hn as [|? ? Hk0 Hst]; subst.
    destruct (str_eqb k0 k) eqn:E; cbn [map fst].
    + constructor; assumption.
    + constructor; [|now apply IH].
      rewrite bump_keys. intros [->|Hin]; [|contradiction].
      apply str_eqb_neq in E. congruence.
Qed.

Lemma bump_positive (k : str) (st : list (str * nat)) :
  Forall (fun kn => (0 < snd kn)%nat) st ->
  Forall (fun kn => (0 < snd kn)%nat) (bump k st).
Proof.
  induction st as [|[k0 n] st IH]; cbn [bump]; intros Hp.
  - repeat constructor.
  - inversion Hp as [|? ? H0 Hst]; subst.
    destruct (str_eqb k0 k); constructor; cbn [snd] in *; auto; lia.
Qed.

(** The key a text is counted under is a key of the table. *)
Lemma category_key_scan_in (table : list (str * CatInfo)) (cat : str) :
  category_key_scan table cat = cat_other \/
  In (category_key_scan table cat) (map fst table).
Proof.
  induction table as [|[key info] table IH]; cbn [category_key_scan];
    [now left|].
  destruct (negb (str_eqb key cat_other) && negb (is_empty cat)
            && contains key cat).
  - right. now left.
  - destruct IH as [IH|IH]; [now left|right; now right].
Qed.

(** The two loops over [CATEGORY_COLORS] agree: the colour
    [get_category_info] gives a text is the colour of the key the text is
    counted under. *)
Lemma get_category_info_color (cat : str) :
  color (get_category_info cat)
  = sidebar_color (category_key_scan CATEGORY_COLORS cat).
Proof.
  unfold get_category_info, sidebar_color, CATEGORY_COLORS.
  cbn [category_scan category_key_scan].
  change (str_eqb cat_site cat_other) with false.
  change (str_eqb cat_grotto cat_other) with false.
  change (str_eqb cat_building cat_other) with false.
  change (str_eqb cat_modern cat_other) with false.
  change (str_eqb cat_other cat_other) with true.
  cbn [negb andb].
  destruct (is_empty cat); cbn [negb andb]; [reflexivity|].
  destruct (contains cat_site cat); [reflexivity|].
  destruct (contains cat_grotto cat); [reflexivity|].
  destruct (contains cat_building cat); [reflexivity|].
  destruct (contains cat_modern cat); reflexivity.
Qed.

Section Statistics.

Context {F : Type} `{PyFloat F} {db : UnicodeDB}.

Variable transform : F -> F -> F * F.

(** What one row does to [pts] and [category_stats]. *)
Lemma row_step_cases (pts pts' : list (Point F)) (st st' : list (str * nat))
    (row : Row) :
  row_step transform (pts, st) row = Ok (pts', st') ->
  (pts' = pts /\ st' = st) \/
  exists p,
    pts' = pts ++ [p] /\ st' = bump (category_key p) st /\
    pt_color p = color (get_category_info (pt_category p)) /\
    pt_main_category p = pt_category p.
Proof.
  unfold row_step.
  destruct (parse_coord_py (Some (get_val (cell_lat row)))) as [lat|e];
    cbn [bind]; [|discriminate].
  destruct (parse_coord_py (Some (get_val (cell_lng row)))) as [lng|e];
    cbn [bind]; [|discriminate].
  destruct lat as [lat|], lng as [lng|];
    try (intros E; injection E as <- <-; now left).
  destruct (cgcs2000_to_gcj02 transform lng lat) as [[gcj_lng gcj_lat]|e];
    cbn [bind]; [|discriminate].
  intros E. injection E as <- <-. right. eexists.
  repeat split; reflexivity.
Qed.

Lemma points_under_app (k : str) (pts : list (Point F)) (p : Point F) :
  points_under k (pts ++ [p])
  = (points_under k pts + (if str_eqb (category_key p) k then 1 else 0))%nat.
Proof.
  unfold points_under. rewrite filter_app, length_app. cbn [filter].
  destruct (str_eqb (category_key p) k); reflexivity.
Qed.

Lemma category_key_in_table (p : Point F) :
  table_get (category_key p) CATEGORY_COLORS <> None.
Proof.
  unfold category_key, CATEGORY_COLORS. cbn [category_key_scan].
  change (str_eqb cat_site cat_other) with false.
  change (str_eqb cat_grotto cat_other) with false.
  change (str_eqb cat_building cat_other) with false.
  change (str_eqb cat_modern cat_other) with false.
  change (str_eqb cat_other cat_other) with true.
  cbn [negb andb].
  destruct (is_empty (pt_category p)); cbn [negb andb]; [discriminate|].
  destruct (contains cat_site (pt_category p)); [discriminate|].
  destruct (contains cat_grotto (pt_category p)); [discriminate|].
  destruct (contains cat_building (pt_category p)); [discriminate|].
  destruct (contains cat_modern (pt_category p)); discriminate.
Qed.

Lemma stats_invariant_step (pts pts' : list (Point F))
    (st st' : list (str * nat)) (row : Row) :
  stats_invariant pts st ->
  row_step transform (pts, st) row = Ok (pts', st') ->
  stats_invariant pts' st'.
Proof.
  intros (I1 & I2 & I3 & I4 & I5 & I6) Hs.
  apply row_step_cases in Hs as [[-> ->]|(p & -> & -> & Hp & _)];
    [repeat split; assumption|].
  split; [|split; [|split; [|split; [|split]]]].
  - intros k. rewrite stats_get_bump, points_under_app, I1. reflexivity.
  - rewrite stats_total_bump, length_app, I2. cbn [length]. lia.
  - now apply bump_NoDup.
  - now apply bump_positive.
  - intros k Hk. apply bump_keys in Hk as [->|Hk]; [|now apply I5].
    apply category_key_in_table.
  - apply Forall_app. split; [assumption|]. constructor; [|constructor].
    rewrite Hp. apply get_category_info_color.
Qed.

Lemma stats_invariant_loop (rows : list Row) :
  forall pts st pts' st',
  stats_invariant pts st ->
  rows_loop transform rows (pts, st) = Ok (pts', st') ->
  stats_invariant pts' st'.
Proof.
  induction rows as [|row rows IH]; intros pts st pts' st' Hi Hl;
    cbn [rows_loop] in Hl.
  - injection Hl as <- <-. exact Hi.
  - apply bind_inv in Hl as ([pts1 st1] & Hstep & Hl).
    eapply IH; [|exact Hl]. eapply stats_invariant_step; eassumption.
Qed.

(** X7.  The statistics [sheet_to_points] returns count the points it
    returns: the count under a key is the number of points whose category
    text is classified under that key, the counts add up to the number of
    points, no key is listed twice and no count is zero. *)
Theorem category_stats_count_the_points (rows : list Row)
    (pts : list (Point F)) (stats : list (str * nat)) :
  sheet_to_points transform rows = Ok (pts, stats) ->
  (forall k, stats_get k stats = points_under k pts) /\
  stats_total stats = length pts /\
  NoDup (map fst stats) /\
  Forall (fun kn => (0 < snd kn)%nat) stats.
Proof.
  intros Hs. unfold sheet_to_points in Hs.
  apply stats_invariant_loop in Hs as (I1 & I2 & I3 & I4 & _).
  - repeat split; assumption.
  - repeat split; try constructor. intros k [].
Qed.

(** X8.  The colour of the marker of a point is the colour the sidebar
    shows beside the key the point is counted under, and the sidebar never
    falls back on the default of its lookup: every key of the statistics
    is a key of [CATEGORY_COLORS]. *)
Theorem marker_color_is_sidebar_color (rows : list Row)
    (pts : list (Point F)) (stats : list (str * nat)) :
  sheet_to_points transform rows = Ok (pts, stats) ->
  Forall (fun p => pt_color p = sidebar_color (category_key p) /\
                   (0 < stats_get (category_key p) stats)%nat) pts /\
  (forall k, In k (map fst stats) -> table_get k CATEGORY_COLORS <> None).
Proof.
  intros Hs. unfold sheet_to_points in Hs.
  apply stats_invariant_loop in Hs as (I1 & _ & _ & _ & I5 & I6).
  - split; [|exact I5].
    apply Forall_forall. intros p Hp. split.
    + revert p Hp. now apply Forall_forall.
    + rewrite I1. unfold points_under.
      assert (Hin : In p (filter (fun q => str_eqb (category_key q)
                                             (category_key p)) pts)).
      { apply filter_In. split; [assumption|apply str_eqb_refl]. }
      destruct (filter _ pts); [contradiction|cbn; lia].
  - repeat split; try constructor. intros k [].
Qed.

(** *** The legend *)

Lemma catKey_scan_eq (table : list (str * CatInfo)) (cat : str) :
  catKey_scan table cat = category_key_scan table cat.
Proof.
  induction table as [|[key info] table IH];
    cbn [catKey_scan category_key_scan]; [reflexivity|].
  now rewrite IH.
Qed.

Lemma categoryCount_app (pts : list (Point F)) (p : Point F) :
  categoryCount (pts ++ [p]) = bump (catKey p) (categoryCount pts).
Proof. unfold categoryCount. now rewrite fold_left_app. Qed.

Lemma categoryCount_loop (rows : list Row) :
  forall pts st pts' st',
  categoryCount pts = st ->
  rows_loop transform rows (pts, st) = Ok (pts', st') ->
  categoryCount pts' = st'.
Proof.
  induction rows as [|row rows IH]; intros pts st pts' st' Hi Hl;
    cbn [rows_loop] in Hl.
  - injection Hl as <- <-. exact Hi.
  - apply bind_inv in Hl as ([pts1 st1] & Hstep & Hl).
    eapply IH; [|exact Hl].
    apply row_step_cases in Hstep as [[-> ->]|(p & -> & -> & _ & Hm)];
      [exact Hi|].
    rewrite categoryCount_app, Hi. f_equal.
    unfold catKey, category_key. rewrite Hm. apply catKey_scan_eq.
Qed.

Lemma stats_get_in (k : str) (n : nat) (st : list (str * nat)) :
  NoDup (map fst st) -> In (k, n) st -> stats_get k st = n.
Proof.
  induction st as [|[k0 n0] st IH]; cbn [map fst stats_get In];
    intros Hn Hin; [contradiction|].
  inversion Hn as [|? ? Hk0 Hst]; subst.
  destruct Hin as [E|Hin].
  - injection E as -> ->. now rewrite str_eqb_refl.
  - destruct (str_eqb k0 k) eqn:E; [|now apply IH].
    apply str_eqb_eq in E. subst k0. exfalso. apply Hk0.
    change k with (fst (k, n)). now apply in_map.
Qed.

Lemma stats_get_positive_in (k : str) (st : list (str * nat)) :
  (0 < stats_get k st)%nat -> In (k, stats_get k st) st.
Proof.
  induction st as [|[k0 n0] st IH]; cbn [stats_get In]; [lia|].
  destruct (str_eqb k0 k) eqn:E.
  - apply str_eqb_eq in E. subst k0. now left.
  - intros Hp. right. now apply IH.
Qed.

Lemma table_get_in (k : str) (table : list (str * CatInfo)) :
  table_get k table <> None -> In k (map fst table).
Proof.
  induction table as [|[k0 info] table IH]; cbn [table_get map fst In];
    [congruence|].
  destruct (str_eqb k0 k) eqn:E; [|right; now apply IH].
  apply str_eqb_eq in E. now left.
Qed.

Lemma in_legend_items (k : str) (n : nat) (count : list (str * nat))
    (table : list (str * CatInfo)) :
  In (k, n)
     (flat_map (fun entry =>
                  match stats_get (fst entry) count with
                  | O => []
                  | S m => [(fst entry, S m)]
                  end) table)
  <-> In k (map fst table) /\ n = stats_get k count /\ (0 < n)%nat.
Proof.
  rewrite in_flat_map. split.
  - intros ([k0 info] & Hin & Hk). cbn [fst] in Hk.
    destruct (stats_get k0 count) as [|m] eqn:E; [contradiction|].
    destruct Hk as [Hk|[]]. injection Hk as <- <-.
    split; [|split; [now rewrite E|lia]].
    change k0 with (fst (k0, info)). now apply in_map.
  - intros (Hin & -> & Hp). apply in_map_iff in Hin as ([k0 info] & <- & Hin).
    exists (k0, info). split; [assumption|]. cbn [fst] in *.
    destruct (stats_get k0 count); [lia|now left].
Qed.

(** X9.  The legend of the map shows what the sidebar shows: the counts
    the script of the page computes from the points are the statistics
    [sheet_to_points] returned, key by key and in the same order, and
    the legend has an item for a key with a count exactly when the
    statistics hold that key with that count. *)
Theorem legend_shows_the_statistics (rows : list Row)
    (pts : list (Point F)) (stats : list (str * nat)) :
  sheet_to_points transform rows = Ok (pts, stats) ->
  categoryCount pts = stats /\
  (forall k n, In (k, n) (legend pts) <-> In (k, n) stats).
Proof.
  intros Hs. unfold sheet_to_points in Hs.
  assert (Hc : categoryCount pts = stats)
    by (eapply categoryCount_loop; [|exact Hs]; reflexivity).
  split; [exact Hc|].
  apply stats_invariant_loop in Hs as (_ & _ & I3 & I4 & I5 & _);
    [|repeat split; try constructor; intros k []].
  intros k n. unfold legend. rewrite in_legend_items, Hc. split.
  - intros (_ & -> & Hp). now apply stats_get_positive_in.
  - intros Hin. split; [|split].
    + apply table_get_in, I5.
      change k with (fst (k, n)). now apply in_map.
    + symmetry. now apply stats_get_in.
    + rewrite Forall_forall in I4. exact (I4 _ Hin).
Qed.

End Statistics.

Module StatisticsWitness.

Lemma sample_sheet64 :
  sheet_to_points (H := sample_ops) (db := ascii_db) null_shift sample_rows
  = Ok (sample_points, sample_stats).
Proof. vm_compute. reflexivity. Qed.

Lemma category_stats_count_the_points_witness :
  (forall k, stats_get k sample_stats = points_under k sample_points) /\
  stats_total sample_stats = 3%nat /\
  NoDup (map fst sample_stats) /\
  Forall (fun kn => (0 < snd kn)%nat) sample_stats.
Proof.
  exact (category_stats_count_the_points (H := sample_ops)
           (db := ascii_db) null_shift _ _ _ sample_sheet64).
Defined.

Lemma marker_color_is_sidebar_color_witness :
  Forall (fun p => pt_color p = sidebar_color (category_key p) /\
                   (0 < stats_get (category_key p) sample_stats)%nat)
         sample_points /\
  (forall k, In k (map fst sample_stats) ->
             table_get k CATEGORY_COLORS <> None).
Proof.
  exact (marker_color_is_sidebar_color (H := sample_ops)
           (db := ascii_db) null_shift _ _ _ sample_sheet64).
Defined.

Lemma legend_shows_the_statistics_witness :
  categoryCount sample_points = sample_stats /\
  (forall k n, In (k, n) (legend sample_points) <-> In (k, n) sample_stats).
Proof.
  exact (legend_shows_the_statistics (H := sample_ops)
           (db := ascii_db) null_shift _ _ _ sample_sheet64).
Defined.

End StatisticsWitness.

(** ** No exception leaves [sheet_to_points] *)

Section SheetSafety.

Context {F : Type} `{PyFloat F} {laws : PyFloatLaws F} {db : UnicodeDB}.

Variable transform : F -> F -> F * F.

Hypothesis wgs84_to_gcj02_succeeds :
  forall lng lat : F, succeeds (wgs84_to_gcj02 lng lat).

Lemma row_step_succeeds (acc : list (Point F) * list (str * nat))
    (row : Row) :
  succeeds (row_step transform acc row).
Proof.
  unfold succeeds, row_step. destruct acc as [pts st].
  destruct (parse_coord_py_total (Some (get_val (cell_lat row)))) as [lat ->].
  destruct (parse_coord_py_total (Some (get_val (cell_lng row)))) as [lng ->].
  cbn [bind]. destruct lat as [lat|], lng as [lng|]; eauto.
  unfold cgcs2000_to_gcj02.
  destruct (transform lng lat) as [x y].
  destruct (wgs84_to_gcj02_succeeds x y) as [[gcj_lng gcj_lat] ->].
  cbn [bind]. eauto.
Qed.

Lemma rows_loop_succeeds (rows : list Row) :
  forall acc, succeeds (rows_loop transform rows acc).
Proof.
  induction rows as [|row rows IH]; intros acc; cbn [rows_loop].
  - now exists acc.
  - destruct (row_step_succeeds acc row) as [acc' ->]. cbn [bind].
    apply IH.
Qed.

End SheetSafety.

Module SheetSafety64.

Import Exact ExactFacts ExactLaws Binary64Facts.

Lemma wgs84_to_gcj02_succeeds_exact (lng lat : R) :
  succeeds (wgs84_to_gcj02 lng lat).
Proof.
  destruct (in_china lng lat) eqn:E.
  - apply in_china_iff in E. eexists. apply wgs84_to_gcj02_inside, E.
  - eexists. apply wgs84_to_gcj02_outside. intros Hin.
    apply in_china_iff in Hin. congruence.
Qed.

Lemma wgs84_to_gcj02_succeeds64 (libm_sin libm_cos : float -> float) :
  libm_range libm_sin libm_cos ->
  forall lng lat : float,
  succeeds (wgs84_to_gcj02 (H := Binary64.float_ops libm_sin libm_cos)
              lng lat).
Proof.
  intros libm lng lat. unfold wgs84_to_gcj02, _out_of_china.
  destruct (in_china lng lat) eqn:E; cbn [negb].
  - now apply MagnitudeFacts.distort_succeeds64.
  - eexists. reflexivity.
Qed.

(** X1.  [sheet_to_points] returns for every sheet: whatever the cells
    hold and whatever pair the reprojection returns, no row makes
    [parse_coord_py] or the conversion raise.  In binary64 this holds for
    every C library within [libm_range], whose [sin] and [cos] are asked
    for nothing but to stay within [-1, 1] and to have no zero of [cos]
    strictly between 0 and 1; in exact arithmetic it holds as it stands. *)
Theorem sheet_to_points_never_raises :
  (forall (libm_sin libm_cos : float -> float),
     libm_range libm_sin libm_cos ->
     forall (db : UnicodeDB) (transform : float -> float -> float * float)
            (rows : list Row),
       succeeds (sheet_to_points
                   (H := Binary64.float_ops libm_sin libm_cos)
                   transform rows)) /\
  (forall (db : UnicodeDB) (transform : R -> R -> R * R)
          (rows : list Row),
     succeeds (sheet_to_points transform rows)).
Proof.
  split.
  - intros libm_sin libm_cos libm db transform rows.
    apply (rows_loop_succeeds (laws := binary64_laws libm_sin libm_cos)).
    now apply wgs84_to_gcj02_succeeds64.
  - intros db transform rows. apply rows_loop_succeeds.
    apply wgs84_to_gcj02_succeeds_exact.
Qed.

Lemma sheet_to_points_never_raises_witness :
  libm_range Replay.sin_stub Replay.cos_stub /\
  succeeds (sheet_to_points (H := sample_ops) (db := ascii_db)
              null_shift sample_rows) /\
  succeeds (sheet_to_points (F := R) (db := ascii_db)
              null_shift sample_rows).
Proof.
  pose proof sheet_to_points_never_raises as [H64 HR].
  split; [exact Safety.stub_range|].
  split; [exact (H64 _ _ Safety.stub_range _ _ _)|exact (HR _ _ _)].
Defined.

End SheetSafety64.

(** ** The patterns of [parse_coord_py] on texts of a known shape *)

Section PatternFacts.

Context {db : UnicodeDB}.

(** *** What a successful match has consumed *)

Lemma star_run_sound (X : Type) (c : cclass) (s : str)
    (k : str -> option X) (v : X) :
  star_run X c s k = Some v ->
  exists p t,
    s = p ++ t /\ Forall (fun x => in_class c x = true) p /\ k t = Some v.
Proof.
  induction s as [|x s IH]; cbn [star_run]; intros Hv.
  - exists [], []. auto.
  - destruct (in_class c x) eqn:Ex.
    + destruct (star_run X c s k) as [w|] eqn:E.
      * injection Hv as ->.
        destruct (IH eq_refl) as (p & t & -> & Hp & Hk).
        exists (x :: p), t. auto.
      * exists [], (x :: s). auto.
    + exists [], (x :: s). auto.
Qed.

Lemma run_sound (X : Type) (r : regex) :
  forall (s : str) (caps : list str) (k : str -> list str -> option X)
         (v : X),
  run X r s caps k = Some v ->
  exists p t caps', s = p ++ t /\ lang r p /\ k t caps' = Some v.
Proof.
  induction r as [c|c|r IH|r1 IH1 r2 IH2|r IH]; intros s caps k v Hv;
    cbn [run lang] in *.
  - destruct s as [|x s]; [discriminate|].
    destruct (in_class c x) eqn:Ex; [|discriminate].
    exists [x], s, caps. eauto.
  - destruct s as [|x s]; [discriminate|]. cbn [plus_run] in Hv.
    destruct (in_class c x) eqn:Ex; [|discriminate].
    apply star_run_sound in Hv as (p & t & -> & Hp & Hk).
    exists (x :: p), t, caps. repeat split; auto. discriminate.
  - destruct (run X r s caps k) as [w|] eqn:E.
    + injection Hv as ->.
      apply IH in E as (p & t & caps' & -> & Hp & Hk).
      exists p, t, caps'. auto.
    + exists [], s, caps. auto.
  - apply IH1 in Hv as (p1 & t1 & caps1 & -> & Hp1 & Hv).
    apply IH2 in Hv as (p2 & t2 & caps2 & -> & Hp2 & Hv).
    exists (p1 ++ p2), t2, caps2. rewrite <- app_assoc. eauto 8.
  - apply IH in Hv as (p & t & caps' & -> & Hp & Hv). eauto 8.
Qed.

Lemma fullmatch_sound (r : regex) (s : str) (m : list str) :
  fullmatch r s = Some m -> lang r s.
Proof.
  unfold fullmatch. intros Hm.
  apply run_sound in Hm as (p & t & caps' & -> & Hp & Hk).
  destruct t; [|discriminate]. now rewrite app_nil_r.
Qed.

Lemma search_sound (r : regex) (s : str) (m : list str) :
  search r s = Some m ->
  exists pre p post, s = pre ++ p ++ post /\ lang r p.
Proof.
  induction s as [|x s IH]; cbn [search]; intros Hm.
  - destruct (run (list str) r [] [] (fun _ caps => Some caps)) eqn:E;
      [|discriminate].
    apply run_sound in E as (p & t & caps' & E & Hp & _).
    exists [], p, t. auto.
  - destruct (run (list str) r (x :: s) [] (fun _ caps => Some caps)) eqn:E.
    + apply run_sound in E as (p & t & caps' & E & Hp & _).
      exists [], p, t. auto.
    + apply IH in Hm as (pre & p & post & -> & Hp).
      exists (x :: pre), p, post. auto.
Qed.

(** *** What the first attempt of the matcher consumes *)

Lemma firstn_consumed (p t : str) :
  firstn (length (p ++ t) - length t) (p ++ t) = p.
Proof.
  rewrite length_app.
  replace (length p + length t - length t)%nat with (length p + 0)%nat
    by lia.
  rewrite firstn_app_2. cbn. apply app_nil_r.
Qed.

Lemma star_run_greedy (X : Type) (c : cclass) (p t : str)
    (k : str -> option X) (v : X) :
  Forall (fun x => in_class c x = true) p -> not_ahead c t ->
  k t = Some v -> star_run X c (p ++ t) k = Some v.
Proof.
  intros Hp Ht Hk. induction Hp as [|x p Hx Hp IH]; cbn [app star_run].
  - destruct t as [|y t]; [exact Hk|]. cbn in Ht |- *. now rewrite Ht.
  - now rewrite Hx, IH.
Qed.

Lemma accepts_one (c : cclass) (x : char) (t : str) :
  in_class c x = true -> accepts (One c) [x] t [].
Proof.
  intros Hx X caps k v Hk. cbn. rewrite Hx.
  now rewrite app_nil_r in Hk.
Qed.

Lemma accepts_plus (c : cclass) (p t : str) :
  p <> [] -> Forall (fun x => in_class c x = true) p -> not_ahead c t ->
  accepts (Plus c) p t [].
Proof.
  intros Hne Hp Ht X caps k v Hk. rewrite app_nil_r in Hk.
  destruct Hp as [|x p Hx Hp]; [congruence|].
  cbn [run app plus_run]. rewrite Hx.
  now apply star_run_greedy.
Qed.

Lemma accepts_cat (r1 r2 : regex) (p1 p2 t : str) (g1 g2 : list str) :
  accepts r1 p1 (p2 ++ t) g1 -> accepts r2 p2 t g2 ->
  accepts (Cat r1 r2) (p1 ++ p2) t (g1 ++ g2).
Proof.
  intros H1 H2 X caps k v Hk. cbn [run]. rewrite <- app_assoc.
  apply H1. apply H2. now rewrite <- app_assoc.
Qed.

Lemma accepts_group (r : regex) (p t : str) (gs : list str) :
  accepts r p t gs -> accepts (Group r) p t (gs ++ [p]).
Proof.
  intros H1 X caps k v Hk. cbn [run]. apply H1.
  now rewrite firstn_consumed, <- app_assoc.
Qed.

Lemma accepts_opt_take (r : regex) (p t : str) (gs : list str) :
  accepts r p t gs -> accepts (Opt r) p t gs.
Proof.
  intros H1 X caps k v Hk. cbn [run]. now rewrite (H1 X caps k v Hk).
Qed.

Lemma accepts_opt_skip (r : regex) (t : str) :
  (forall X caps k, run X r t caps k = None) -> accepts (Opt r) [] t [].
Proof.
  intros H1 X caps k v Hk. cbn [run app]. rewrite H1.
  now rewrite app_nil_r in Hk.
Qed.

Lemma accepts_fullmatch (r : regex) (s : str) (gs : list str) :
  accepts r s [] gs -> fullmatch r s = Some gs.
Proof.
  intros H1. unfold fullmatch.
  rewrite <- (app_nil_r s) at 1. now apply H1.
Qed.

Lemma accepts_search (r : regex) (p t : str) (gs : list str) :
  accepts r p t gs -> search r (p ++ t) = Some gs.
Proof.
  intros H1.
  assert (E : run (list str) r (p ++ t) [] (fun _ caps => Some caps)
              = Some gs) by now apply H1.
  destruct (p ++ t); cbn [search]; now rewrite E.
Qed.

Lemma search_skip (r : regex) (j t : str) :
  (forall j1 x j2, j = j1 ++ x :: j2 ->
     run (list str) r (x :: j2 ++ t) [] (fun _ caps => Some caps) = None) ->
  search r (j ++ t) = search r t.
Proof.
  induction j as [|x j IH]; intros Hj; [reflexivity|].
  cbn [app search]. rewrite (Hj [] x j eq_refl).
  apply IH. intros j1 y j2 E. apply (Hj (x :: j1) y j2). now rewrite E.
Qed.

(** *** Where the groups come from *)




(** *** The parts of the three patterns *)

Context {ulaws : UnicodeLaws db}.

Lemma digits_in_class (p : str) :
  all_digits p -> Forall (fun x => in_class CDigit x = true) p.
Proof. intros Hp. exact Hp. Qed.

Lemma digit_free_in_class (p : str) :
  digit_free p -> Forall (fun x => in_class CNonDigit x = true) p.
Proof.
  intros Hp. eapply Forall_impl; [|exact Hp].
  intros x Hx. cbn. now rewrite Hx.
Qed.

Lemma digits_not_ahead (ds t : str) :
  digits ds -> not_ahead CNonDigit (ds ++ t).
Proof.
  intros [Hne Hd]. destruct Hd as [|x ds Hx Hd]; [congruence|].
  cbn. now rewrite Hx.
Qed.

Lemma separator_not_ahead (sep t : str) :
  separator sep -> not_ahead CDigit (sep ++ t).
Proof.
  intros [Hne Hd]. destruct Hd as [|x sep Hx Hd]; [congruence|].
  exact Hx.
Qed.

Lemma isdigit_minus : isdigit minus = false.
Proof. unfold isdigit. now rewrite minus_not_digit. Qed.

Lemma isdigit_dot : isdigit dot = false.
Proof. unfold isdigit. now rewrite dot_not_digit. Qed.

Lemma digit_not_minus (x : char) : isdigit x = true -> N.eqb x minus = false.
Proof.
  intros Hx. apply N.eqb_neq. intros ->.
  rewrite isdigit_minus in Hx. discriminate.
Qed.

Lemma digit_not_dot (x : char) : isdigit x = true -> N.eqb x dot = false.
Proof.
  intros Hx. apply N.eqb_neq. intros ->.
  rewrite isdigit_dot in Hx. discriminate.
Qed.

Lemma accepts_re_int (sg ds t : str) :
  is_sign sg -> digits ds -> no_digit_ahead t ->
  accepts re_int (sg ++ ds) t [].
Proof.
  intros Hsg Hds Ht. unfold re_int.
  change (@nil str) with (@nil str ++ @nil str).
  apply accepts_cat.
  - destruct Hsg as [->| ->].
    + apply accepts_opt_skip. intros X caps k.
      destruct Hds as [Hne Hd]. destruct Hd as [|x ds Hx Hd]; [congruence|].
      cbn. now rewrite digit_not_minus.
    + apply accepts_opt_take, accepts_one. reflexivity.
  - destruct Hds as [Hne Hd]. apply accepts_plus; assumption.
Qed.

Lemma accepts_fraction (fp t : str) :
  digits fp -> no_digit_ahead t ->
  accepts (Cat (One (CLit dot)) (Plus CDigit)) (dot :: fp) t [].
Proof.
  intros [Hne Hd] Ht.
  change (@nil str) with (@nil str ++ @nil str).
  change (dot :: fp) with ([dot] ++ fp).
  apply accepts_cat.
  - apply accepts_one. reflexivity.
  - apply accepts_plus; assumption.
Qed.

Lemma fraction_none (X : Type) (t : str) (caps : list str)
    (k : str -> list str -> option X) :
  (forall c t', t = dot :: c :: t' -> isdigit c = false) ->
  run X (Cat (One (CLit dot)) (Plus CDigit)) t caps k = None.
Proof.
  intros Ht. destruct t as [|x [|c t']]; cbn; [reflexivity| |].
  - destruct (N.eqb x dot); reflexivity.
  - destruct (N.eqb x dot) eqn:E; [|reflexivity].
    apply N.eqb_eq in E. subst x. now rewrite (Ht c t' eq_refl).
Qed.

Lemma accepts_re_num (n rest : str) :
  number n -> stops n rest -> accepts re_num n rest [].
Proof.
  intros Hn [Hr Hs]. unfold re_num.
  change (@nil str) with (@nil str ++ @nil str).
  destruct Hn as [[Hne Hd]|(ip & fp & -> & [Hne Hd] & Hfp)].
  - rewrite <- (app_nil_r n). apply accepts_cat.
    + apply accepts_plus; assumption.
    + apply accepts_opt_skip. intros X caps k.
      apply fraction_none. now apply Hs.
  - apply accepts_cat.
    + apply accepts_plus; try assumption. cbn. apply isdigit_dot.
    + now apply accepts_opt_take, accepts_fraction.
Qed.

Lemma stops_no_digit_ahead (n rest : str) :
  stops n rest -> no_digit_ahead rest.
Proof. now intros [Hr _]. Qed.

Lemma number_not_ahead (n t : str) :
  number n -> not_ahead CNonDigit (n ++ t).
Proof.
  intros [Hd|(ip & fp & -> & Hd & _)].
  - now apply digits_not_ahead.
  - rewrite <- app_assoc. now apply digits_not_ahead.
Qed.

Lemma accepts_dms_re (sg ds sep1 m sep2 n rest : str) :
  is_sign sg -> digits ds -> separator sep1 -> digits m ->
  separator sep2 -> number n -> stops n rest ->
  accepts dms_re ((sg ++ ds) ++ sep1 ++ m ++ sep2 ++ n) rest
    [sg ++ ds; m; n].
Proof.
  intros Hsg Hds H1 Hm H2 Hn Hr. unfold dms_re.
  change [sg ++ ds; m; n]
    with (([] ++ [sg ++ ds]) ++ [] ++ ([] ++ [m]) ++ [] ++ ([] ++ [n])).
  apply accepts_cat.
  { apply accepts_group, accepts_re_int; try assumption.
    rewrite <- !app_assoc. now apply separator_not_ahead. }
  apply accepts_cat.
  { destruct H1 as [Hne Hd]. apply accepts_plus; try assumption.
    - now apply digit_free_in_class.
    - rewrite <- !app_assoc. now apply digits_not_ahead. }
  apply accepts_cat.
  { apply accepts_group. destruct Hm as [Hne Hd].
    apply accepts_plus; try assumption.
    rewrite <- !app_assoc. now apply separator_not_ahead. }
  apply accepts_cat.
  { destruct H2 as [Hne Hd]. apply accepts_plus; try assumption.
    - now apply digit_free_in_class.
    - now apply number_not_ahead. }
  now apply accepts_group, accepts_re_num.
Qed.

Lemma accepts_dms_re2 (sg ds sep n rest : str) :
  is_sign sg -> digits ds -> separator sep -> number n -> stops n rest ->
  accepts dms_re2 ((sg ++ ds) ++ sep ++ n) rest [sg ++ ds; n].
Proof.
  intros Hsg Hds H1 Hn Hr. unfold dms_re2.
  change [sg ++ ds; n] with (([] ++ [sg ++ ds]) ++ [] ++ ([] ++ [n])).
  apply accepts_cat.
  { apply accepts_group, accepts_re_int; try assumption.
    rewrite <- !app_assoc. now apply separator_not_ahead. }
  apply accepts_cat.
  { destruct H1 as [Hne Hd]. apply accepts_plus; try assumption.
    - now apply digit_free_in_class.
    - now apply number_not_ahead. }
  now apply accepts_group, accepts_re_num.
Qed.

Lemma fullmatch_decimal_text (s : str) :
  decimal_text s -> fullmatch re_decimal s <> None.
Proof.
  intros (sg & n & -> & Hsg & Hn).
  destruct Hn as [Hd|(ip & fp & -> & Hd & Hfp)].
  - rewrite (accepts_fullmatch re_decimal (sg ++ n) ([] ++ []));
      [discriminate|].
    unfold re_decimal. rewrite <- (app_nil_r (sg ++ n)).
    apply accepts_cat.
    + now apply accepts_re_int.
    + apply accepts_opt_skip. reflexivity.
  - rewrite (accepts_fullmatch re_decimal (sg ++ ip ++ dot :: fp)
               ([] ++ [] ++ [dot :: fp])); [discriminate|].
    unfold re_decimal. rewrite app_assoc.
    apply accepts_cat.
    + apply accepts_re_int; try assumption. cbn. apply isdigit_dot.
    + apply accepts_opt_take, accepts_group.
      now apply accepts_fraction.
Qed.

(** The first number of a reading cannot begin inside what stands before
    it. *)
Lemma re_int_none (X : Type) (x : char) (s : str) (caps : list str)
    (k : str -> list str -> option X) :
  isdigit x = false -> (x = minus -> no_digit_ahead s) ->
  run X re_int (x :: s) caps k = None.
Proof.
  intros Hx Hs. unfold re_int. cbn [run]. cbn [in_class].
  assert (Hp : forall k', plus_run X CDigit (x :: s) k' = None)
    by (intros k'; cbn; now rewrite Hx).
  destruct (N.eqb x minus) eqn:E; [|apply Hp].
  apply N.eqb_eq in E. specialize (Hs E).
  replace (plus_run X CDigit s (fun s' => k s' caps)) with (@None X);
    [apply Hp|].
  destruct s as [|y s]; cbn; [reflexivity|].
  cbn in Hs. now rewrite Hs.
Qed.

Lemma junk_skipped (r : regex) (j sg ds t : str) :
  junk j sg -> is_sign sg -> digits ds ->
  search (Cat (Group re_int) r) (j ++ (sg ++ ds) ++ t)
  = search (Cat (Group re_int) r) ((sg ++ ds) ++ t).
Proof.
  intros [Hj Hm] Hsg Hds. apply search_skip.
  intros j1 x j2 E. cbn [run]. apply re_int_none.
  - subst j. apply Forall_app in Hj as [_ Hj]. now inversion Hj.
  - intros ->. destruct j2 as [|y j2].
    + destruct Hsg as [->| ->].
      * exfalso. now apply (Hm eq_refl j1).
      * cbn. apply isdigit_minus.
    + subst j. apply Forall_app in Hj as [_ Hj].
      inversion Hj as [|? ? _ Hj2]; subst. now inversion Hj2.
Qed.

(** *** Counting runs of digits *)

Lemma runs_digit_free (prev : bool) (a : str) :
  digit_free a -> digit_runs_from prev a = 0%nat.
Proof.
  intros Ha. revert prev.
  induction Ha as [|x a Hx Ha IH]; intros prev; cbn [digit_runs_from];
    [reflexivity|].
  rewrite Hx, IH. reflexivity.
Qed.

Lemma runs_after_digit_free (a t : str) :
  digit_free a -> digit_runs_from false (a ++ t) = digit_runs_from false t.
Proof.
  intros Ha. induction Ha as [|x a Hx Ha IH]; cbn [app digit_runs_from];
    [reflexivity|].
  rewrite Hx, IH. reflexivity.
Qed.

Lemma runs_after_separator (prev : bool) (sep t : str) :
  separator sep ->
  digit_runs_from prev (sep ++ t) = digit_runs_from false t.
Proof.
  intros [Hne Hd]. destruct Hd as [|x sep Hx Hd]; [congruence|].
  cbn [app digit_runs_from]. rewrite Hx. cbn.
  now apply runs_after_digit_free.
Qed.

Lemma runs_inside_digits (ds t : str) :
  all_digits ds -> digit_runs_from true (ds ++ t) = digit_runs_from true t.
Proof.
  intros Hd. induction Hd as [|x ds Hx Hd IH]; cbn [app digit_runs_from];
    [reflexivity|].
  rewrite Hx, IH. reflexivity.
Qed.

Lemma runs_after_digits (ds t : str) :
  digits ds ->
  digit_runs_from false (ds ++ t) = S (digit_runs_from true t).
Proof.
  intros [Hne Hd]. destruct Hd as [|x ds Hx Hd]; [congruence|].
  cbn [app digit_runs_from]. rewrite Hx. cbn.
  now rewrite runs_inside_digits.
Qed.

Lemma runs_from_true (p : str) :
  (digit_runs_from false p <= S (digit_runs_from true p))%nat.
Proof. destruct p as [|x p]; cbn; [lia|]. destruct (isdigit x); cbn; lia. Qed.

Lemma runs_prefix_le (pre p : str) :
  forall prev,
  (digit_runs_from false p
   <= digit_runs_from prev (pre ++ p) + (if prev then 1 else 0))%nat.
Proof.
  induction pre as [|x pre IH]; intros prev; cbn [app].
  - pose proof (runs_from_true p). destruct prev; lia.
  - cbn [digit_runs_from]. specialize (IH (isdigit x)).
    destruct (isdigit x), prev; cbn in *; lia.
Qed.

Lemma runs_suffix_le (p post : str) :
  forall prev,
  (digit_runs_from prev p <= digit_runs_from prev (p ++ post))%nat.
Proof.
  induction p as [|x p IH]; intros prev; cbn [app digit_runs_from]; [lia|].
  specialize (IH (isdigit x)). lia.
Qed.

Lemma runs_infix_le (pre p post : str) :
  (digit_runs p <= digit_runs (pre ++ p ++ post))%nat.
Proof.
  unfold digit_runs.
  pose proof (runs_prefix_le pre (p ++ post) false) as H1.
  pose proof (runs_suffix_le p post false) as H2.
  cbv beta iota in H1. lia.
Qed.

Lemma is_sign_digit_free (sg : str) : is_sign sg -> digit_free sg.
Proof.
  intros [->| ->]; [constructor|].
  constructor; [apply isdigit_minus|constructor].
Qed.

Lemma dot_separator : separator [dot].
Proof.
  split; [discriminate|]. constructor; [apply isdigit_dot|constructor].
Qed.

Lemma runs_decimal_text (s : str) :
  decimal_text s -> (digit_runs s <= 2)%nat.
Proof.
  intros (sg & n & -> & Hsg & Hn). unfold digit_runs.
  rewrite runs_after_digit_free by now apply is_sign_digit_free.
  destruct Hn as [Hd|(ip & fp & -> & Hd & Hfp)].
  - rewrite <- (app_nil_r n), runs_after_digits by assumption. cbn. lia.
  - rewrite runs_after_digits by assumption.
    change (dot :: fp) with ([dot] ++ fp).
    rewrite runs_after_separator by apply dot_separator.
    rewrite <- (app_nil_r fp), runs_after_digits by assumption. cbn. lia.
Qed.

(** *** The shapes of the matched texts *)

Lemma lang_digits (p : str) : lang (Plus CDigit) p -> digits p.
Proof. intros [Hne Hp]. split; assumption. Qed.

Lemma lang_separator (p : str) : lang (Plus CNonDigit) p -> separator p.
Proof.
  intros [Hne Hp]. split; [assumption|].
  eapply Forall_impl; [|exact Hp]. cbn. intros x Hx.
  now destruct (isdigit x).
Qed.

Lemma lang_re_int (p : str) :
  lang re_int p -> exists sg ds, p = sg ++ ds /\ is_sign sg /\ digits ds.
Proof.
  intros (a & b & -> & Ha & Hb). exists a, b.
  split; [reflexivity|]. split; [|now apply lang_digits].
  destruct Ha as [->|(x & -> & Hx)]; [now left|right].
  cbn in Hx. apply N.eqb_eq in Hx. now subst x.
Qed.

Lemma lang_fraction (p : str) :
  lang (Cat (One (CLit dot)) (Plus CDigit)) p ->
  exists fp, p = dot :: fp /\ digits fp.
Proof.
  intros (a & b & -> & (x & -> & Hx) & Hb).
  cbn in Hx. apply N.eqb_eq in Hx. subst x.
  exists b. split; [reflexivity|now apply lang_digits].
Qed.

Lemma lang_re_num (p : str) : lang re_num p -> number p.
Proof.
  intros (a & b & -> & Ha & Hb). apply lang_digits in Ha.
  destruct Hb as [->|Hb].
  - left. now rewrite app_nil_r.
  - apply lang_fraction in Hb as (fp & -> & Hfp). right. eauto.
Qed.

Lemma lang_re_decimal (p : str) : lang re_decimal p -> decimal_text p.
Proof.
  intros (a & b & -> & Ha & Hb).
  apply lang_re_int in Ha as (sg & ds & -> & Hsg & Hds).
  exists sg, (ds ++ b). rewrite app_assoc.
  split; [reflexivity|]. split; [assumption|].
  destruct Hb as [->|Hb].
  - left. now rewrite app_nil_r.
  - apply lang_fraction in Hb as (fp & -> & Hfp). right. eauto.
Qed.

Lemma runs_number (n t : str) :
  number n -> (1 <= digit_runs_from false (n ++ t))%nat.
Proof.
  intros [Hd|(ip & fp & -> & Hd & _)].
  - rewrite runs_after_digits by assumption. lia.
  - rewrite <- app_assoc, runs_after_digits by assumption. lia.
Qed.

Lemma runs_lang_dms_re (p : str) :
  lang dms_re p -> (3 <= digit_runs p)%nat.
Proof.
  intros (p1 & q1 & -> & H1 & p2 & q2 & -> & H2 & p3 & q3 & -> & H3
          & p4 & p5 & -> & H4 & H5).
  cbn [lang] in H1, H3, H5.
  apply lang_re_int in H1 as (sg & ds & -> & Hsg & Hds).
  apply lang_separator in H2, H4. apply lang_digits in H3.
  apply lang_re_num in H5. unfold digit_runs.
  rewrite <- (app_assoc sg).
  rewrite runs_after_digit_free by now apply is_sign_digit_free.
  rewrite runs_after_digits by assumption.
  rewrite runs_after_separator by assumption.
  rewrite runs_after_digits by assumption.
  rewrite runs_after_separator by assumption.
  pose proof (runs_number p5 [] H5) as Hn. rewrite app_nil_r in Hn. lia.
Qed.

Lemma search_dms_re_none (s : str) :
  (digit_runs s < 3)%nat -> search dms_re s = None.
Proof.
  intros Hs. destruct (search dms_re s) as [m|] eqn:E; [|reflexivity].
  apply search_sound in E as (pre & p & post & -> & Hp).
  apply runs_lang_dms_re in Hp.
  pose proof (runs_infix_le pre p post). lia.
Qed.

Lemma decimal_text_iff (s : str) :
  decimal_text s <-> fullmatch re_decimal s <> None.
Proof.
  split; [apply fullmatch_decimal_text|].
  destruct (fullmatch re_decimal s) as [m|] eqn:E; [|congruence].
  intros _. eapply lang_re_decimal, fullmatch_sound, E.
Qed.

End PatternFacts.

#[export] Instance ascii_laws : UnicodeLaws ascii_db.
Proof. split; reflexivity. Qed.

Section ParserShapes.

Context {F : Type} `{PyFloat F} {laws : PyFloatLaws F}.
Context {db : UnicodeDB} {ulaws : UnicodeLaws db}.

Lemma decimal_text_not_empty (s : str) : decimal_text s -> s <> [].
Proof.
  intros (sg & n & -> & _ & Hn) E. apply app_eq_nil in E as [_ ->].
  destruct Hn as [[Hne _]|(ip & fp & E & _)]; [congruence|].
  now destruct ip.
Qed.

Lemma runs_dms_text (j sg ds sep1 m sep2 n rest : str) :
  digit_free j -> is_sign sg -> digits ds -> separator sep1 ->
  digits m -> separator sep2 -> number n ->
  (3 <= digit_runs (j ++ (sg ++ ds) ++ sep1 ++ m ++ sep2 ++ n ++ rest))%nat.
Proof.
  intros Hj Hsg Hds H1 Hm H2 Hn. unfold digit_runs.
  rewrite runs_after_digit_free by assumption.
  rewrite <- (app_assoc sg).
  rewrite runs_after_digit_free by now apply is_sign_digit_free.
  rewrite runs_after_digits by assumption.
  rewrite runs_after_separator by assumption.
  rewrite runs_after_digits by assumption.
  rewrite runs_after_separator by assumption.
  pose proof (runs_number n rest Hn). lia.
Qed.

Lemma runs_dm_text (j sg ds sep m rest : str) :
  digit_free j -> is_sign sg -> digits ds -> separator sep ->
  digits m -> digit_free rest ->
  digit_runs (j ++ (sg ++ ds) ++ sep ++ m ++ rest) = 2%nat.
Proof.
  intros Hj Hsg Hds H1 Hm Hr. unfold digit_runs.
  rewrite runs_after_digit_free by assumption.
  rewrite <- (app_assoc sg).
  rewrite runs_after_digit_free by now apply is_sign_digit_free.
  rewrite runs_after_digits by assumption.
  rewrite runs_after_separator by assumption.
  rewrite runs_after_digits by assumption.
  now rewrite runs_digit_free.
Qed.

(** X2.  A text that is, once stripped, an optional [-], digits and
    optionally a [.] with digits after it is read whole by [float]; and
    these are the only texts the pattern of the [re.fullmatch] call
    matches. *)
Theorem plain_decimal_is_read_whole (text : str) :
  (decimal_text (strip text) <-> fullmatch re_decimal (strip text) <> None)
  /\
  (decimal_text (strip text) ->
   parse_coord_py (Some text) = Ok (Some (float_of_str (strip text)))).
Proof.
  split; [apply decimal_text_iff|]. intros Hd.
  pose proof (decimal_text_not_empty _ Hd) as Hne.
  apply decimal_text_iff in Hd. unfold parse_coord_py.
  destruct (strip text) as [|c s]; [congruence|]. cbn [is_empty].
  destruct (fullmatch re_decimal (c :: s)); [reflexivity|congruence].
Qed.

(** X3.  Degrees, minutes and seconds.  When the stripped text is: some
    characters that are not digits, then an optional [-] and digits (the
    degrees), a separator, digits (the minutes), a separator, and digits
    with an optional fraction (the seconds), followed by anything that
    does not continue the seconds, [parse_coord_py] returns
    [sign * (abs d + mm / 60.0 + ss / 3600.0)] for the floats [d], [mm],
    [ss] of the three parts.  A separator is any run of characters that
    are not digits; the [.] is one, so that [D°M.F′] is read as [D]
    degrees, [M] minutes and [F] seconds. *)
Theorem dms_text_is_read_as_three_parts
    (text j sg ds sep1 m sep2 n rest : str) :
  strip text = j ++ (sg ++ ds) ++ sep1 ++ m ++ sep2 ++ n ++ rest ->
  junk j sg -> is_sign sg -> digits ds -> separator sep1 -> digits m ->
  separator sep2 -> number n -> stops n rest ->
  parse_coord_py (Some text)
  = Ok (Some (signed (float_of_str (sg ++ ds))
                (fabs (float_of_str (sg ++ ds))
                 + fdiv (float_of_str m) (dec 60.0)
                 + fdiv (float_of_str n) (dec 3600.0))%pf)).
Proof.
  intros Es Hj Hsg Hds H1 Hm H2 Hn Hr.
  assert (Hruns : (3 <= digit_runs (strip text))%nat)
    by (rewrite Es; apply runs_dms_text; try assumption; apply Hj).
  assert (Hfull : fullmatch re_decimal (strip text) = None).
  { destruct (fullmatch re_decimal (strip text)) eqn:E; [|reflexivity].
    assert (Hd : decimal_text (strip text))
      by (apply decimal_text_iff; congruence).
    apply runs_decimal_text in Hd. lia. }
  assert (Hsearch : search dms_re (strip text) = Some [sg ++ ds; m; n]).
  { rewrite Es. unfold dms_re. rewrite junk_skipped by assumption.
    replace ((sg ++ ds) ++ sep1 ++ m ++ sep2 ++ n ++ rest)
      with (((sg ++ ds) ++ sep1 ++ m ++ sep2 ++ n) ++ rest)
      by now rewrite <- !app_assoc.
    apply accepts_search. now apply accepts_dms_re. }
  unfold parse_coord_py. rewrite Hfull, Hsearch.
  destruct (strip text) as [|c s] eqn:E.
  - exfalso. destruct Hds as [Hne _].
    symmetry in Es. apply app_eq_nil in Es as [_ Es].
    apply app_eq_nil in Es as [Es _]. apply app_eq_nil in Es as [_ Es].
    congruence.
  - cbn [is_empty map]. rewrite !truediv_literal by (cbn; tauto).
    reflexivity.
Qed.

Lemma parse_dm_text (text j sg ds sep m rest : str) :
  strip text = j ++ (sg ++ ds) ++ sep ++ m ++ rest ->
  junk j sg -> is_sign sg -> digits ds -> separator sep -> digits m ->
  digit_free rest -> ~ decimal_text (strip text) ->
  parse_coord_py (Some text)
  = Ok (Some (signed (float_of_str (sg ++ ds))
                (fabs (float_of_str (sg ++ ds))
                 + fdiv (float_of_str m) (dec 60.0))%pf)).
Proof.
  intros Es Hj Hsg Hds H1 Hm Hr Hnd.
  assert (Hfull : fullmatch re_decimal (strip text) = None).
  { destruct (fullmatch re_decimal (strip text)) eqn:E; [|reflexivity].
    exfalso. apply Hnd, decimal_text_iff. congruence. }
  assert (Hdms : search dms_re (strip text) = None).
  { apply search_dms_re_none. rewrite Es.
    rewrite runs_dm_text; try assumption; [lia|apply Hj]. }
  assert (Hsearch : search dms_re2 (strip text) = Some [sg ++ ds; m]).
  { rewrite Es. unfold dms_re2. rewrite junk_skipped by assumption.
    replace ((sg ++ ds) ++ sep ++ m ++ rest)
      with (((sg ++ ds) ++ sep ++ m) ++ rest)
      by now rewrite <- !app_assoc.
    apply accepts_search. apply accepts_dms_re2; try assumption.
    - now left.
    - split.
      + destruct Hr as [|x rest Hx Hr]; [exact I|exact Hx].
      + intros _ c rest' ->. inversion Hr as [|? ? _ Hr']; subst.
        now inversion Hr'. }
  unfold parse_coord_py. rewrite Hfull, Hdms, Hsearch.
  destruct (strip text) as [|c s] eqn:E.
  - exfalso. destruct Hds as [Hne _].
    symmetry in Es. apply app_eq_nil in Es as [_ Es].
    apply app_eq_nil in Es as [Es _]. apply app_eq_nil in Es as [_ Es].
    congruence.
  - cbn [is_empty map]. rewrite !truediv_literal by (cbn; tauto).
    reflexivity.
Qed.

(** X4.  Degrees and minutes.  When the stripped text is not a plain
    decimal and is: some characters that are not digits, then an optional
    [-] and digits (the degrees), a separator, digits (the minutes), and
    after them no digit at all, [parse_coord_py] returns
    [sign * (abs d + mm / 60.0)].  The [.] is a separator here too:
    [30.5N] is read as 30 degrees and 5 minutes. *)
Theorem dm_text_is_read_as_two_parts (text j sg ds sep m rest : str) :
  strip text = j ++ (sg ++ ds) ++ sep ++ m ++ rest ->
  junk j sg -> is_sign sg -> digits ds -> separator sep -> digits m ->
  digit_free rest -> ~ decimal_text (strip text) ->
  parse_coord_py (Some text)
  = Ok (Some (signed (float_of_str (sg ++ ds))
                (fabs (float_of_str (sg ++ ds))
                 + fdiv (float_of_str m) (dec 60.0))%pf)).
Proof. apply parse_dm_text. Qed.

End ParserShapes.

(** ** The sign of what [parse_coord_py] returns *)

Section MinusZero.

Context {F : Type} `{PyFloat F} {laws : PyFloatLaws F}.
Context {db : UnicodeDB} {ulaws : UnicodeLaws db}.

Lemma split_dot_digits (ds : str) : all_digits ds -> split_dot ds = (ds, []).
Proof.
  intros Hd. induction Hd as [|x ds Hx Hd IH]; cbn [split_dot];
    [reflexivity|].
  now rewrite digit_not_dot, IH.
Qed.

Lemma float_of_zeros (ds : str) :
  all_digits ds -> digits_value ds = 0%N ->
  float_of_str (minus :: ds) = fneg (dec 0).
Proof.
  intros Hd Hv. unfold float_of_str.
  change (N.eqb minus minus) with true. cbv iota.
  unfold decimal_Q. rewrite split_dot_digits by assumption.
  rewrite Hv. reflexivity.
Qed.

(** X6.  A [-] before zero degrees is lost.  When the degrees of a
    degrees-and-minutes text are written [-0] (any number of zeros), and
    the float [-0.0] is not below zero, as it is not in binary64 and in
    exact arithmetic, [parse_coord_py] takes the sign to be [+1]: it
    returns [1 * (abs (-0.0) + mm / 60.0)], which is not negative. *)
Theorem minus_before_zero_degrees_is_lost (text j ds sep m rest : str) :
  fltb (fneg (dec 0)) (dec 0) = false ->
  strip text = j ++ (minus :: ds) ++ sep ++ m ++ rest ->
  digit_free j -> digits ds -> digits_value ds = 0%N ->
  separator sep -> digits m -> digit_free rest ->
  ~ decimal_text (strip text) ->
  parse_coord_py (Some text)
  = Ok (Some (dec 1 * (fabs (fneg (dec 0))
                       + fdiv (float_of_str m) (dec 60.0)))%pf).
Proof.
  intros Hz Es Hj Hds Hv H1 Hm Hr Hnd.
  rewrite (parse_dm_text text j [minus] ds sep m rest);
    try assumption.
  - cbn [app]. rewrite float_of_zeros by (assumption || apply Hds).
    unfold signed. now rewrite Hz.
  - split; [assumption|discriminate].
  - now right.
Qed.

End MinusZero.

Module ExactSign.

Import Exact ExactFacts ExactLaws.

Local Open Scope R_scope.

Section Sign.

Context {db : UnicodeDB}.






End Sign.

End ExactSign.

Module ShapeWitness.

Import Exact ExactLaws Binary64Facts.

Lemma plain_decimal_is_read_whole_witness :
  decimal_text (db := ascii_db) [45; 49; 50; 46; 53]%N /\
  parse_coord_py (H := sample_ops) (db := ascii_db)
    (Some [32; 45; 49; 50; 46; 53]%N)
  = Ok (Some (-12.5)%float).
Proof.
  destruct (plain_decimal_is_read_whole (H := sample_ops)
              (db := ascii_db)
              [32; 45; 49; 50; 46; 53]%N) as [Hiff Hp].
  assert (Hd : decimal_text (strip (db := ascii_db)
                               [32; 45; 49; 50; 46; 53]%N))
    by (apply Hiff; vm_compute; discriminate).
  split; [exact Hd|]. refine (eq_trans (Hp Hd) _). vm_compute. reflexivity.
Defined.

Lemma dms_text_is_read_as_three_parts_witness :
  parse_coord_py (H := sample_ops) (db := ascii_db)
    (Some [51; 48; 176; 49; 53; 46; 53; 8242]%N)
  = Ok (Some 0x1.e405b05b05b06p+4%float).
Proof.
  etransitivity;
    [apply (dms_text_is_read_as_three_parts (H := sample_ops)
              (laws := binary64_laws _ _) (db := ascii_db)
              [51; 48; 176; 49; 53; 46; 53; 8242]%N
              [] [] [51; 48]%N [176]%N [49; 53]%N [46]%N [53]%N [8242]%N)
    |vm_compute; reflexivity].
  - reflexivity.
  - split; [constructor|]. intros _ j' E. destruct j'; discriminate.
  - now left.
  - split; [discriminate|repeat constructor].
  - split; [discriminate|repeat constructor].
  - split; [discriminate|repeat constructor].
  - split; [discriminate|repeat constructor].
  - left. split; [discriminate|repeat constructor].
  - split; [reflexivity|]. intros _ c rest' E. discriminate.
Defined.

Lemma dm_text_is_read_as_two_parts_witness :
  parse_coord_py (H := sample_ops) (db := ascii_db)
    (Some [51; 48; 46; 53; 78]%N)
  = Ok (Some 0x1.e155555555555p+4%float).
Proof.
  etransitivity;
    [apply (dm_text_is_read_as_two_parts (H := sample_ops)
              (laws := binary64_laws _ _) (db := ascii_db)
              [51; 48; 46; 53; 78]%N
              [] [] [51; 48]%N [46]%N [53]%N [78]%N)
    |vm_compute; reflexivity].
  - reflexivity.
  - split; [constructor|]. intros _ j' E. destruct j'; discriminate.
  - now left.
  - split; [discriminate|repeat constructor].
  - split; [discriminate|repeat constructor].
  - split; [discriminate|repeat constructor].
  - repeat constructor.
  - intros Hd. apply (decimal_text_iff (db := ascii_db)) in Hd.
    apply Hd. vm_compute. reflexivity.
Defined.

Lemma minus_before_zero_degrees_is_lost_witness :
  parse_coord_py (H := sample_ops) (db := ascii_db)
    (Some [45; 48; 176; 51; 48; 8242]%N)
  = Ok (Some 0.5%float).
Proof.
  etransitivity;
    [apply (minus_before_zero_degrees_is_lost (H := sample_ops)
              (laws := binary64_laws _ _) (db := ascii_db)
              [45; 48; 176; 51; 48; 8242]%N
              [] [48]%N [176]%N [51; 48]%N [8242]%N)
    |vm_compute; reflexivity].
  - reflexivity.
  - reflexivity.
  - constructor.
  - split; [discriminate|repeat constructor].
  - reflexivity.
  - split; [discriminate|repeat constructor].
  - split; [discriminate|repeat constructor].
  - repeat constructor.
  - intros Hd. apply (decimal_text_iff (db := ascii_db)) in Hd.
    apply Hd. vm_compute. reflexivity.
Defined.


End ShapeWitness.

(** ** [detect_columns] *)

Lemma startswith_refl (k : str) : startswith k k = true.
Proof.
  induction k as [|c k IH]; cbn [startswith]; [reflexivity|].
  now rewrite N.eqb_refl, IH.
Qed.

Lemma contains_refl (k : str) : contains k k = true.
Proof. destruct k; cbn [contains]; now rewrite startswith_refl. Qed.

Lemma dict_get_set_same (k : str) (v : Z) (d : list (str * Z)) :
  dict_get k (dict_set k v d) = Some v.
Proof.
  induction d as [|[k' v'] d IH]; cbn [dict_set dict_get].
  - now rewrite str_eqb_refl.
  - destruct (str_eqb k' k) eqn:E; cbn [dict_get]; now rewrite E.
Qed.

Lemma dict_get_set_other (k k' : str) (v : Z) (d : list (str * Z)) :
  k <> k' -> dict_get k' (dict_set k v d) = dict_get k' d.
Proof.
  intros Hk. induction d as [|[k0 v0] d IH]; cbn [dict_set dict_get].
  - replace (str_eqb k k') with false; [reflexivity|].
    symmetry. now apply str_eqb_neq.
  - destruct (str_eqb k0 k) eqn:E; cbn [dict_get]; [|now rewrite IH].
    apply str_eqb_eq in E. subst k0.
    replace (str_eqb k k') with false; [reflexivity|].
    symmetry. now apply str_eqb_neq.
Qed.

Lemma dict_set_in (k k' : str) (v v' : Z) (d : list (str * Z)) :
  In (k', v') (dict_set k v d) -> (k' = k /\ v' = v) \/ In (k', v') d.
Proof.
  induction d as [|[k0 v0] d IH]; cbn [dict_set In].
  - intros [E|[]]. injection E as <- <-. now left.
  - destruct (str_eqb k0 k) eqn:E0; cbn [In].
    + apply str_eqb_eq in E0. subst k0.
      intros [E|Hin]; [injection E as <- <-; now left|auto].
    + intros [E|Hin]; [auto|]. apply IH in Hin. tauto.
Qed.

Lemma dict_set_keeps (k k' : str) (v v' : Z) (d : list (str * Z)) :
  In (k', v') d -> exists v'', In (k', v'') (dict_set k v d).
Proof.
  induction d as [|[k0 v0] d IH]; cbn [dict_set In]; [contradiction|].
  destruct (str_eqb k0 k) eqn:E0; cbn [In].
  - apply str_eqb_eq in E0. subst k0.
    intros [E|Hin]; [injection E as <- <-; eauto|eauto].
  - intros [E|Hin]; [eauto|].
    apply IH in Hin as [v'' Hin]. eauto.
Qed.

Lemma dict_set_has (k : str) (v : Z) (d : list (str * Z)) :
  exists v', In (k, v') (dict_set k v d).
Proof.
  induction d as [|[k0 v0] d IH]; cbn [dict_set]; [exists v; now left|].
  destruct (str_eqb k0 k) eqn:E.
  - apply str_eqb_eq in E. subst k0. exists v. now left.
  - destruct IH as [v' IH]. exists v'. now right.
Qed.

Lemma dict_get_in (k : str) (v : Z) (d : list (str * Z)) :
  dict_get k d = Some v -> In (k, v) d.
Proof.
  induction d as [|[k0 v0] d IH]; cbn [dict_get In]; [discriminate|].
  destruct (str_eqb k0 k) eqn:E; [|auto].
  apply str_eqb_eq in E. subst k0. intros E. injection E as ->. now left.
Qed.

Section ColumnFacts.

Context {db : UnicodeDB} {uc : UnicodeCase}.

Lemma hmap_from_sound (headers : list str) :
  forall (pre : list str) (hmap : list (str * Z)),
  items_sound hmap pre ->
  items_sound (hmap_from (Z.of_nat (length pre)) headers hmap)
    (pre ++ headers).
Proof.
  induction headers as [|h headers IH]; intros pre hmap Hs;
    cbn [hmap_from].
  - now rewrite app_nil_r.
  - replace (Z.of_nat (length pre) + 1)%Z
      with (Z.of_nat (length (pre ++ [h])))
      by (rewrite length_app; cbn [length]; lia).
    change (h :: headers) with ([h] ++ headers). rewrite app_assoc.
    apply IH. intros h_key h_idx Hin.
    apply dict_set_in in Hin as [[-> ->]|Hin].
    + split; [lia|]. exists h. split; [|reflexivity].
      rewrite Nat2Z.id, nth_error_app2 by lia.
      now rewrite Nat.sub_diag.
    + apply Hs in Hin as (H0 & h' & Hn & Hk). split; [assumption|].
      exists h'. split; [|assumption].
      rewrite nth_error_app1; [assumption|].
      apply nth_error_Some. congruence.
Qed.

Lemma hmap_from_complete (headers : list str) :
  forall (idx : Z) (pre : list str) (hmap : list (str * Z)),
  items_complete hmap pre ->
  items_complete (hmap_from idx headers hmap) (pre ++ headers).
Proof.
  induction headers as [|h headers IH]; intros idx pre hmap Hc;
    cbn [hmap_from].
  - now rewrite app_nil_r.
  - change (h :: headers) with ([h] ++ headers). rewrite app_assoc.
    apply IH. intros h' Hin. apply in_app_or in Hin as [Hin|[<-|[]]].
    + apply Hc in Hin as [i Hin]. eapply dict_set_keeps, Hin.
    + apply dict_set_has.
Qed.

Lemma build_hmap_sound (headers : list str) :
  items_sound (build_hmap headers) headers.
Proof.
  apply (hmap_from_sound headers [] []). intros ? ? [].
Qed.

Lemma build_hmap_complete (headers : list str) :
  items_complete (build_hmap headers) headers.
Proof.
  apply (hmap_from_complete headers 0%Z [] []). intros ? [].
Qed.

Lemma find_exact_some (hmap : list (str * Z)) (keys : list str) (idx : Z) :
  find_exact hmap keys = Some idx ->
  exists k, In k keys /\ In (k, idx) hmap.
Proof.
  induction keys as [|k keys IH]; cbn [find_exact]; [discriminate|].
  destruct (dict_get k hmap) as [i|] eqn:E.
  - intros E'. injection E' as ->. apply dict_get_in in E.
    exists k. split; [now left|assumption].
  - intros E'. apply IH in E' as (k' & Hk & Hin).
    exists k'. split; [now right|assumption].
Qed.

Lemma find_item_some (k : str) (items : list (str * Z)) (idx : Z) :
  find_item k items = Some idx ->
  exists h_key, In (h_key, idx) items /\ contains k h_key = true.
Proof.
  induction items as [|[h_key h_idx] items IH]; cbn [find_item];
    [discriminate|].
  destruct (contains k h_key) eqn:E.
  - intros E'. injection E' as ->. exists h_key. split; [now left|assumption].
  - intros E'. apply IH in E' as (h' & Hin & Hc).
    exists h'. split; [now right|assumption].
Qed.

Lemma find_item_none (k : str) (items : list (str * Z)) :
  find_item k items = None ->
  forall h_key h_idx, In (h_key, h_idx) items -> contains k h_key = false.
Proof.
  induction items as [|[h_key h_idx] items IH]; cbn [find_item In];
    [contradiction|].
  destruct (contains k h_key) eqn:E; [discriminate|].
  intros E' h' i' [Hin|Hin]; [congruence|]. eapply IH; eassumption.
Qed.

Lemma find_within_some (hmap : list (str * Z)) (keys : list str) (idx : Z) :
  find_within hmap keys = Some idx ->
  exists k h_key,
    In k keys /\ In (h_key, idx) hmap /\ contains k h_key = true.
Proof.
  induction keys as [|k keys IH]; cbn [find_within]; [discriminate|].
  destruct (find_item k hmap) as [i|] eqn:E.
  - intros E'. injection E' as ->.
    apply find_item_some in E as (h_key & Hin & Hc).
    exists k, h_key. split; [now left|]. auto.
  - intros E'. apply IH in E' as (k' & h_key & Hk & Hin & Hc).
    exists k', h_key. split; [now right|]. auto.
Qed.

Lemma find_within_none (hmap : list (str * Z)) (keys : list str) :
  find_within hmap keys = None ->
  forall k h_key h_idx,
  In k keys -> In (h_key, h_idx) hmap -> contains k h_key = false.
Proof.
  induction keys as [|k keys IH]; cbn [find_within In]; [contradiction|].
  destruct (find_item k hmap) as [i|] eqn:E; [discriminate|].
  intros E' k' h_key h_idx [<-|Hk] Hin.
  - eapply find_item_none; eassumption.
  - eapply IH; eassumption.
Qed.

(** A position other than -1 that [find] returns is the position of an
    item whose key contains one of the keys sought. *)
Lemma find_some (hmap : list (str * Z)) (keys : list str) :
  find hmap keys = (-1)%Z \/
  exists k h_key,
    In k keys /\ In (h_key, find hmap keys) hmap /\
    contains k h_key = true.
Proof.
  unfold find. destruct (find_exact hmap keys) as [i|] eqn:E1.
  - right. apply find_exact_some in E1 as (k & Hk & Hin).
    exists k, k. split; [assumption|]. split; [assumption|].
    apply contains_refl.
  - destruct (find_within hmap keys) as [i|] eqn:E2; [|now left].
    right. now apply find_within_some in E2.
Qed.

Lemma find_none (hmap : list (str * Z)) (keys : list str) :
  (forall h_key h_idx, In (h_key, h_idx) hmap -> (0 <= h_idx)%Z) ->
  find hmap keys = (-1)%Z ->
  forall k h_key h_idx,
  In k keys -> In (h_key, h_idx) hmap -> contains k h_key = false.
Proof.
  intros Hpos. unfold find.
  destruct (find_exact hmap keys) as [i|] eqn:E1.
  - intros ->. apply find_exact_some in E1 as (k & _ & Hin).
    apply Hpos in Hin. lia.
  - destruct (find_within hmap keys) as [i|] eqn:E2.
    + intros ->. apply find_within_some in E2 as (k & h_key & _ & Hin & _).
      apply Hpos in Hin. lia.
    + intros _. now apply find_within_none.
Qed.

Lemma find_in_range (headers keys : list str) :
  find (build_hmap headers) keys <> (-1)%Z ->
  (0 <= find (build_hmap headers) keys < Z.of_nat (length headers))%Z /\
  exists k h,
    In k keys /\
    nth_error headers (Z.to_nat (find (build_hmap headers) keys)) = Some h
    /\ contains k (normalised h) = true.
Proof.
  intros Hf.
  destruct (find_some (build_hmap headers) keys)
    as [E|(k & h_key & Hk & Hin & Hc)]; [contradiction|].
  apply build_hmap_sound in Hin as (H0 & h & Hn & <-).
  split.
  - split; [assumption|].
    assert (Z.to_nat (find (build_hmap headers) keys) < length headers)%nat
      by (apply nth_error_Some; congruence).
    lia.
  - exists k, h. auto.
Qed.

Lemma find_minus_one_iff (headers keys : list str) :
  find (build_hmap headers) keys = (-1)%Z <->
  forall k, In k keys -> ~ has_header k headers.
Proof.
  split.
  - intros Hf k Hk (h & Hh & Hc).
    apply build_hmap_complete in Hh as [i Hin].
    rewrite (find_none (build_hmap headers) keys) with (h_idx := i) in Hc;
      try assumption; [discriminate|].
    intros h_key h_idx Hi. now apply build_hmap_sound in Hi.
  - intros Hno.
    destruct (Z.eq_dec (find (build_hmap headers) keys) (-1)) as [E|E];
      [assumption|].
    exfalso. apply find_in_range in E as (_ & k & h & Hk & Hn & Hc).
    apply (Hno k Hk). exists h. split; [|assumption].
    eapply nth_error_In, Hn.
Qed.

(** X10.  [find] returns -1 exactly when no header contains one of the
    keys, once the header is stripped and put in lower case; any other
    result is the position of a header that contains one of the keys, and
    lies within the headers. *)
Theorem find_returns_a_matching_column (headers keys : list str) :
  (find (build_hmap headers) keys = (-1)%Z <->
   forall k, In k keys -> ~ has_header k headers) /\
  (find (build_hmap headers) keys <> (-1)%Z ->
   (0 <= find (build_hmap headers) keys < Z.of_nat (length headers))%Z /\
   exists k h,
     In k keys /\
     nth_error headers (Z.to_nat (find (build_hmap headers) keys)) = Some h
     /\ contains k (normalised h) = true).
Proof.
  split; [apply find_minus_one_iff|apply find_in_range].
Qed.

Lemma hmap_from_keeps (k : str) (headers : list str) :
  forall (idx : Z) (hmap : list (str * Z)),
  (forall h, In h headers -> normalised h <> k) ->
  dict_get k (hmap_from idx headers hmap) = dict_get k hmap.
Proof.
  induction headers as [|h headers IH]; intros idx hmap Hk;
    cbn [hmap_from]; [reflexivity|].
  rewrite IH by (intros h' Hh; apply Hk; now right).
  apply dict_get_set_other. apply Hk. now left.
Qed.

Lemma hmap_from_app (pre headers : list str) :
  forall (idx : Z) (hmap : list (str * Z)),
  hmap_from idx (pre ++ headers) hmap
  = hmap_from (idx + Z.of_nat (length pre)) headers
      (hmap_from idx pre hmap).
Proof.
  induction pre as [|h pre IH]; intros idx hmap; cbn [app hmap_from length].
  - now rewrite Z.add_0_r.
  - rewrite IH. f_equal. lia.
Qed.

(** X11.  A header that is a key, once stripped and put in lower case, is
    found before any header that only contains the key; among several
    such headers the last one is found. *)
Theorem exact_header_is_found_first
    (pre post : list str) (h k : str) (keys : list str) :
  normalised h = k ->
  (forall h', In h' post -> normalised h' <> k) ->
  find (build_hmap (pre ++ h :: post)) (k :: keys)
  = Z.of_nat (length pre).
Proof.
  intros Hh Hpost. unfold find, build_hmap. cbn [find_exact].
  rewrite hmap_from_app. cbn [hmap_from].
  rewrite hmap_from_keeps by assumption.
  now rewrite Hh, dict_get_set_same.
Qed.

End ColumnFacts.

Section FrameFacts.

Context {F : Type} `{PyFloat F} {db : UnicodeDB} {uc : UnicodeCase}.

Variable transform : F -> F -> F * F.

Lemma find_missing (headers : list str) (k : str) :
  ~ has_header k headers -> find (build_hmap headers) [k] = (-1)%Z.
Proof.
  intros Hk. apply find_minus_one_iff. intros k' [<-|[]]. exact Hk.
Qed.

(** X12.  A sheet in which no header contains 名称, or none contains 纬度,
    or none contains 经度 yields no point and no statistics, whatever its
    rows hold.  And in a frame, where every row has a cell for each
    header, [row.iloc] is never asked for a position that is not there:
    every position [find] returns, -1 apart, holds a cell in every row. *)
Theorem sheet_needs_its_three_headers (df : DataFrame) :
  (~ has_header key_name (columns df) \/
   ~ has_header key_lat (columns df) \/
   ~ has_header key_lng (columns df) ->
   sheet_to_points_df transform df = Ok ([], [])) /\
  (rectangular df ->
   forall row keys,
   In row (frame_rows df) ->
   find (build_hmap (columns df)) keys <> (-1)%Z ->
   iloc row (find (build_hmap (columns df)) keys) <> None).
Proof.
  split.
  - intros Hm. unfold sheet_to_points_df.
    destruct (df_empty df); [reflexivity|].
    unfold detect_columns.
    cbn [col_name col_lat col_lng].
    destruct Hm as [Hm|[Hm|Hm]]; rewrite (find_missing _ _ Hm);
      cbn [Z.eqb orb]; rewrite ?orb_true_r; reflexivity.
  - intros Hr row keys Hrow Hf.
    apply find_in_range in Hf as ([H0 H1] & _).
    unfold rectangular in Hr. rewrite Forall_forall in Hr.
    specialize (Hr row Hrow). unfold iloc.
    replace (find (build_hmap (columns df)) keys <? 0)%Z with false
      by (symmetry; apply Z.ltb_ge; lia).
    apply nth_error_Some. lia.
Qed.

(** *** The session *)

Lemma run_script_cases (s : Session F) (uploaded : option Upload) :
  run_script transform s uploaded = s \/
  run_script transform s uploaded = cleared \/
  exists u, uploaded = Some u /\
            shows transform (run_script transform s uploaded) u.
Proof.
  unfold run_script. destruct uploaded as [u|].
  - destruct (name_differs (upload_name u) (last_uploaded_filename s));
      [|now left].
    destruct (upload_frame u) as [df|] eqn:Ef; [|right; now left].
    destruct (sheet_to_points_df transform df) as [[pts stats]|e] eqn:Es;
      [|right; now left].
    right. right. exists u. split; [reflexivity|].
    split; [reflexivity|]. exists df. auto.
  - destruct (last_uploaded_filename s); [right|]; now left.
Qed.

(** What every run keeps true: the session is empty, or shows one of the
    files uploaded so far. *)
Lemma run_all_invariant (uploads : list (option Upload)) :
  forall (s : Session F) (seen : list Upload),
  (s = cleared \/ exists u, In u seen /\ shows transform s u) ->
  let s' := run_all transform s uploads in
  s' = cleared \/
  exists u, (In u seen \/ In (Some u) uploads) /\ shows transform s' u.
Proof.
  induction uploads as [|up uploads IH]; intros s seen Hs; cbn.
  - destruct Hs as [Hs|(u & Hu & Hs)]; [now left|right; eauto].
  - destruct (run_script_cases s up) as [E|[E|(u & -> & Hu)]].
    + rewrite E.
      destruct (IH s seen Hs) as [E'|(u & [Hu|Hu] & Hs')];
        [now left|right..]; exists u; auto.
    + rewrite E.
      destruct (IH cleared seen (or_introl eq_refl))
        as [E'|(u & [Hu|Hu] & Hs')]; [now left|right..]; exists u; auto.
    + destruct (IH (run_script transform s (Some u)) (u :: seen))
        as [E'|(u' & [[<-|Hu']|Hu'] & Hs')];
        [right; exists u; split; [now left|assumption]
        |now left|right..]; eexists; (split; [|eassumption]); auto.
Qed.

(** X13.  After any sequence of runs of the script the session is empty,
    with no points, no statistics and no remembered name, or it holds
    the points and the statistics of a file that was in the uploader at
    one of the runs, under the name of that file. *)
Theorem session_shows_an_uploaded_file (uploads : list (option Upload)) :
  run_all transform cleared uploads = cleared \/
  exists u,
    In (Some u) uploads /\
    shows transform (run_all transform cleared uploads) u.
Proof.
  destruct (run_all_invariant uploads cleared [] (or_introl eq_refl))
    as [E|(u & [[]|Hu] & Hs)]; [now left|right; eauto].
Qed.

Lemma name_differs_same (name : str) :
  name_differs name (Some name) = false.
Proof. cbn. now rewrite str_eqb_refl. Qed.

(** X14.  A file is read once: as long as the file in the uploader bears
    the remembered name the session stays as it is, whatever the file
    holds now; a changed file under the same name is not read again. *)
Theorem same_name_is_not_read_again
    (s : Session F) (name : str) (uploads : list (option Upload)) :
  last_uploaded_filename s = Some name ->
  Forall (fun up => exists u, up = Some u /\ upload_name u = name) uploads ->
  run_all transform s uploads = s.
Proof.
  intros Hs Hu. induction Hu as [|up uploads (u & -> & Hn) Hu IH];
    [reflexivity|].
  cbn [run_all fold_left]. unfold run_script at 2.
  rewrite Hn, Hs, name_differs_same. exact IH.
Qed.

End FrameFacts.

Section ColumnOrder.

Context {db : UnicodeDB} {uc : UnicodeCase}.

Lemma dict_set_new (k : str) (v : Z) (d : list (str * Z)) :
  ~ In k (map fst d) -> dict_set k v d = d ++ [(k, v)].
Proof.
  induction d as [|[k0 v0] d IH]; cbn [dict_set map fst In app];
    intros Hk; [reflexivity|].
  replace (str_eqb k0 k) with false
    by (symmetry; apply str_eqb_neq; tauto).
  rewrite IH by tauto. reflexivity.
Qed.

Lemma find_item_app (k : str) (d1 d2 : list (str * Z)) :
  Forall (fun item => contains k (fst item) = false) d1 ->
  find_item k (d1 ++ d2) = find_item k d2.
Proof.
  intros Hd. induction Hd as [|[k0 v0] d1 H0 Hd IH]; [reflexivity|].
  cbn [app find_item]. cbn [fst] in H0. now rewrite H0.
Qed.

(** The item [(k0, v0)] stands in [d] behind items whose keys do not
    contain [k]. *)
Lemma dict_set_behind (k k0 k' : str) (v0 v' : Z) (d : list (str * Z)) :
  k0 <> k' ->
  (exists d1 d2,
     d = d1 ++ (k0, v0) :: d2 /\
     Forall (fun item => contains k (fst item) = false) d1) ->
  exists d1 d2,
    dict_set k' v' d = d1 ++ (k0, v0) :: d2 /\
    Forall (fun item => contains k (fst item) = false) d1.
Proof.
  intros Hk (d1 & d2 & -> & Hd).
  induction Hd as [|[k1 v1] d1 H1 Hd IH]; cbn [app dict_set].
  - replace (str_eqb k0 k') with false
      by (symmetry; now apply str_eqb_neq).
    exists [], (dict_set k' v' d2). split; [reflexivity|constructor].
  - destruct (str_eqb k1 k') eqn:E.
    + exists ((k1, v') :: d1), d2. split; [reflexivity|].
      constructor; assumption.
    + destruct IH as (d1' & d2' & -> & Hd').
      exists ((k1, v1) :: d1'), d2'. split; [reflexivity|].
      constructor; assumption.
Qed.

Lemma hmap_from_behind (k k0 : str) (v0 : Z) (headers : list str) :
  forall (idx : Z) (d : list (str * Z)),
  (forall h, In h headers -> normalised h <> k0) ->
  (exists d1 d2,
     d = d1 ++ (k0, v0) :: d2 /\
     Forall (fun item => contains k (fst item) = false) d1) ->
  exists d1 d2,
    hmap_from idx headers d = d1 ++ (k0, v0) :: d2 /\
    Forall (fun item => contains k (fst item) = false) d1.
Proof.
  induction headers as [|h headers IH]; intros idx d Hh Hd;
    cbn [hmap_from]; [exact Hd|].
  apply IH; [intros h' Hin; apply Hh; now right|].
  apply dict_set_behind; [|exact Hd].
  intros E. apply (Hh h (or_introl eq_refl)). now symmetry.
Qed.

(** X20.  When no header equals the key, the first header that contains
    it is found, provided no later header has the same text once
    stripped and put in lower case (the position kept for a text is that
    of its last header). *)
Theorem first_containing_header_is_found
    (pre post : list str) (h k : str) :
  (forall h', In h' (pre ++ h :: post) -> normalised h' <> k) ->
  (forall h', In h' pre -> contains k (normalised h') = false) ->
  contains k (normalised h) = true ->
  (forall h', In h' post -> normalised h' <> normalised h) ->
  find (build_hmap (pre ++ h :: post)) [k] = Z.of_nat (length pre).
Proof.
  intros Hex Hpre Hh Hpost. unfold find. cbn [find_exact find_within].
  destruct (dict_get k (build_hmap (pre ++ h :: post))) as [i|] eqn:E.
  { exfalso. apply dict_get_in, build_hmap_sound in E
      as (_ & h' & Hn & Hk).
    apply nth_error_In in Hn. now apply (Hex h'). }
  assert (Hs : items_sound (hmap_from 0 pre []) pre)
    by (apply (hmap_from_sound pre [] []); intros ? ? []).
  assert (Hd1 : Forall (fun item => contains k (fst item) = false)
                  (hmap_from 0 pre [])).
  { apply Forall_forall. intros [k1 v1] Hin.
    apply Hs in Hin as (_ & h' & Hn & <-).
    apply Hpre. eapply nth_error_In, Hn. }
  assert (Hnew : ~ In (normalised h) (map fst (hmap_from 0 pre []))).
  { intros Hin. apply in_map_iff in Hin as ([k1 v1] & Ek & Hin).
    cbn [fst] in Ek. subst k1.
    rewrite Forall_forall in Hd1. specialize (Hd1 _ Hin).
    cbn [fst] in Hd1. congruence. }
  unfold build_hmap. rewrite hmap_from_app. cbn [hmap_from].
  rewrite dict_set_new by assumption.
  destruct (hmap_from_behind k (normalised h) (Z.of_nat (length pre)) post
              (0 + Z.of_nat (length pre) + 1)
              (hmap_from 0 pre [] ++
               [(normalised h, (0 + Z.of_nat (length pre))%Z)]))
    as (d1 & d2 & -> & Hd); [assumption| |].
  { exists (hmap_from 0 pre []), []. split; [reflexivity|assumption]. }
  rewrite find_item_app by assumption.
  cbn [find_item]. now rewrite Hh.
Qed.

End ColumnOrder.

Module FrameWitness.

Lemma exact_header_is_found_first_witness :
  find (build_hmap (db := ascii_db) (uc := ascii_case) sample_headers)
    [key_lat]
  = 2%Z.
Proof.
  apply (exact_header_is_found_first (db := ascii_db) (uc := ascii_case)
           [key_name; key_lng ++ [40; 69; 41]%N]
           [key_lat ++ [40; 78; 41]%N]
           ([32]%N ++ key_lat ++ [32]%N) key_lat []).
  - reflexivity.
  - intros h' [<-|[]]. discriminate.
Defined.

Lemma first_containing_header_is_found_witness :
  find (build_hmap (db := ascii_db) (uc := ascii_case) sample_headers)
    [key_lng]
  = 1%Z.
Proof.
  apply (first_containing_header_is_found (db := ascii_db)
           (uc := ascii_case) [key_name]
           [[32]%N ++ key_lat ++ [32]%N; key_lat ++ [40; 78; 41]%N]
           (key_lng ++ [40; 69; 41]%N) key_lng).
  - intros h' [<-|[<-|[<-|[<-|[]]]]]; discriminate.
  - intros h' [<-|[]]. reflexivity.
  - reflexivity.
  - intros h' [<-|[<-|[]]]; discriminate.
Defined.

Lemma same_name_is_not_read_again_witness :
  run_all (H := sample_ops) (db := ascii_db) (uc := ascii_case) null_shift
    {| points := sample_points; category_stats := sample_stats;
       last_uploaded_filename := Some (upload_name sample_upload) |}
    [Some sample_upload; Some sample_upload]
  = {| points := sample_points; category_stats := sample_stats;
       last_uploaded_filename := Some (upload_name sample_upload) |}.
Proof.
  apply (same_name_is_not_read_again (H := sample_ops) (db := ascii_db)
           (uc := ascii_case) null_shift _
           (upload_name sample_upload)).
  - reflexivity.
  - repeat constructor; exists sample_upload; split; reflexivity.
Defined.

End FrameWitness.

(** ** [escapeHtml] *)

Lemma escape_char_cases (m : char) :
  (In (escape_char m) entities /\
   (m = c_amp \/ markup m = true)) \/
  (escape_char m = [m] /\ m <> c_amp /\ markup m = false).
Proof.
  unfold escape_char, markup, entities.
  destruct (N.eqb m c_amp) eqn:E1; [apply N.eqb_eq in E1; cbn; auto|].
  destruct (N.eqb m c_lt) eqn:E2; [cbn; auto|].
  destruct (N.eqb m c_gt) eqn:E3; [cbn; auto 6|].
  destruct (N.eqb m c_quot) eqn:E4; [cbn; auto 7|].
  destruct (N.eqb m c_apos) eqn:E5; [cbn; auto 8|].
  right. apply N.eqb_neq in E1. auto.
Qed.

Lemma entity_shape (e : str) :
  In e entities ->
  exists tail,
    e = c_amp :: tail /\
    Forall (fun c => c <> c_amp /\ markup c = false) tail.
Proof.
  unfold entities. cbn [In].
  intros [<-|[<-|[<-|[<-|[<-|[]]]]]]; eexists; (split; [reflexivity|]);
    repeat constructor; discriminate.
Qed.

Lemma escapeHtml_app (s t : str) :
  escapeHtml (s ++ t) = escapeHtml s ++ escapeHtml t.
Proof. apply flat_map_app. Qed.

Lemma escapeHtml_no_markup (s : str) :
  Forall (fun c => markup c = false) (escapeHtml s).
Proof.
  induction s as [|m s IH]; cbn [escapeHtml flat_map]; [constructor|].
  apply Forall_app. split; [|exact IH].
  destruct (escape_char_cases m) as [[He _]|(-> & _ & Hm)].
  - apply entity_shape in He as (tail & -> & Ht).
    constructor; [reflexivity|].
    eapply Forall_impl; [|exact Ht]. now intros c [_ Hc].
  - now constructor.
Qed.

(** An [&] in the text [tail ++ t], where [tail] holds none, lies in [t]. *)
Lemma amp_after_tail (tail t pre post : str) :
  Forall (fun c => c <> c_amp /\ markup c = false) tail ->
  tail ++ t = pre ++ c_amp :: post ->
  exists pre', t = pre' ++ c_amp :: post.
Proof.
  intros Ht. revert pre.
  induction Ht as [|c tail [Hc _] Ht IH]; intros pre E; cbn [app] in E.
  - now exists pre.
  - destruct pre as [|x pre]; cbn [app] in E; injection E as E1 E2.
    + congruence.
    + now apply IH in E2.
Qed.

Lemma escapeHtml_amp (s pre post : str) :
  escapeHtml s = pre ++ c_amp :: post ->
  exists e, In e entities /\ startswith e (c_amp :: post) = true.
Proof.
  revert pre. induction s as [|m s IH]; intros pre E;
    cbn [escapeHtml flat_map] in E.
  - now destruct pre.
  - fold (escapeHtml s) in E.
    destruct (escape_char_cases m) as [[He _]|(Hm & Hna & _)].
    + destruct (entity_shape _ He) as (tail & Ee & Ht).
      rewrite Ee in E. cbn [app] in E.
      destruct pre as [|x pre]; cbn [app] in E.
      * injection E as E2.
        exists (escape_char m). split; [assumption|].
        rewrite Ee, <- E2. cbn [startswith]. rewrite N.eqb_refl.
        cbn [andb]. clear.
        induction tail as [|c tail IH]; [reflexivity|].
        cbn [app startswith]. now rewrite N.eqb_refl.
      * injection E as E1 E2.
        apply amp_after_tail in E2 as [pre' E2]; [|assumption].
        now apply IH in E2.
    + rewrite Hm in E. cbn [app] in E.
      destruct pre as [|x pre]; cbn [app] in E; injection E as E1 E2.
      * congruence.
      * now apply IH in E2.
Qed.

(** X15.  What [escapeHtml] returns holds none of the characters [<], [>],
    double quote and apostrophe, and every [&] in it begins one of the
    five entities
    [&amp;], [&lt;], [&gt;], [&quot;], [&#39;]: a field of a point cannot
    open or close a tag, an attribute or an entity of its own in the
    information window. *)
Theorem escapeHtml_leaves_no_markup (s : str) :
  Forall (fun c => markup c = false) (escapeHtml s) /\
  (forall pre post,
     escapeHtml s = pre ++ c_amp :: post ->
     exists e, In e entities /\ startswith e (c_amp :: post) = true).
Proof.
  split; [apply escapeHtml_no_markup|apply escapeHtml_amp].
Qed.

Lemma entity_second (e1 e2 : str) (t1 t2 : str) :
  In e1 entities -> In e2 entities -> e1 ++ t1 = e2 ++ t2 ->
  e1 = e2 /\ t1 = t2.
Proof.
  unfold entities. cbn [In].
  intros [<-|[<-|[<-|[<-|[<-|[]]]]]] [<-|[<-|[<-|[<-|[<-|[]]]]]] E;
    cbn in E; try discriminate; split; congruence.
Qed.

Lemma escape_char_entity_inj (m1 m2 : char) :
  In (escape_char m1) entities -> escape_char m1 = escape_char m2 ->
  m1 = m2.
Proof.
  unfold escape_char.
  destruct (N.eqb m1 c_amp) eqn:A1; destruct (N.eqb m2 c_amp) eqn:A2;
  destruct (N.eqb m1 c_lt) eqn:B1; destruct (N.eqb m2 c_lt) eqn:B2;
  destruct (N.eqb m1 c_gt) eqn:C1; destruct (N.eqb m2 c_gt) eqn:C2;
  destruct (N.eqb m1 c_quot) eqn:D1; destruct (N.eqb m2 c_quot) eqn:D2;
  destruct (N.eqb m1 c_apos) eqn:E1; destruct (N.eqb m2 c_apos) eqn:E2;
  intros Hin E; try discriminate;
  repeat match goal with
         | H : N.eqb _ _ = true |- _ => apply N.eqb_eq in H
         end; try congruence;
  try (injection E as <-; cbn in Hin; intuition discriminate);
  exfalso; unfold entities in Hin; cbn in Hin; intuition discriminate.
Qed.

Lemma escapeHtml_same (s t : str) :
  escapeHtml s = escapeHtml t -> s = t.
Proof.
  revert t. induction s as [|m s IH]; intros t E.
  - destruct t as [|n t]; [reflexivity|].
    cbn [escapeHtml flat_map] in E. exfalso.
    destruct (escape_char_cases n) as [[He _]|(Hn & _)].
    + apply entity_shape in He as (tail & Ee & _). rewrite Ee in E.
      discriminate.
    + rewrite Hn in E. discriminate.
  - destruct t as [|n t]; cbn [escapeHtml flat_map] in E.
    + exfalso.
      destruct (escape_char_cases m) as [[He _]|(Hm & _)].
      * apply entity_shape in He as (tail & Ee & _). rewrite Ee in E.
        discriminate.
      * rewrite Hm in E. discriminate.
    + fold (escapeHtml s) in E. fold (escapeHtml t) in E.
      destruct (escape_char_cases m) as [[He1 _]|(Hm & Hma & _)];
        destruct (escape_char_cases n) as [[He2 _]|(Hn & Hna & _)].
      * destruct (entity_second _ _ _ _ He1 He2 E) as [E1 E2].
        f_equal; [now apply escape_char_entity_inj|now apply IH].
      * exfalso. apply entity_shape in He1 as (tail & Ee & _).
        rewrite Ee, Hn in E. cbn in E. congruence.
      * exfalso. apply entity_shape in He2 as (tail & Ee & _).
        rewrite Ee, Hm in E. cbn in E. congruence.
      * rewrite Hm, Hn in E. cbn in E. injection E as -> E.
        f_equal. now apply IH.
Qed.

(** X16.  [escapeHtml] loses nothing: two different texts have different
    escaped forms, so that a text that looks like an entity is not taken
    for the character the entity stands for. *)
Theorem escapeHtml_injective (s t : str) :
  s <> t -> escapeHtml s <> escapeHtml t.
Proof. intros Hst E. now apply Hst, escapeHtml_same. Qed.

Lemma escapeHtml_injective_witness :
  escapeHtml [c_lt] <> escapeHtml entity_lt.
Proof. apply escapeHtml_injective. discriminate. Defined.

(** ** Classification and markers *)

(** The two loops over a table pick the same entry: the first one whose
    key is not 其他 and occurs in the text. *)
Lemma scans_pick_first (table : list (str * CatInfo)) (cat : str) :
  cat <> [] ->
  (category_key_scan table cat = cat_other /\
   category_scan table cat = other_info /\
   forall key info,
     In (key, info) table -> key <> cat_other -> contains key cat = false)
  \/
  exists pre key info post,
    table = pre ++ (key, info) :: post /\
    key <> cat_other /\ contains key cat = true /\
    (forall key' info',
       In (key', info') pre -> key' <> cat_other ->
       contains key' cat = false) /\
    category_key_scan table cat = key /\ category_scan table cat = info.
Proof.
  intros Hne.
  assert (Hc : is_empty cat = false) by now destruct cat.
  induction table as [|[key info] table IH];
    cbn [category_key_scan category_scan].
  - left. repeat split. intros ? ? [].
  - rewrite Hc. cbn [negb andb]. rewrite andb_true_r.
    destruct (str_eqb key cat_other) eqn:Ek; cbn [negb andb].
    + apply str_eqb_eq in Ek.
      destruct IH as [(I1 & I2 & I3)|(pre & k & i & post & -> & I)].
      * left. repeat split; try assumption.
        intros k' i' [E|Hin] Hk'; [congruence|eauto].
      * right. exists ((key, info) :: pre), k, i, post.
        split; [reflexivity|].
        destruct I as (I1 & I2 & I3 & I4 & I5).
        repeat split; try assumption.
        intros k' i' [E|Hin] Hk'; [congruence|eauto].
    + apply str_eqb_neq in Ek. destruct (contains key cat) eqn:Ec.
      * right. exists [], key, info, table.
        repeat split; try assumption. intros ? ? [].
      * destruct IH as [(I1 & I2 & I3)|(pre & k & i & post & -> & I)].
        -- left. repeat split; try assumption.
           intros k' i' [E|Hin] Hk'; [congruence|eauto].
        -- right. exists ((key, info) :: pre), k, i, post.
           split; [reflexivity|].
           destruct I as (I1 & I2 & I3 & I4 & I5).
           repeat split; try assumption.
           intros k' i' [E|Hin] Hk'; [congruence|eauto].
Qed.

(** X18.  How a category text is classified.  An empty text, and a text in
    which none of the keys of [CATEGORY_COLORS] other than 其他 occurs, is
    counted under 其他 and gets its colour.  Any other text is counted
    under the first key, in the order of [CATEGORY_COLORS], that occurs
    in it, and gets the colour of that key: a text that names two
    categories belongs to the one listed first. *)
Theorem category_is_first_key_in_text (category_str : str) :
  (category_key_scan CATEGORY_COLORS category_str = cat_other /\
   get_category_info category_str = other_info /\
   (category_str = [] \/
    forall key info,
      In (key, info) CATEGORY_COLORS -> key <> cat_other ->
      contains key category_str = false))
  \/
  exists pre key info post,
    CATEGORY_COLORS = pre ++ (key, info) :: post /\
    key <> cat_other /\ contains key category_str = true /\
    (forall key' info',
       In (key', info') pre -> key' <> cat_other ->
       contains key' category_str = false) /\
    category_key_scan CATEGORY_COLORS category_str = key /\
    get_category_info category_str = info.
Proof.
  destruct category_str as [|c s].
  - left. repeat split. now left.
  - destruct (scans_pick_first CATEGORY_COLORS (c :: s))
      as [(I1 & I2 & I3)|(pre & k & i & post & E & I)]; [discriminate| |].
    + left. repeat split; try assumption. now right.
    + right. exists pre, k, i, post. split; [exact E|exact I].
Qed.

(** *** The markers *)

Lemma markers_get_push (k k' : str) (p : Point float)
    (markers : list (str * list (Point float))) :
  markers_get k (push_marker k' p markers)
  = if str_eqb k' k
    then Some (match markers_get k markers with
               | Some ms => ms ++ [p]
               | None => [p]
               end)
    else markers_get k markers.
Proof.
  induction markers as [|[k0 ms] markers IH];
    cbn [push_marker markers_get].
  - destruct (str_eqb k' k); reflexivity.
  - destruct (str_eqb k0 k') eqn:E0; cbn [markers_get].
    + apply str_eqb_eq in E0. subst k0.
      destruct (str_eqb k' k); reflexivity.
    + destruct (str_eqb k0 k) eqn:E1; [|exact IH].
      apply str_eqb_eq in E1. subst k0.
      replace (str_eqb k' k) with false; [reflexivity|].
      symmetry. apply str_eqb_neq. apply str_eqb_neq in E0. congruence.
Qed.

Lemma created_snoc {A : Type} (l : list A) (x : A) :
  Some (match created l with
        | Some ms => ms ++ [x]
        | None => [x]
        end)
  = created (l ++ [x]).
Proof. destruct l as [|a l]; reflexivity. Qed.

Lemma markers_loop (k : str) (points : list (Point float)) :
  forall (seen : list (Point float))
         (markers : list (str * list (Point float))),
  markers_get k markers = created (drawn_under k seen) ->
  markers_get k
    (fold_left
       (fun markers p =>
          if has_marker p then push_marker (catKey p) p markers
          else markers)
       points markers)
  = created (drawn_under k (seen ++ points)).
Proof.
  induction points as [|p points IH]; intros seen markers Hm;
    cbn [fold_left].
  - now rewrite app_nil_r.
  - change (p :: points) with ([p] ++ points). rewrite app_assoc.
    apply IH. unfold drawn_under in *. rewrite filter_app. cbn [filter].
    destruct (has_marker p); cbn [andb].
    + rewrite markers_get_push.
      destruct (str_eqb (catKey p) k).
      * rewrite Hm. apply created_snoc.
      * now rewrite app_nil_r.
    + now rewrite app_nil_r.
Qed.

Lemma drawn_under_none (k : str) (points : list (Point float)) :
  (forall p, In p points -> catKey p = k -> has_marker p = false) ->
  drawn_under k points = [].
Proof.
  unfold drawn_under.
  induction points as [|p points IH]; intros Hno; [reflexivity|].
  cbn [filter]. rewrite IH by (intros q Hq; apply Hno; now right).
  destruct (str_eqb (catKey p) k) eqn:Ek; [|now rewrite andb_false_r].
  apply str_eqb_eq in Ek. now rewrite (Hno p (or_introl eq_refl) Ek).
Qed.

Lemma drawn_under_all (k : str) (points : list (Point float)) :
  (forall p, In p points -> has_marker p = true) ->
  drawn_under k points = filter (fun p => str_eqb (catKey p) k) points.
Proof.
  intros Hall. unfold drawn_under. apply filter_ext_in.
  intros p Hp. now rewrite (Hall p Hp).
Qed.

Lemma categoryCount_counts (k : str) (points : list (Point float)) :
  stats_get k (categoryCount points)
  = length (filter (fun p => str_eqb (catKey p) k) points).
Proof.
  induction points as [|q points IH] using rev_ind; [reflexivity|].
  rewrite categoryCount_app, stats_get_bump, filter_app, length_app, IH.
  cbn [filter]. destruct (str_eqb (catKey q) k); reflexivity.
Qed.

(** X19.  The markers of a category are its points with a marker, in the
    order of the points, where a point has a marker when neither of its
    coordinates is zero or NaN; and the list of a category exists only
    when it has such a point.  So a point at latitude 0 or longitude 0 is
    counted in the legend and never drawn, and a legend item all of whose
    points are such finds no list of markers at all; when every point has
    a marker, every legend item finds a list as long as its count. *)
Theorem markers_are_the_drawn_points (points : list (Point float))
    (k : str) :
  markers_get k (markersByCategory points)
  = created (drawn_under k points) /\
  ((forall p, In p points -> catKey p = k -> has_marker p = false) ->
   markers_get k (markersByCategory points) = None) /\
  ((forall p, In p points -> has_marker p = true) ->
   forall n, In (k, n) (legend points) ->
   exists ms,
     markers_get k (markersByCategory points) = Some ms /\ length ms = n).
Proof.
  assert (E : markers_get k (markersByCategory points)
              = created (drawn_under k points))
    by (apply (markers_loop k points [] []); reflexivity).
  split; [exact E|]. rewrite E. split.
  - intros Hno. now rewrite drawn_under_none.
  - intros Hall n Hin. rewrite drawn_under_all by assumption.
    unfold legend in Hin. apply in_legend_items in Hin as (_ & -> & Hp).
    rewrite categoryCount_counts in Hp |- *.
    destruct (filter (fun p => str_eqb (catKey p) k) points) as [|a l];
      [cbn in Hp; lia|].
    eexists. split; reflexivity.
Qed.

Lemma markers_are_the_drawn_points_witness :
  In (cat_other, 1%nat) (legend sample_points) /\
  markers_get cat_other (markersByCategory sample_points) = None.
Proof.
  split; [vm_compute; auto|].
  apply (markers_are_the_drawn_points sample_points cat_other).
  intros p [<-|[<-|[<-|[]]]] Hk; try reflexivity; vm_compute in Hk;
    discriminate.
Defined.

(** ** How far the correction moves a point *)

Module Displacement.

Import Exact ExactCore ExactFacts Enclosure Numeric.

Local Open Scope R_scope.













End Displacement.
